(** * IdzeyKL: a shallow embedding of the lexer, parser and tree-walking
    interpreter, and the properties its specification states about them.

    The development follows the C++ sources:
    - [lexer.cpp]/[lexer.hpp]: [TokenType], [Token], [Lexer];
    - [parser.hpp]/[parser.cpp]: the AST and the recursive-descent [Parser];
    - [interpreter.hpp]/[interpreter.cpp]: [Value], [Environment],
      [Interpreter];
    - [mainClassicBuffer.cpp]: [main] and, from BufferFunc.hpp,
      [isIdzeyKLFile] and [readFileIdzeyKL].

    Conventions.
    - [int] is a 32-bit two's complement integer carried by a [Z]; signed
      overflow of [+], [-] and [*], which C++ leaves undefined, takes the
      wrapped result; a division whose divisor is zero or whose quotient
      is no [int] ([INT_MIN / -1]) has no result: the division
      instruction traps and the process is killed.
    - [double] is IEEE-754 binary64, carried by [spec_float] with
      [prec = 53] and [emax = 1024].
    - [std::string] is [string]; a [std::vector] is a [list]; the
      [std::unordered_map] of an [Environment] is a [gmap].
    - Environments are shared through [std::shared_ptr]: they live in a
      store (a list indexed by address) and are referred to by address.
    - C++ exceptions are an explicit exceptional outcome that the
      [try]/[catch] combinators inspect in the order of the handlers.
    - Recursion through the AST and the iterations of [while (true)] are
      bounded by a fuel counter. *)

From Stdlib Require Import ZArith Bool List Ascii String Lia.
From Stdlib Require Import Floats.SpecFloat.
From Stdlib Require Import Numbers.DecimalString.
From stdpp Require Import base option list strings gmap.

Import ListNotations.
#[local] Set Warnings "-register-all".
Local Open Scope string_scope.
Local Open Scope list_scope.
Local Open Scope Z_scope.

(* ===================================================================== *)
(** * Machine numbers *)
(* ===================================================================== *)

Module Num.

(** ** 32-bit [int] *)

Definition INT_MIN : Z := - 2 ^ 31.
Definition INT_MAX : Z := 2 ^ 31 - 1.

Definition in_int (z : Z) : Prop := INT_MIN <= z <= INT_MAX.

Definition wrap32 (z : Z) : Z := (z + 2 ^ 31) mod 2 ^ 32 - 2 ^ 31.

Definition int_add (a b : Z) : Z := wrap32 (a + b).
Definition int_sub (a b : Z) : Z := wrap32 (a - b).
Definition int_mul (a b : Z) : Z := wrap32 (a * b).
(** C++ [/] and [%] truncate towards zero.  Both are undefined when the
    divisor is zero and when the quotient is not an [int], which is the
    case of [INT_MIN / -1] and [INT_MIN % -1] only: the division
    instruction raises the divide error there and the process receives
    SIGFPE.  [None] stands for that. *)
Definition division_traps (a b : Z) : bool :=
  (b =? 0) || ((a =? INT_MIN) && (b =? -1)).

Definition int_div (a b : Z) : option Z :=
  if division_traps a b then None else Some (Z.quot a b).
Definition int_rem (a b : Z) : option Z :=
  if division_traps a b then None else Some (Z.rem a b).

(** ** binary64 [double] *)

Abbreviation double := spec_float.

Definition prec : Z := 53.
Definition emax : Z := 1024.

Definition dadd : double -> double -> double := SFadd prec emax.
Definition dsub : double -> double -> double := SFsub prec emax.
Definition dmul : double -> double -> double := SFmul prec emax.
Definition ddiv : double -> double -> double := SFdiv prec emax.
Definition dneg : double -> double := SFopp.
Definition deqb : double -> double -> bool := SFeqb.
Definition dltb : double -> double -> bool := SFltb.
Definition dleb : double -> double -> bool := SFleb.

Definition dzero : double := S754_zero false.

(** [static_cast<double>(int)]: every [int] is representable. *)
Definition of_int (z : Z) : double := binary_normalize prec emax z 0 false.

(** The integer part of a finite double, towards zero. *)
Definition dtrunc (d : double) : option Z :=
  match d with
  | S754_zero _ => Some 0
  | S754_finite s m e =>
      let a := Z.shiftl (Zpos m) e in
      Some (if s then - a else a)
  | S754_infinity _ | S754_nan => None
  end.

(** [static_cast<int>(double)]: truncation; a value that does not fit
    (or is not a number) is undefined in C++ and yields the "integer
    indefinite" value [INT_MIN] of the x86-64 conversion instruction. *)
Definition to_int (d : double) : Z :=
  match dtrunc d with
  | Some z => if (INT_MIN <=? z) && (z <=? INT_MAX) then z else INT_MIN
  | None => INT_MIN
  end.

(** [fmod(x, y)]: the exact remainder of the truncated division, with
    the sign of [x]. *)
Definition dfmod (x y : double) : double :=
  match x, y with
  | S754_nan, _ | _, S754_nan => S754_nan
  | S754_infinity _, _ => S754_nan
  | _, S754_zero _ => S754_nan
  | S754_zero _, _ => x
  | S754_finite _ _ _, S754_infinity _ => x
  | S754_finite sx mx ex, S754_finite _ my ey =>
      let e := Z.min ex ey in
      let ax := Z.shiftl (Zpos mx) (ex - e) in
      let ay := Z.shiftl (Zpos my) (ey - e) in
      let r := Z.rem ax ay in
      binary_normalize prec emax (if sx then - r else r) e sx
  end.

(** ** [std::to_string] *)

(** [std::to_string(int)]: decimal digits, with a leading [-]. *)
Definition to_string_int (z : Z) : string :=
  NilZero.string_of_int (Z.to_int z).

Definition string_of_nat (n : nat) : string :=
  NilZero.string_of_uint (Nat.to_uint n).

Fixpoint zero_pad (width : nat) (s : string) : string :=
  match width with
  | O => s
  | S w => if (String.length s <? 6)%nat then zero_pad w ("0" +:+ s) else s
  end.

(** [std::to_string(double)] prints with ["%f"]: six digits after the
    point, the exact value rounded to nearest, ties to even. *)
Definition round_half_even (num den : Z) : Z :=
  let q := num / den in
  let r := num mod den in
  match 2 * r ?= den with
  | Lt => q
  | Gt => q + 1
  | Eq => if Z.even q then q else q + 1
  end.

Definition to_string_double (d : double) : string :=
  match d with
  | S754_nan => "nan"
  | S754_infinity s => if s then "-inf" else "inf"
  | S754_zero s => if s then "-0.000000" else "0.000000"
  | S754_finite s m e =>
      let n :=
        if 0 <=? e then Zpos m * 2 ^ e * 1000000
        else round_half_even (Zpos m * 1000000) (2 ^ (- e)) in
      (if s then "-" else EmptyString) +:+
      to_string_int (n / 1000000) +:+ "." +:+
      zero_pad 6 (to_string_int (n mod 1000000))
  end.

End Num.

Import Num.

(* ===================================================================== *)
(** * The conversions of the C++ library *)
(* ===================================================================== *)

(** [std::stoi] and [std::stod] as the sources use them, for the "C"
    locale: leading white space, an optional sign, then the longest
    numeral; [None] stands for [std::invalid_argument] or
    [std::out_of_range].  The model is parameterised by these two
    functions and the general theorems hold for any behaviour of them;
    the functions below are used to run programs. *)
Module Std.

Definition isspace (c : ascii) : bool :=
  let n := nat_of_ascii c in
  (n =? 32)%nat || ((9 <=? n)%nat && (n <=? 13)%nat).

Definition digit_val (c : ascii) : option Z :=
  let n := nat_of_ascii c in
  if (48 <=? n)%nat && (n <=? 57)%nat then Some (Z.of_nat n - 48) else None.

Definition hex_val (c : ascii) : option Z :=
  let n := nat_of_ascii c in
  if (48 <=? n)%nat && (n <=? 57)%nat then Some (Z.of_nat n - 48)
  else if (97 <=? n)%nat && (n <=? 102)%nat then Some (Z.of_nat n - 87)
  else if (65 <=? n)%nat && (n <=? 70)%nat then Some (Z.of_nat n - 55)
  else None.

Definition lower (c : ascii) : ascii :=
  let n := nat_of_ascii c in
  if (65 <=? n)%nat && (n <=? 90)%nat then ascii_of_nat (n + 32) else c.

Fixpoint skip_spaces (cs : list ascii) : list ascii :=
  match cs with
  | c :: cs' => if isspace c then skip_spaces cs' else cs
  | [] => []
  end.

(** The longest prefix of digits in [base]: its value, its length and
    what follows. *)
Fixpoint digits (val : ascii -> option Z) (base : Z) (acc : Z) (n : nat)
    (cs : list ascii) : Z * nat * list ascii :=
  match cs with
  | c :: cs' =>
      match val c with
      | Some d => digits val base (acc * base + d) (S n) cs'
      | None => (acc, n, cs)
      end
  | [] => (acc, n, cs)
  end.

Definition sign_of (cs : list ascii) : bool * list ascii :=
  match cs with
  | c :: cs' =>
      if Ascii.eqb c "-" then (true, cs')
      else if Ascii.eqb c "+" then (false, cs')
      else (false, cs)
  | [] => (false, cs)
  end.

Definition stoi (s : string) : option (Z * nat) :=
  let cs0 := list_ascii_of_string s in
  let cs1 := skip_spaces cs0 in
  let '(neg, cs2) := sign_of cs1 in
  let '(v, n, rest) := digits digit_val 10 0 O cs2 in
  if (n =? 0)%nat then None
  else
    let z := if neg then - v else v in
    if (INT_MIN <=? z) && (z <=? INT_MAX)
    then Some (z, (List.length cs0 - List.length rest)%nat)
    else None.

Fixpoint is_prefix_ci (p cs : list ascii) : bool :=
  match p, cs with
  | [], _ => true
  | a :: p', c :: cs' => Ascii.eqb a (lower c) && is_prefix_ci p' cs'
  | _, [] => false
  end.

(** The binary64 nearest to [num / den] ([num], [den] positive), ties to
    even: the quotient is taken with 64 bits or more and one sticky bit
    for the remainder, and then rounded once. *)
Definition round_ratio (neg : bool) (num den : Z) : double :=
  let shift := Z.max 0 (64 + Z.log2 den - Z.log2 num) in
  let q := (num * 2 ^ shift) / den in
  let r := (num * 2 ^ shift) mod den in
  let m := 2 * q + (if r =? 0 then 0 else 1) in
  binary_normalize prec emax (if neg then - m else m) (- shift - 1) neg.

Definition is_subnormal (d : double) : bool :=
  match d with
  | S754_finite _ m _ => negb (Zpos (digits2_pos m) =? prec)
  | _ => false
  end.

(** Whether the finite double [d] is exactly [num / den]. *)
Definition is_exact (d : double) (num den : Z) : bool :=
  match d with
  | S754_finite _ m e =>
      if 0 <=? e then Zpos m * 2 ^ e * den =? num
      else Zpos m * den =? num * 2 ^ (- e)
  | _ => false
  end.

(** The result for the value [num / den]; [ERANGE] (overflow, or an
    inexact result below the normal range) makes [std::stod] throw. *)
Definition finish (neg : bool) (num den : Z) : option double :=
  if num =? 0 then Some (S754_zero neg)
  else
    match round_ratio neg num den with
    | S754_infinity _ | S754_nan => None
    | S754_zero _ => None
    | S754_finite _ _ _ as d =>
        if is_subnormal d && negb (is_exact d num den) then None else Some d
    end.

(** An exponent part: the marker, an optional sign and one digit or
    more; when there is none the exponent is [0]. *)
Definition exponent (marker : ascii) (cs : list ascii) : Z :=
  match cs with
  | c :: cs' =>
      if Ascii.eqb (lower c) marker then
        let '(neg, cs2) := sign_of cs' in
        let '(v, n, _) := digits digit_val 10 0 O cs2 in
        if (n =? 0)%nat then 0 else if neg then - v else v
      else 0
  | [] => 0
  end.

(** Mantissa digits with an optional point: value of all the digits,
    how many there are, how many follow the point, and the rest. *)
Definition mantissa (val : ascii -> option Z) (base : Z) (cs : list ascii)
  : Z * nat * nat * list ascii :=
  let '(v1, n1, rest1) := digits val base 0 O cs in
  match rest1 with
  | c :: cs' =>
      if Ascii.eqb c "." then
        let '(v2, n2, rest2) := digits val base v1 O cs' in
        if ((n1 + n2)%nat =? 0)%nat then (v1, n1, O, rest1)
        else (v2, (n1 + n2)%nat, n2, rest2)
      else (v1, n1, O, rest1)
  | [] => (v1, n1, O, rest1)
  end.

Definition scale (neg : bool) (v : Z) (base : Z) (e : Z) : option double :=
  if 0 <=? e then finish neg (v * base ^ e) 1 else finish neg v (base ^ (- e)).

Definition stod (s : string) : option double :=
  let cs := skip_spaces (list_ascii_of_string s) in
  let '(neg, cs) := sign_of cs in
  if is_prefix_ci (list_ascii_of_string "inf") cs then Some (S754_infinity neg)
  else if is_prefix_ci (list_ascii_of_string "nan") cs then Some S754_nan
  else
    let hex :=
      match cs with
      | z :: x :: cs' =>
          if Ascii.eqb z "0" && Ascii.eqb (lower x) "x" then
            let '(v, n, frac, rest) := mantissa hex_val 16 cs' in
            if (n =? 0)%nat then None else Some (v, frac, rest)
          else None
      | _ => None
      end in
    match hex with
    | Some (v, frac, rest) => scale neg v 2 (exponent "p" rest - 4 * Z.of_nat frac)
    | None =>
        let '(v, n, frac, rest) := mantissa digit_val 10 cs in
        if (n =? 0)%nat then None
        else scale neg v 10 (exponent "e" rest - Z.of_nat frac)
    end.

End Std.

(* ===================================================================== *)
(** * Tokens (lexer.hpp) *)
(* ===================================================================== *)

Inductive TokenType :=
  | EOF_TOKEN | ERROR | IDENTIFIER | NUMBER | STRING
  | PLUS | MINUS | MULTIPLY | DIVIDE | MODULO | ASSIGN | EQUALS | NOT_EQUALS
  | LESS | GREATER | LESS_EQ | GREATER_EQ | BANG | AND | OR
  | LPAREN | RPAREN | LBRACE | RBRACE | LBRACKET | RBRACKET
  | COMMA | SEMICOLON | DOT
  | FUNC | PRINT | PRINTLN | LOOP | IF | ELSE | RETURN | VAR
  | TRUE | FALSE | NULL_TOKEN | BREAK.

#[global] Instance TokenType_eq_dec : EqDecision TokenType.
Proof. solve_decision. Defined.

(** [std::variant<std::string, double, bool>]; a default-constructed
    [TokenValue] holds the first alternative, an empty string. *)
Inductive TokenValue :=
  | TVString (s : string)
  | TVDouble (d : double)
  | TVBool (b : bool).

Definition TokenValue_default : TokenValue := TVString EmptyString.

Record Token := mkToken {
  tok_type : TokenType;
  tok_value : TokenValue;
  tok_line : Z;
  tok_column : Z;
  tok_lexeme : string
}.

(** The two constructors of [Token]. *)
Definition Token4 (type : TokenType) (lexeme : string) (line column : Z) : Token :=
  mkToken type (TVString EmptyString) line column lexeme.

Definition Token5 (type : TokenType) (value : TokenValue) (lexeme : string)
    (line column : Z) : Token :=
  mkToken type value line column lexeme.

Definition tokenTypeToString (type : TokenType) : string :=
  match type with
  | EOF_TOKEN => "EOF" | ERROR => "ERROR" | IDENTIFIER => "IDENTIFIER"
  | NUMBER => "NUMBER" | STRING => "STRING" | PLUS => "PLUS"
  | MINUS => "MINUS" | MULTIPLY => "MULTIPLY" | DIVIDE => "DIVIDE"
  | MODULO => "MODULO" | ASSIGN => "ASSIGN" | EQUALS => "EQUALS"
  | NOT_EQUALS => "NOT_EQUALS" | LESS => "LESS" | GREATER => "GREATER"
  | LESS_EQ => "LESS_EQ" | GREATER_EQ => "GREATER_EQ" | BANG => "BANG"
  | AND => "AND" | OR => "OR" | LPAREN => "LPAREN" | RPAREN => "RPAREN"
  | LBRACE => "LBRACE" | RBRACE => "RBRACE" | LBRACKET => "LBRACKET"
  | RBRACKET => "RBRACKET" | COMMA => "COMMA" | SEMICOLON => "SEMICOLON"
  | DOT => "DOT" | FUNC => "FUNC" | PRINT => "PRINT" | PRINTLN => "PRINTLN"
  | LOOP => "LOOP" | IF => "IF" | ELSE => "ELSE" | RETURN => "RETURN"
  | VAR => "VAR" | TRUE => "TRUE" | FALSE => "FALSE" | NULL_TOKEN => "NULL"
  | BREAK => "BREAK"
  end.

(* ===================================================================== *)
(** * The abstract syntax tree (parser.hpp) *)
(* ===================================================================== *)

(** A [std::unique_ptr] that the parser may leave null is an [option]. *)

Inductive Expression :=
  | BinaryExpression (op : TokenType) (left right : Expression)
  | UnaryExpression (op : TokenType) (expr : Expression)
  | Identifier (name : string)
  | Literal (value : TokenValue)
  | CallExpression (callee : Expression) (arguments : list Expression)
  | ArrayExpression (elements : list Expression)
  | ArrayAccessExpression (array index : Expression)
  | PropertyAccessExpression (object : Expression) (property : string).

Inductive Statement :=
  | BlockStatement (statements : list Statement)
  | VariableDeclaration (identifier : string) (initializer : option Expression)
  | FunctionDeclaration (name : string) (parameters : list string)
      (body : option (list Statement))
  | LoopStatement (init : option Statement) (condition increment : option Expression)
      (body : list Statement)
  | IfStatement (condition : Expression) (thenBranch : list Statement)
      (elseBranch : option (list Statement))
  | PrintStatement (isPrintln : bool) (args : list Expression) (directString : string)
  | ReturnStatement (value : option Expression)
  | BreakStatement
  | ExpressionStatement (expr : Expression).

(* ===================================================================== *)
(** * Values (interpreter.hpp, interpreter.cpp) *)
(* ===================================================================== *)

(** The tag [type_] together with the member that the tag selects.  The
    C++ object keeps its other members around, but none of them is read
    under a tag that does not select it. *)
Inductive Value :=
  | VNull
  | VDouble (number_ : double)                      (* Type::NUMBER *)
  | VInteger (integer_ : Z)                         (* Type::INTEGER *)
  | VString (string_ : string)
  | VBoolean (boolean_ : bool)
  | VArray (array_ : list Value)
  | VFunction (functionName_ : string) (parameters_ : list string)
      (body_ : list Statement)
  | VNativeFunction.

(** The exception classes that travel through the program:
    [RuntimeError], [Return] and [Break] of interpreter.hpp (all three
    derive from [std::runtime_error]) and every other [std::exception]
    (the parser's [std::runtime_error], [std::out_of_range] of [std::stod],
    ...), each with its [what()]. *)
Inductive Exception :=
  | RuntimeError (what : string)
  | Return (value : Value)
  | Break
  | StdException (what : string).

Definition what (e : Exception) : string :=
  match e with
  | RuntimeError w => w
  | Return _ => EmptyString
  | Break => EmptyString
  | StdException w => w
  end.

(* ===================================================================== *)
(** * The lexer (lexer.cpp) *)
(* ===================================================================== *)

Record Lexer := mkLexer {
  source_ : string;
  current_ : nat;
  start_ : nat;
  line_ : Z;
  column_ : Z;
  tokenBuffer_ : list Token         (* std::queue: front is the head *)
}.

Module Lex.
Section WithStd.

Variable stod : string -> option double.

(** Subtraction of [size_t] values wraps modulo [2^64]. *)
Definition size_sub (a b : Z) : Z := (a - b) mod 2 ^ 64.

Definition NUL : ascii := "000"%char.
Definition TAB : ascii := "009"%char.
Definition LF : ascii := "010"%char.
Definition CR : ascii := "013"%char.
Definition DQUOTE : ascii := "034"%char.

Definition char_between (lo hi c : ascii) : bool :=
  (nat_of_ascii lo <=? nat_of_ascii c)%nat && (nat_of_ascii c <=? nat_of_ascii hi)%nat.

(** [std::isdigit], [std::isalpha], [std::isalnum] in the "C" locale. *)
Definition isdigit (c : ascii) : bool := char_between "0" "9" c.
Definition isalpha (c : ascii) : bool := char_between "a" "z" c || char_between "A" "Z" c.
Definition isalnum (c : ascii) : bool := isalpha c || isdigit c.

Definition keywords (text : string) : option TokenType :=
  if String.eqb text "func" then Some FUNC
  else if String.eqb text "print" then Some PRINT
  else if String.eqb text "println" then Some PRINTLN
  else if String.eqb text "loop" then Some LOOP
  else if String.eqb text "if" then Some IF
  else if String.eqb text "else" then Some ELSE
  else if String.eqb text "return" then Some RETURN
  else if String.eqb text "var" then Some VAR
  else if String.eqb text "true" then Some TRUE
  else if String.eqb text "false" then Some FALSE
  else if String.eqb text "null" then Some NULL_TOKEN
  else if String.eqb text "break" then Some BREAK
  else None.

Definition new (source : string) : Lexer := mkLexer source 0 0 1 1 [].

Definition char_at (s : string) (i : nat) : ascii :=
  match String.get i s with Some c => c | None => NUL end.

Definition isAtEnd (lx : Lexer) : bool :=
  (String.length (source_ lx) <=? current_ lx)%nat.

Definition isEOF (lx : Lexer) : bool := isAtEnd lx.

Definition advance (lx : Lexer) : ascii * Lexer :=
  let c := char_at (source_ lx) (current_ lx) in
  let lx1 := mkLexer (source_ lx) (S (current_ lx)) (start_ lx) (line_ lx)
               (column_ lx) (tokenBuffer_ lx) in
  if Ascii.eqb c LF then
    (c, mkLexer (source_ lx1) (current_ lx1) (start_ lx1) (line_ lx1 + 1) 1 (tokenBuffer_ lx1))
  else
    (c, mkLexer (source_ lx1) (current_ lx1) (start_ lx1) (line_ lx1) (column_ lx1 + 1)
          (tokenBuffer_ lx1)).

Definition match_ (expected : ascii) (lx : Lexer) : bool * Lexer :=
  if isAtEnd lx || negb (Ascii.eqb (char_at (source_ lx) (current_ lx)) expected)
  then (false, lx)
  else (true, mkLexer (source_ lx) (S (current_ lx)) (start_ lx) (line_ lx)
                (column_ lx + 1) (tokenBuffer_ lx)).

Definition peek (lx : Lexer) : ascii :=
  if isAtEnd lx then NUL else char_at (source_ lx) (current_ lx).

Definition peekNext (lx : Lexer) : ascii :=
  if (String.length (source_ lx) <=? current_ lx + 1)%nat then NUL
  else char_at (source_ lx) (current_ lx + 1).

(** The loops of the lexer consume one character per iteration; the
    length of the source bounds their iterations. *)
Fixpoint skipComment_loop (n : nat) (lx : Lexer) : Lexer :=
  match n with
  | O => lx
  | S n' =>
      if negb (Ascii.eqb (peek lx) LF) && negb (isAtEnd lx)
      then skipComment_loop n' (snd (advance lx))
      else lx
  end.

Definition skipComment (lx : Lexer) : Lexer :=
  skipComment_loop (String.length (source_ lx)) lx.

Fixpoint skipWhitespace_loop (n : nat) (lx : Lexer) : Lexer :=
  match n with
  | O => lx
  | S n' =>
      let c := peek lx in
      if Ascii.eqb c " " || Ascii.eqb c CR || Ascii.eqb c TAB then
        skipWhitespace_loop n' (snd (advance lx))
      else if Ascii.eqb c LF then
        skipWhitespace_loop n' (snd (advance lx))
      else if Ascii.eqb c "/" then
        if Ascii.eqb (peekNext lx) "/" then skipWhitespace_loop n' (skipComment lx)
        else lx
      else lx
  end.

Definition skipWhitespace (lx : Lexer) : Lexer :=
  skipWhitespace_loop (S (String.length (source_ lx))) lx.

Definition set_start (lx : Lexer) (start : nat) : Lexer :=
  mkLexer (source_ lx) (current_ lx) start (line_ lx) (column_ lx) (tokenBuffer_ lx).

Definition push_token (lx : Lexer) (t : Token) : Lexer :=
  mkLexer (source_ lx) (current_ lx) (start_ lx) (line_ lx) (column_ lx)
    (tokenBuffer_ lx ++ [t]).

Definition text_of (lx : Lexer) : string :=
  String.substring (start_ lx) (current_ lx - start_ lx) (source_ lx).

Definition identifierType (lx : Lexer) : TokenType :=
  match keywords (text_of lx) with
  | Some t => t
  | None => IDENTIFIER
  end.

Fixpoint advance_while (p : ascii -> bool) (n : nat) (lx : Lexer) : Lexer :=
  match n with
  | O => lx
  | S n' => if p (peek lx) then advance_while p n' (snd (advance lx)) else lx
  end.

Definition strlen (s : string) : Z := Z.of_nat (String.length s).

Definition scanIdentifier (lx : Lexer) : Token * Lexer :=
  let lx := advance_while (fun c => isalnum c || Ascii.eqb c "_")
              (String.length (source_ lx)) lx in
  let text := text_of lx in
  let type := identifierType lx in
  if String.eqb text "loop" && Ascii.eqb (peek lx) "(" then
    let loopToken := Token4 LOOP text (line_ lx) (size_sub (column_ lx) (strlen text)) in
    let lx := snd (advance lx) in
    let lx := push_token lx (Token4 LPAREN "(" (line_ lx) (size_sub (column_ lx) 1)) in
    let lx := set_start lx (current_ lx) in
    (loopToken, lx)
  else
    let col := size_sub (column_ lx) (strlen text) in
    match type with
    | IDENTIFIER => (Token5 type (TVString text) text (line_ lx) col, lx)
    | TRUE => (Token5 type (TVBool true) text (line_ lx) col, lx)
    | FALSE => (Token5 type (TVBool false) text (line_ lx) col, lx)
    | _ => (Token4 type text (line_ lx) col, lx)
    end.

Definition scanNumber (lx : Lexer) : (Token + Exception) * Lexer :=
  let lx := advance_while isdigit (String.length (source_ lx)) lx in
  let lx :=
    if Ascii.eqb (peek lx) "." && isdigit (peekNext lx) then
      advance_while isdigit (String.length (source_ lx)) (snd (advance lx))
    else lx in
  let numberStr := text_of lx in
  match stod numberStr with
  | Some value =>
      (inl (Token5 NUMBER (TVDouble value) numberStr (line_ lx)
              (size_sub (column_ lx) (strlen numberStr))), lx)
  | None => (inr (StdException "stod"), lx)
  end.

Fixpoint scanString_loop (n : nat) (lx : Lexer) : Lexer :=
  match n with
  | O => lx
  | S n' =>
      if negb (Ascii.eqb (peek lx) DQUOTE) && negb (isAtEnd lx) then
        let lx :=
          if Ascii.eqb (peek lx) LF then
            mkLexer (source_ lx) (current_ lx) (start_ lx) (line_ lx + 1) 1 (tokenBuffer_ lx)
          else lx in
        scanString_loop n' (snd (advance lx))
      else lx
  end.

Definition scanString (lx : Lexer) : Token * Lexer :=
  let lx := scanString_loop (String.length (source_ lx)) lx in
  if isAtEnd lx then
    (Token4 ERROR "Unterminated string" (line_ lx) (column_ lx), lx)
  else
    let lx := snd (advance lx) in
    let value := String.substring (start_ lx + 1) (current_ lx - start_ lx - 2) (source_ lx) in
    (Token5 STRING (TVString value) value (line_ lx)
       (size_sub (size_sub (column_ lx) (strlen value)) 2), lx).

Definition two_char (second : ascii) (both : TokenType) (both_lexeme : string)
    (single : TokenType) (single_lexeme : string) (lx : Lexer) : Token * Lexer :=
  let '(m, lx) := match_ second lx in
  if m then (Token4 both both_lexeme (line_ lx) (size_sub (column_ lx) 2), lx)
  else (Token4 single single_lexeme (line_ lx) (size_sub (column_ lx) 1), lx).

Definition scanToken (lx : Lexer) : (Token + Exception) * Lexer :=
  let '(c, lx) := advance lx in
  let one (type : TokenType) (lexeme : string) : (Token + Exception) * Lexer :=
    (inl (Token4 type lexeme (line_ lx) (size_sub (column_ lx) 1)), lx) in
  let two (r : Token * Lexer) : (Token + Exception) * Lexer := (inl (fst r), snd r) in
  if isalpha c || Ascii.eqb c "_" then two (scanIdentifier lx)
  else if isdigit c then scanNumber lx
  else if Ascii.eqb c "(" then one LPAREN "("
  else if Ascii.eqb c ")" then one RPAREN ")"
  else if Ascii.eqb c "{" then one LBRACE "{"
  else if Ascii.eqb c "}" then one RBRACE "}"
  else if Ascii.eqb c "[" then one LBRACKET "["
  else if Ascii.eqb c "]" then one RBRACKET "]"
  else if Ascii.eqb c ";" then one SEMICOLON ";"
  else if Ascii.eqb c "," then one COMMA ","
  else if Ascii.eqb c "." then one DOT "."
  else if Ascii.eqb c "-" then one MINUS "-"
  else if Ascii.eqb c "+" then one PLUS "+"
  else if Ascii.eqb c "/" then one DIVIDE "/"
  else if Ascii.eqb c "*" then one MULTIPLY "*"
  else if Ascii.eqb c "%" then one MODULO "%"
  else if Ascii.eqb c "!" then two (two_char "=" NOT_EQUALS "!=" BANG "!" lx)
  else if Ascii.eqb c "=" then two (two_char "=" EQUALS "==" ASSIGN "=" lx)
  else if Ascii.eqb c "<" then two (two_char "=" LESS_EQ "<=" LESS "<" lx)
  else if Ascii.eqb c ">" then two (two_char "=" GREATER_EQ ">=" GREATER ">" lx)
  else if Ascii.eqb c "&" then
    two (two_char "&" AND "&&" ERROR "Expected '&' after '&'" lx)
  else if Ascii.eqb c "|" then
    two (two_char "|" OR "||" ERROR "Expected '|' after '|'" lx)
  else if Ascii.eqb c DQUOTE then two (scanString lx)
  else one ERROR "Unexpected character".

Definition nextToken (lx : Lexer) : (Token + Exception) * Lexer :=
  let lx := skipWhitespace lx in
  let lx := set_start lx (current_ lx) in
  if isAtEnd lx then
    (inl (Token4 EOF_TOKEN "EOF" (line_ lx) (column_ lx)), lx)
  else
    match tokenBuffer_ lx with
    | token :: rest =>
        (inl token,
         mkLexer (source_ lx) (current_ lx) (start_ lx) (line_ lx) (column_ lx) rest)
    | [] => scanToken lx
    end.

End WithStd.
End Lex.

Module ValueOps.
Section WithStd.

(** [std::stoi(s, &pos)] and [std::stod(s)] of the C++ library:
    [None] when they throw. *)
Variable stoi : string -> option (Z * nat).
Variable stod : string -> option double.

Definition isNull (v : Value) : bool := match v with VNull => true | _ => false end.
Definition isInteger (v : Value) : bool := match v with VInteger _ => true | _ => false end.
Definition isDouble (v : Value) : bool := match v with VDouble _ => true | _ => false end.
Definition isNumber (v : Value) : bool := isDouble v || isInteger v.
Definition isString (v : Value) : bool := match v with VString _ => true | _ => false end.
Definition isBoolean (v : Value) : bool := match v with VBoolean _ => true | _ => false end.
Definition isArray (v : Value) : bool := match v with VArray _ => true | _ => false end.
Definition isFunction (v : Value) : bool := match v with VFunction _ _ _ => true | _ => false end.
Definition isNativeFunction (v : Value) : bool :=
  match v with VNativeFunction => true | _ => false end.
Definition isAnyFunction (v : Value) : bool := isFunction v || isNativeFunction v.

(** [static_cast<int>(size)] and [static_cast<double>(size)] of a
    container size (sizes stay far below [2^31]). *)
Definition size_int {A} (l : list A) : Z := Z.of_nat (List.length l).
Definition strsize_int (s : string) : Z := Z.of_nat (String.length s).

Definition asNumber (v : Value) : double :=
  match v with
  | VDouble d => d
  | VInteger i => of_int i
  | VString s =>
      match stoi s with
      | Some (intValue, pos) =>
          if Nat.eqb pos (String.length s) then of_int intValue
          else match stod s with
               | Some d => d
               | None => dzero
               end
      | None => dzero
      end
  | VBoolean b => if b then of_int 1 else dzero
  | VNull => dzero
  | VArray a => of_int (size_int a)
  | _ => dzero
  end.

Definition asBoolean (v : Value) : bool :=
  match v with
  | VBoolean b => b
  | VInteger i => negb (i =? 0)
  | VDouble d => negb (deqb d dzero)
  | VString s => negb (String.eqb s EmptyString)
  | VNull => false
  | VArray a => match a with [] => false | _ => true end
  | _ => true
  end.

Definition getArrayElement (v : Value) (index : Z) : Value :=
  match v with
  | VArray a =>
      if (index <? 0) || (index >=? size_int a) then VNull
      else nth (Z.to_nat index) a VNull
  | VString s =>
      if index =? 0 then v
      else if (index >? 0) && (index <? strsize_int s) then
        match String.get (Z.to_nat index) s with
        | Some c => VString (String c EmptyString)
        | None => VNull
        end
      else VNull
  | _ => if index =? 0 then v else VNull
  end.

Definition setArrayElement (v : Value) (index : Z) (value : Value) : Value :=
  let array_ :=
    match v with
    | VString s => [VString s]
    | VArray a => a
    | _ => []
    end in
  if index <? 0 then VArray array_
  else if index >=? size_int array_ then
    if index >? 1000 then VArray array_
    else VArray (<[Z.to_nat index := value]> (resize (Z.to_nat (index + 1)) VNull array_))
  else VArray (<[Z.to_nat index := value]> array_).

Definition getArraySize (v : Value) : Z :=
  match v with
  | VArray a => size_int a
  | _ => 1
  end.

Definition getProperty (v : Value) (name : string) : Value :=
  if String.eqb name "length" then
    match v with
    | VArray a => VInteger (size_int a)
    | VString s => VInteger (strsize_int s)
    | _ => VInteger 1
    end
  else VNull.

Definition bool_string (b : bool) : string := if b then "true" else "false".

Fixpoint toString (v : Value) : string :=
  match v with
  | VNull => "null"
  | VDouble d => to_string_double d
  | VInteger i => to_string_int i
  | VString s => s
  | VBoolean b => bool_string b
  | VArray a =>
      "[" +:+
      (fix elems (l : list Value) (i : nat) {struct l} : string :=
         match l with
         | [] => EmptyString
         | x :: l' =>
             (if (0 <? i)%nat then ", " else EmptyString) +:+
             match x with
             | VArray _ => toString x
             | VInteger n => to_string_int n
             | VDouble d => to_string_double d
             | VString s => s
             | VBoolean b => bool_string b
             | VNull => "null"
             | VFunction _ _ _ | VNativeFunction => "<function>"
             end +:+ elems l' (S i)
         end) a O +:+ "]"
  | VFunction name _ _ => "<function " +:+ name +:+ ">"
  | VNativeFunction => "<native function>"
  end.

(** [asInteger]: the truncation of a number, [std::stoi] of a string (0
    when it throws), the size of an array. *)
Definition asInteger (v : Value) : Z :=
  match v with
  | VInteger i => i
  | VDouble d => to_int d
  | VString s =>
      match stoi s with
      | Some (intValue, _) => intValue
      | None => 0
      end
  | VBoolean b => if b then 1 else 0
  | VNull => 0
  | VArray a => size_int a
  | _ => 0
  end.

(** [asArray]: a value that is not an array is the array of itself. *)
Definition asArray (v : Value) : list Value :=
  match v with
  | VArray a => a
  | _ => [v]
  end.

(** The integral-demotion test shared by the arithmetic operators:
    [if (result == static_cast<int>(result)) return Value(static_cast<int>(result));
     return Value(result);] *)
Definition demote (result : double) : Value :=
  if deqb result (of_int (to_int result)) then VInteger (to_int result)
  else VDouble result.

Definition add (a b : Value) : Value :=
  match a, b with
  | VInteger x, VInteger y => VInteger (int_add x y)
  | _, _ =>
      if isNumber a && isNumber b then demote (dadd (asNumber a) (asNumber b))
      else if isString a || isString b then VString (toString a +:+ toString b)
      else match a, b with
           | VArray x, VArray y => VArray (x ++ y)
           | _, _ =>
               if isNumber a || isNumber b then demote (dadd (asNumber a) (asNumber b))
               else VString (toString a +:+ toString b)
           end
  end.

Definition sub (a b : Value) : Value :=
  match a, b with
  | VInteger x, VInteger y => VInteger (int_sub x y)
  | _, _ => demote (dsub (asNumber a) (asNumber b))
  end.

Definition mul (a b : Value) : Value :=
  match a, b with
  | VInteger x, VInteger y => VInteger (int_mul x y)
  | _, _ => demote (dmul (asNumber a) (asNumber b))
  end.

(** [operator/] and [operator%] have no result ([None]) where the [int]
    operation they evaluate is undefined: [integer_ % other.integer_] of
    [INT_MIN] and [-1]. *)
Definition div (a b : Value) : option Value :=
  let divisor := asNumber b in
  if deqb divisor dzero then Some (VInteger 0)
  else
    match a, b with
    | VInteger x, VInteger y =>
        match int_rem x y with
        | Some r =>
            if r =? 0 then
              match int_div x y with
              | Some q => Some (VInteger q)
              | None => None
              end
            else Some (demote (ddiv (asNumber a) divisor))
        | None => None
        end
    | _, _ => Some (demote (ddiv (asNumber a) divisor))
    end.

Definition mod_ (a b : Value) : option Value :=
  let divisor := asNumber b in
  if deqb divisor dzero then Some (VInteger 0)
  else
    match a, b with
    | VInteger x, VInteger y =>
        match int_rem x y with
        | Some r => Some (VInteger r)
        | None => None
        end
    | _, _ => Some (demote (dfmod (asNumber a) divisor))
    end.

Definition eq (a b : Value) : bool :=
  if isNull a && isNull b then true
  else if isNumber a && isNumber b then deqb (asNumber a) (asNumber b)
  else match a, b with
  | VString x, VString y => String.eqb x y
  | VBoolean x, VBoolean y => Bool.eqb x y
  | _, _ =>
      if (isNumber a || isNumber b) && (isString a || isString b)
      then deqb (asNumber a) (asNumber b)
      else if isBoolean a || isBoolean b then Bool.eqb (asBoolean a) (asBoolean b)
      else if isArray a || isArray b then String.eqb (toString a) (toString b)
      else false
  end.

Definition ne (a b : Value) : bool := negb (eq a b).

Definition lt (a b : Value) : bool :=
  if isNumber a && isNumber b then dltb (asNumber a) (asNumber b)
  else match a, b with
  | VString x, VString y => String.ltb x y
  | _, _ =>
      if (isNumber a || isNumber b) && (isString a || isString b)
      then dltb (asNumber a) (asNumber b)
      else if isBoolean a || isBoolean b then dltb (asNumber a) (asNumber b)
      else match a, b with
           | VArray x, VArray y => (List.length x <? List.length y)%nat
           | _, _ => String.ltb (toString a) (toString b)
           end
  end.

Definition le (a b : Value) : bool :=
  if isNumber a && isNumber b then dleb (asNumber a) (asNumber b)
  else lt a b || eq a b.

Definition gt (a b : Value) : bool :=
  if isNumber a && isNumber b then dltb (asNumber b) (asNumber a)
  else negb (le a b).

Definition ge (a b : Value) : bool :=
  if isNumber a && isNumber b then dleb (asNumber b) (asNumber a)
  else negb (lt a b).

End WithStd.
End ValueOps.

(* ===================================================================== *)
(** * Outcomes of a computation *)
(* ===================================================================== *)

(** A computation returns, throws a C++ exception, is killed where C++
    leaves the behaviour undefined ([Crash]: a null pointer is
    dereferenced, an [int] division traps), or exhausts the fuel of the
    model. *)
Inductive Outcome (A : Type) :=
  | Ok (a : A)
  | Throw (e : Exception)
  | Crash
  | OutOfFuel.
Arguments Ok {A} a.
Arguments Throw {A} e.
Arguments Crash {A}.
Arguments OutOfFuel {A}.

(* ===================================================================== *)
(** * The parser (parser.cpp) *)
(* ===================================================================== *)

Record Parser := mkParser {
  lexer_ : Lexer;                  (* Lexer& : the lexer of [main] *)
  currentToken_ : Token
}.

Module Parse.

(** State-and-exception monad over the parser object. *)
Definition PM (A : Type) : Type := Parser -> Outcome A * Parser.

Definition ret {A} (a : A) : PM A := fun p => (Ok a, p).
Definition throw {A} (e : Exception) : PM A := fun p => (Throw e, p).
Definition out_of_fuel {A} : PM A := fun p => (OutOfFuel, p).
Definition bind {A B} (m : PM A) (k : A -> PM B) : PM B :=
  fun p =>
    match m p with
    | (Ok a, p') => k a p'
    | (Throw e, p') => (Throw e, p')
    | (Crash, p') => (Crash, p')
    | (OutOfFuel, p') => (OutOfFuel, p')
    end.

Declare Scope parse_scope.
Delimit Scope parse_scope with parse.
Notation "x <- m ;; k" := (bind m (fun x => k))
  (at level 100, m at next level, right associativity) : parse_scope.
Notation "m ;;; k" := (bind m (fun _ => k))
  (at level 100, right associativity) : parse_scope.
Local Open Scope parse_scope.

(** [throw std::runtime_error(msg)] *)
Definition runtime_error {A} (msg : string) : PM A := throw (StdException msg).

Section WithStd.

Variable stod : string -> option double.

Definition advance : PM unit :=
  fun p =>
    match Lex.nextToken stod (lexer_ p) with
    | (inl t, lx) => (Ok tt, mkParser lx t)
    | (inr e, lx) => (Throw e, mkParser lx (currentToken_ p))
    end.

Definition check (type : TokenType) : PM bool :=
  fun p => (Ok (bool_decide (tok_type (currentToken_ p) = type)), p).

Definition current : PM Token := fun p => (Ok (currentToken_ p), p).

Definition lexer_isEOF : PM bool := fun p => (Ok (Lex.isEOF (lexer_ p)), p).

Definition consume (expectedType : TokenType) (errorMessage : string) : PM unit :=
  t <- current ;;
  if bool_decide (tok_type t = expectedType) then advance
  else runtime_error (errorMessage +:+ ". Found: " +:+ tokenTypeToString (tok_type t) +:+
                      " at line " +:+ to_string_int (tok_line t) +:+
                      ", column " +:+ to_string_int (tok_column t)).

Definition match_ (type : TokenType) : PM bool :=
  c <- check type ;;
  if c then advance ;;; ret true else ret false.

(** [std::get<std::string>(currentToken_.value)] *)
Definition current_string : PM string :=
  t <- current ;;
  match tok_value t with
  | TVString s => ret s
  | _ => throw (StdException "bad_variant_access")
  end.

(** The recursive entry points, as they are at the next lower fuel. *)
Record Rec := mkRec {
  r_statement : PM Statement;
  r_block : PM (list Statement);
  r_if : PM Statement;
  r_expression : PM Expression;
  r_assignment : PM Expression;
  r_unary : PM Expression;
  r_arrayAccess : Expression -> PM Expression;
  r_propertyAccess : Expression -> PM Expression
}.

Section Step.
Variable fuel : nat.
Variable rec : Rec.

(** [do { acc.push_back(item()); } while (match(COMMA));] *)
Fixpoint comma_list {A} (n : nat) (item : PM A) (acc : list A) : PM (list A) :=
  match n with
  | O => out_of_fuel
  | S n' =>
      x <- item ;;
      m <- match_ COMMA ;;
      if m then comma_list n' item (acc ++ [x]) else ret (acc ++ [x])
  end.

Definition parseExpression : PM Expression := r_assignment rec.

Definition parseExpressionList : PM (list Expression) :=
  comma_list fuel (r_expression rec) [].

Definition parseParameters : PM (list string) :=
  c <- check RPAREN ;;
  if c then ret []
  else
    comma_list fuel
      (c <- check IDENTIFIER ;;
       if negb c then runtime_error "Expected parameter name"
       else name <- current_string ;; advance ;;; ret name) [].

Definition parseArrayExpression : PM Expression :=
  m <- match_ RBRACKET ;;
  if m then ret (ArrayExpression [])
  else
    elements <- comma_list fuel (r_expression rec) [] ;;
    consume RBRACKET "Expected ']' after array elements" ;;;
    ret (ArrayExpression elements).

Definition parseArrayAccess (array : Expression) : PM Expression :=
  index <- r_expression rec ;;
  consume RBRACKET "Expected ']' after array index" ;;;
  let arrayAccess := ArrayAccessExpression array index in
  m <- match_ LBRACKET ;;
  if m then r_arrayAccess rec arrayAccess
  else
    m <- match_ DOT ;;
    if m then r_propertyAccess rec arrayAccess
    else ret arrayAccess.

Definition parsePropertyAccess (object : Expression) : PM Expression :=
  c <- check IDENTIFIER ;;
  if negb c then runtime_error "Expected property name after '.'."
  else
    property <- current_string ;;
    advance ;;;
    let propertyAccess := PropertyAccessExpression object property in
    m <- match_ DOT ;;
    if m then r_propertyAccess rec propertyAccess
    else
      m <- match_ LBRACKET ;;
      if m then r_arrayAccess rec propertyAccess
      else ret propertyAccess.

Definition parsePrimary : PM Expression :=
  t <- current ;;
  match tok_type t with
  | TRUE => match_ TRUE ;;; ret (Literal (TVBool true))
  | FALSE => match_ FALSE ;;; ret (Literal (TVBool false))
  | NULL_TOKEN => match_ NULL_TOKEN ;;; ret (Literal TokenValue_default)
  | NUMBER | STRING => advance ;;; ret (Literal (tok_value t))
  | IDENTIFIER =>
      name <- current_string ;;
      advance ;;;
      let identifier := Identifier name in
      m <- match_ LPAREN ;;
      if m then
        c <- check RPAREN ;;
        arguments <- (if c then ret [] else parseExpressionList) ;;
        consume RPAREN "Expected ')' after arguments" ;;;
        ret (CallExpression identifier arguments)
      else
        m <- match_ LBRACKET ;;
        if m then parseArrayAccess identifier
        else
          m <- match_ DOT ;;
          if m then parsePropertyAccess identifier
          else ret identifier
  | LPAREN =>
      match_ LPAREN ;;;
      expr <- r_expression rec ;;
      consume RPAREN "Expected ')' after expression" ;;;
      ret expr
  | LBRACKET => match_ LBRACKET ;;; parseArrayExpression
  | _ => runtime_error "Expected expression"
  end.

Definition parseUnary : PM Expression :=
  c <- check BANG ;;
  if c then
    match_ BANG ;;; expr <- r_unary rec ;; ret (UnaryExpression BANG expr)
  else
    c <- check MINUS ;;
    if c then
      match_ MINUS ;;; expr <- r_unary rec ;; ret (UnaryExpression MINUS expr)
    else parsePrimary.

(** [while (true) { if the current token is one of ops, advance and
    fold a BinaryExpression; else break; }] *)
Fixpoint binary_loop (n : nat) (ops : list TokenType) (operand : PM Expression)
    (expr : Expression) : PM Expression :=
  match n with
  | O => out_of_fuel
  | S n' =>
      t <- current ;;
      if bool_decide (tok_type t ∈ ops) then
        advance ;;;
        right <- operand ;;
        binary_loop n' ops operand (BinaryExpression (tok_type t) expr right)
      else ret expr
  end.

Definition parseFactor : PM Expression :=
  expr <- parseUnary ;; binary_loop fuel [MULTIPLY; DIVIDE; MODULO] parseUnary expr.

Definition parseTerm : PM Expression :=
  expr <- parseFactor ;; binary_loop fuel [PLUS; MINUS] parseFactor expr.

Definition parseComparison : PM Expression :=
  expr <- parseTerm ;;
  binary_loop fuel [LESS; LESS_EQ; GREATER; GREATER_EQ] parseTerm expr.

Definition parseEquality : PM Expression :=
  expr <- parseComparison ;; binary_loop fuel [EQUALS; NOT_EQUALS] parseComparison expr.

Definition parseLogicalAnd : PM Expression :=
  expr <- parseEquality ;; binary_loop fuel [AND] parseEquality expr.

Definition parseLogicalOr : PM Expression :=
  expr <- parseLogicalAnd ;; binary_loop fuel [OR] parseLogicalAnd expr.

Definition parseAssignment : PM Expression :=
  expr <- parseLogicalOr ;;
  m <- match_ ASSIGN ;;
  if m then
    right <- r_assignment rec ;;
    ret (BinaryExpression ASSIGN expr right)
  else ret expr.

Definition parseExpressionStatement : PM Statement :=
  expr <- r_expression rec ;;
  consume SEMICOLON "Expected ';' after expression" ;;;
  ret (ExpressionStatement expr).

Definition parseBreakStatement : PM Statement :=
  consume BREAK "Expected 'break' keyword" ;;;
  consume SEMICOLON "Expected ';' after 'break'" ;;;
  ret BreakStatement.

Definition parseReturnStatement : PM Statement :=
  consume RETURN "Expected 'return' keyword" ;;;
  c <- check SEMICOLON ;;
  value <- (if negb c then e <- r_expression rec ;; ret (Some e) else ret None) ;;
  consume SEMICOLON "Expected ';' after return statement" ;;;
  ret (ReturnStatement value).

(** [while (match(PLUS)) { expr = Binary(expr, PLUS, parseExpression()); }] *)
Fixpoint plus_loop (n : nat) (expr : Expression) : PM Expression :=
  match n with
  | O => out_of_fuel
  | S n' =>
      m <- match_ PLUS ;;
      if m then
        right <- r_expression rec ;;
        plus_loop n' (BinaryExpression PLUS expr right)
      else ret expr
  end.

Definition parsePrintStatement : PM Statement :=
  t <- current ;;
  let isPrintln := bool_decide (tok_type t = PRINTLN) in
  advance ;;;
  c <- check STRING ;;
  if c then
    t <- current ;;
    advance ;;;
    expr <- plus_loop fuel (Literal (tok_value t)) ;;
    (if negb isPrintln
     then consume SEMICOLON "Expected ';' after print statement"
     else ret tt) ;;;
    ret (PrintStatement isPrintln [expr] EmptyString)
  else
    consume LPAREN "Expected '(' or string after print" ;;;
    c <- check RPAREN ;;
    args <- (if negb c then parseExpressionList else ret []) ;;
    consume RPAREN "Expected ')' after print arguments" ;;;
    consume SEMICOLON "Expected ';' after print statement" ;;;
    ret (PrintStatement isPrintln args EmptyString).

Definition parseIfStatement : PM Statement :=
  consume IF "Expected 'if' keyword" ;;;
  consume LPAREN "Expected '(' after 'if'" ;;;
  condition <- r_expression rec ;;
  consume RPAREN "Expected ')' after condition" ;;;
  thenBranch <- r_block rec ;;
  m <- match_ ELSE ;;
  if m then
    c <- check IF ;;
    if c then
      nested <- r_if rec ;;
      ret (IfStatement condition thenBranch (Some [nested]))
    else
      elseBranch <- r_block rec ;;
      ret (IfStatement condition thenBranch (Some elseBranch))
  else ret (IfStatement condition thenBranch None).

Definition parseVariableDeclaration : PM Statement :=
  consume VAR "Expected 'var' keyword" ;;;
  c <- check IDENTIFIER ;;
  if negb c then runtime_error "Expected variable name"
  else
    identifier <- current_string ;;
    advance ;;;
    m <- match_ LBRACKET ;;
    isArrayDeclaration <-
      (if m then consume RBRACKET "Expected ']' after '['" ;;; ret true
       else ret false) ;;
    m <- match_ ASSIGN ;;
    initializer <-
      (if m then
         c <- check LBRACKET ;;
         if isArrayDeclaration && c then
           advance ;;;
           c <- check RBRACKET ;;
           elements <- (if negb c then comma_list fuel (r_expression rec) []
                        else ret []) ;;
           consume RBRACKET "Expected ']' after array initializer" ;;;
           ret (Some (ArrayExpression elements))
         else
           e <- r_expression rec ;; ret (Some e)
       else if isArrayDeclaration then ret (Some (ArrayExpression []))
       else ret None) ;;
    consume SEMICOLON "Expected ';' after variable declaration" ;;;
    ret (VariableDeclaration identifier initializer).

Definition parseFunctionDeclaration : PM Statement :=
  consume FUNC "Expected 'func' keyword" ;;;
  c <- check IDENTIFIER ;;
  if negb c then runtime_error "Expected function name"
  else
    name <- current_string ;;
    advance ;;;
    consume LPAREN "Expected '(' after function name" ;;;
    parameters <- parseParameters ;;
    consume RPAREN "Expected ')' after parameters" ;;;
    c <- check LBRACE ;;
    if c then
      body <- r_block rec ;;
      ret (FunctionDeclaration name parameters (Some body))
    else
      consume SEMICOLON "Expected ';' or block after function declaration" ;;;
      ret (FunctionDeclaration name parameters None).

Definition parseLoopHeader
  : PM (option Statement * option Expression * option Expression) :=
  c <- check RPAREN ;;
  if negb c then
    isVar <- check VAR ;;
    isSemi <- check SEMICOLON ;;
    if isVar || isSemi then
      init <-
        (if isVar then d <- parseVariableDeclaration ;; ret (Some d)
         else consume SEMICOLON "Expected ';' after loop initializer" ;;; ret None) ;;
      c1 <- check SEMICOLON ;;
      c2 <- check RPAREN ;;
      condition <-
        (if negb c1 && negb c2 then e <- r_expression rec ;; ret (Some e)
         else ret None) ;;
      c <- check SEMICOLON ;;
      increment <-
        (if c then
           consume SEMICOLON "Expected ';' after loop condition" ;;;
           c <- check RPAREN ;;
           if negb c then e <- r_expression rec ;; ret (Some e) else ret None
         else ret None) ;;
      ret (init, condition, increment)
    else
      e <- r_expression rec ;;
      ret (None, Some e, None)
  else ret (None, None, None).

Definition parseLoopStatement : PM Statement :=
  consume LOOP "Expected 'loop' keyword" ;;;
  c <- check LPAREN ;;
  header <-
    (if c then
       consume LPAREN "Expected '(' after 'loop'" ;;;
       h <- parseLoopHeader ;;
       consume RPAREN "Expected ')' after loop" ;;;
       ret h
     else ret (None, None, None)) ;;
  body <- r_block rec ;;
  let '(init, condition, increment) := header in
  ret (LoopStatement init condition increment body).

(** [while (!stop()) { acc.push_back(parseStatement()); }] *)
Fixpoint statements_loop (n : nat) (stop : PM bool) (acc : list Statement)
  : PM (list Statement) :=
  match n with
  | O => out_of_fuel
  | S n' =>
      b <- stop ;;
      if b then ret acc
      else
        s <- r_statement rec ;;
        statements_loop n' stop (acc ++ [s])
  end.

Definition parseBlock : PM (list Statement) :=
  consume LBRACE "Expected '{' to start block" ;;;
  statements <-
    statements_loop fuel
      (c <- check RBRACE ;; e <- lexer_isEOF ;; ret (negb (negb c && negb e))) [] ;;
  consume RBRACE "Expected '}' to end block" ;;;
  ret statements.

Definition parseStatement : PM Statement :=
  t <- current ;;
  match tok_type t with
  | LBRACE => b <- parseBlock ;; ret (BlockStatement b)
  | VAR => parseVariableDeclaration
  | FUNC => parseFunctionDeclaration
  | LOOP => parseLoopStatement
  | IF => parseIfStatement
  | PRINT | PRINTLN => parsePrintStatement
  | RETURN => parseReturnStatement
  | BREAK => parseBreakStatement
  | _ => parseExpressionStatement
  end.

Definition step : Rec :=
  mkRec parseStatement parseBlock parseIfStatement parseExpression parseAssignment
    parseUnary parseArrayAccess parsePropertyAccess.

(** [Parser::parse] *)
Definition parse_with : PM (list Statement) :=
  statements_loop fuel lexer_isEOF [].

End Step.

Definition bottom : Rec :=
  mkRec out_of_fuel out_of_fuel out_of_fuel out_of_fuel out_of_fuel out_of_fuel
    (fun _ => out_of_fuel) (fun _ => out_of_fuel).

Fixpoint rec_at (fuel : nat) : Rec :=
  match fuel with
  | O => bottom
  | S f => step f (rec_at f)
  end.

Definition parse (fuel : nat) : PM (list Statement) :=
  parse_with fuel (rec_at fuel).

(** [Parser::Parser(Lexer&)]: the constructor reads the first token. *)
Definition new (lexer : Lexer) : Outcome unit * Parser :=
  advance (mkParser lexer (mkToken EOF_TOKEN TokenValue_default 0 0 EmptyString)).

End WithStd.
End Parse.

(* ===================================================================== *)
(** * Environments and the interpreter (interpreter.cpp) *)
(* ===================================================================== *)

(** An [Environment] object; [enclosing_] is the address of the enclosing
    environment ([nullptr] is [None]). *)
Record Environment := mkEnvironment {
  values_ : gmap string Value;
  enclosing_ : option nat
}.

(** The [Interpreter] object together with the environments allocated by
    [std::make_shared<Environment>]; an address is an index of [heap]. *)
Record Interpreter := mkInterpreter {
  heap : list Environment;
  environment_ : nat;
  globals_ : nat
}.

(** What is written to [std::cout] and [std::cerr], in order. *)
Inductive Event :=
  | Cout (s : string)
  | Cerr (s : string).

Fixpoint stdout_of (evs : list Event) : string :=
  match evs with
  | [] => EmptyString
  | Cout s :: evs' => s +:+ stdout_of evs'
  | Cerr _ :: evs' => stdout_of evs'
  end.

Fixpoint stderr_of (evs : list Event) : string :=
  match evs with
  | [] => EmptyString
  | Cerr s :: evs' => s +:+ stderr_of evs'
  | Cout _ :: evs' => stderr_of evs'
  end.

(** [std::endl] *)
Definition endl : string := String "010"%char EmptyString.

Module Interp.

(** State, exceptions and output. *)
Definition M (A : Type) : Type :=
  Interpreter -> Outcome A * Interpreter * list Event.

Definition ret {A} (a : A) : M A := fun st => (Ok a, st, []).
Definition throw {A} (e : Exception) : M A := fun st => (Throw e, st, []).
Definition crash {A} : M A := fun st => (Crash, st, []).
Definition out_of_fuel {A} : M A := fun st => (OutOfFuel, st, []).

(** The result of an operation that is undefined where it is [None]. *)
Definition defined {A} (o : option A) : M A :=
  match o with
  | Some a => ret a
  | None => crash
  end.

Definition bind {A B} (m : M A) (k : A -> M B) : M B :=
  fun st =>
    match m st with
    | (Ok a, st1, o1) => let '(r, st2, o2) := k a st1 in (r, st2, o1 ++ o2)
    | (Throw e, st1, o1) => (Throw e, st1, o1)
    | (Crash, st1, o1) => (Crash, st1, o1)
    | (OutOfFuel, st1, o1) => (OutOfFuel, st1, o1)
    end.

(** [try { m } catch ... { handler e }]: [handler] runs for every C++
    exception; a handler that does not match rethrows. *)
Definition try_catch {A} (m : M A) (handler : Exception -> M A) : M A :=
  fun st =>
    match m st with
    | (Throw e, st1, o1) => let '(r, st2, o2) := handler e st1 in (r, st2, o1 ++ o2)
    | other => other
    end.

Declare Scope interp_scope.
Delimit Scope interp_scope with interp.
Notation "x <- m ;; k" := (bind m (fun x => k))
  (at level 100, m at next level, right associativity) : interp_scope.
Notation "m ;;; k" := (bind m (fun _ => k))
  (at level 100, right associativity) : interp_scope.
Local Open Scope interp_scope.

Definition cout (s : string) : M unit := fun st => (Ok tt, st, [Cout s]).
Definition cerr (s : string) : M unit := fun st => (Ok tt, st, [Cerr s]).

Definition getEnvironment : M nat := fun st => (Ok (environment_ st), st, []).
Definition setEnvironment (environment : nat) : M unit :=
  fun st => (Ok tt, mkInterpreter (heap st) environment (globals_ st), []).

(** [std::make_shared<Environment>(enclosing)] *)
Definition make_shared_Environment (enclosing : option nat) : M nat :=
  fun st =>
    (Ok (List.length (heap st)),
     mkInterpreter (heap st ++ [mkEnvironment ∅ enclosing]) (environment_ st) (globals_ st),
     []).

(** ** [Environment] *)

(** The environment of the chain starting at [env] whose [values_]
    holds [name].  Every environment encloses an older one, so the chain
    is shorter than the heap, which bounds the walk. *)
Fixpoint find_scope (n : nat) (h : list Environment) (env : nat) (name : string)
  : option nat :=
  match n with
  | O => None
  | S n' =>
      match h !! env with
      | None => None
      | Some e =>
          match values_ e !! name with
          | Some _ => Some env
          | None =>
              match enclosing_ e with
              | Some enclosing => find_scope n' h enclosing name
              | None => None
              end
          end
      end
  end.

Definition lookup_var (h : list Environment) (env : nat) (name : string) : option Value :=
  match find_scope (List.length h) h env name with
  | Some a => match h !! a with Some e => values_ e !! name | None => None end
  | None => None
  end.

Definition store_var (h : list Environment) (a : nat) (name : string) (value : Value)
  : list Environment :=
  match h !! a with
  | Some e => <[a := mkEnvironment (<[name := value]> (values_ e)) (enclosing_ e)]> h
  | None => h
  end.

Definition define (env : nat) (name : string) (value : Value) : M unit :=
  fun st =>
    (Ok tt, mkInterpreter (store_var (heap st) env name value) (environment_ st)
              (globals_ st), []).

Definition get (env : nat) (name : string) : M Value :=
  fun st =>
    match lookup_var (heap st) env name with
    | Some v => (Ok v, st, [])
    | None => (Throw (RuntimeError ("Undefined variable '" +:+ name +:+ "'")), st, [])
    end.

Definition assign (env : nat) (name : string) (value : Value) : M unit :=
  fun st =>
    match find_scope (List.length (heap st)) (heap st) env name with
    | Some a =>
        (Ok tt, mkInterpreter (store_var (heap st) a name value) (environment_ st)
                  (globals_ st), [])
    | None => (Throw (RuntimeError ("Undefined variable '" +:+ name +:+ "'")), st, [])
    end.

Section WithStd.

Variable stoi : string -> option (Z * nat).
Variable stod : string -> option double.

Definition isTruthy (value : Value) : bool := ValueOps.asBoolean value.

(** The recursive entry points, as they are at the next lower fuel:
    [evaluateExpression], [executeBlock], and the rest of the iterations
    of the [while (true)] of [executeLoopStatement]. *)
Record Rec := mkRec {
  r_evaluateExpression : Expression -> M Value;
  r_executeBlock : list Statement -> nat -> M unit;
  r_while : option Expression -> option Expression -> list Statement -> M unit
}.

Section Step.
Variable rec : Rec.

(** [for (arg : exprs) values.push_back(evaluateExpression(arg));] *)
Fixpoint evaluateAll (exprs : list Expression) : M (list Value) :=
  match exprs with
  | [] => ret []
  | e :: es =>
      v <- r_evaluateExpression rec e ;;
      vs <- evaluateAll es ;;
      ret (v :: vs)
  end.

Fixpoint defineAll (env : nat) (names : list string) (values : list Value) : M unit :=
  match names, values with
  | name :: names', value :: values' =>
      define env name value ;;; defineAll env names' values'
  | _, _ => ret tt
  end.

(** [Value::call] *)
Definition call (callee : Value) (arguments : list Value) : M Value :=
  match callee with
  | VNativeFunction => throw (StdException "bad_function_call")
  | VFunction _ parameters_ body_ =>
      if negb (List.length arguments =? List.length parameters_)%nat then
        throw (RuntimeError
                 ("Expected " +:+ string_of_nat (List.length parameters_) +:+
                  " arguments but got " +:+ string_of_nat (List.length arguments)))
      else
        cur <- getEnvironment ;;
        environment <- make_shared_Environment (Some cur) ;;
        defineAll environment parameters_ arguments ;;;
        previousEnv <- getEnvironment ;;
        setEnvironment environment ;;;
        try_catch
          (r_executeBlock rec body_ environment ;;;
           setEnvironment previousEnv ;;;
           ret VNull)
          (fun e =>
             match e with
             | Return value => setEnvironment previousEnv ;;; ret value
             | _ => throw e
             end)
  | _ => throw (RuntimeError "Can only call functions")
  end.

Definition evaluateIdentifier (name : string) : M Value :=
  env <- getEnvironment ;; get env name.

Definition evaluateLiteral (value : TokenValue) : M Value :=
  match value with
  | TVDouble num =>
      if deqb num (of_int (to_int num)) then ret (VInteger (to_int num))
      else ret (VDouble num)
  | TVString str => ret (VString str)
  | TVBool b => ret (VBoolean b)
  end.

Definition evaluateAssign (leftExpr rightExpr : Expression) (right : Value) : M Value :=
  match leftExpr with
  | ArrayAccessExpression arrayExpr indexExpr =>
      match arrayExpr with
      | Identifier arrayName =>
          env <- getEnvironment ;;
          array <- get env arrayName ;;
          indexValue <- r_evaluateExpression rec indexExpr ;;
          let rightValue := right in
          let index := to_int (ValueOps.asNumber stoi stod indexValue) in
          let array := ValueOps.setArrayElement array index rightValue in
          env <- getEnvironment ;;
          assign env arrayName array ;;;
          ret rightValue
      | _ => throw (RuntimeError "Cannot assign to an element of a non-variable array")
      end
  | Identifier name =>
      rightValue <-
        match rightExpr with
        | BinaryExpression PLUS binLeft binRight =>
            leftVal <- r_evaluateExpression rec binLeft ;;
            rightVal <- r_evaluateExpression rec binRight ;;
            if ValueOps.isNumber leftVal && ValueOps.isNumber rightVal then
              ret (VDouble (dadd (ValueOps.asNumber stoi stod leftVal)
                                 (ValueOps.asNumber stoi stod rightVal)))
            else ret right
        | _ => ret right
        end ;;
      env <- getEnvironment ;;
      assign env name rightValue ;;;
      ret rightValue
  | _ => throw (RuntimeError "Invalid assignment target")
  end.

Definition evaluateBinaryExpression (op : TokenType) (leftExpr rightExpr : Expression)
  : M Value :=
  match op with
  | IDENTIFIER | NUMBER | STRING | EOF_TOKEN | ERROR =>
      r_evaluateExpression rec leftExpr
  | _ =>
      left <- r_evaluateExpression rec leftExpr ;;
      right <- r_evaluateExpression rec rightExpr ;;
      match op with
      | PLUS => ret (ValueOps.add stoi stod left right)
      | MINUS => ret (ValueOps.sub stoi stod left right)
      | MULTIPLY => ret (ValueOps.mul stoi stod left right)
      | DIVIDE => defined (ValueOps.div stoi stod left right)
      | MODULO => defined (ValueOps.mod_ stoi stod left right)
      | EQUALS => ret (VBoolean (ValueOps.eq stoi stod left right))
      | NOT_EQUALS => ret (VBoolean (ValueOps.ne stoi stod left right))
      | LESS => ret (VBoolean (ValueOps.lt stoi stod left right))
      | LESS_EQ => ret (VBoolean (ValueOps.le stoi stod left right))
      | GREATER => ret (VBoolean (ValueOps.gt stoi stod left right))
      | GREATER_EQ => ret (VBoolean (ValueOps.ge stoi stod left right))
      | AND =>
          let leftTruthy := isTruthy left in
          if negb leftTruthy then ret (VBoolean false)
          else
            let rightTruthy := isTruthy right in
            ret (VBoolean rightTruthy)
      | OR =>
          let leftTruthyOr := isTruthy left in
          if leftTruthyOr then ret (VBoolean true)
          else
            let rightTruthyOr := isTruthy right in
            ret (VBoolean rightTruthyOr)
      | ASSIGN => evaluateAssign leftExpr rightExpr right
      | _ => throw (RuntimeError ("Unknown binary operator: " +:+ tokenTypeToString op))
      end
  end.

Definition evaluateUnaryExpression (op : TokenType) (expr : Expression) : M Value :=
  operand <- r_evaluateExpression rec expr ;;
  match op with
  | MINUS => ret (VDouble (dneg (ValueOps.asNumber stoi stod operand)))
  | BANG => ret (VBoolean (negb (isTruthy operand)))
  | _ => throw (RuntimeError ("Unknown unary operator: " +:+ tokenTypeToString op))
  end.

Definition evaluateCallExpression (calleeExpr : Expression)
    (argumentExprs : list Expression) : M Value :=
  match calleeExpr with
  | Identifier name =>
      env <- getEnvironment ;;
      callee <- get env name ;;
      arguments <- evaluateAll argumentExprs ;;
      call callee arguments
  | _ =>
      callee <- r_evaluateExpression rec calleeExpr ;;
      arguments <- evaluateAll argumentExprs ;;
      call callee arguments
  end.

Definition evaluateArrayExpression (elementExprs : list Expression) : M Value :=
  elements <- evaluateAll elementExprs ;;
  ret (VArray elements).

Definition evaluateArrayAccessExpression (arrayExpr indexExpr : Expression) : M Value :=
  array <- r_evaluateExpression rec arrayExpr ;;
  indexValue <- r_evaluateExpression rec indexExpr ;;
  let index := to_int (ValueOps.asNumber stoi stod indexValue) in
  ret (ValueOps.getArrayElement array index).

Definition evaluatePropertyAccessExpression (objectExpr : Expression)
    (property : string) : M Value :=
  object <- r_evaluateExpression rec objectExpr ;;
  ret (ValueOps.getProperty object property).

Definition evaluateExpression (expression : Expression) : M Value :=
  match expression with
  | BinaryExpression op l r => evaluateBinaryExpression op l r
  | UnaryExpression op e => evaluateUnaryExpression op e
  | Identifier name => evaluateIdentifier name
  | Literal value => evaluateLiteral value
  | CallExpression callee arguments => evaluateCallExpression callee arguments
  | ArrayExpression elements => evaluateArrayExpression elements
  | ArrayAccessExpression a i => evaluateArrayAccessExpression a i
  | PropertyAccessExpression o p => evaluatePropertyAccessExpression o p
  end.

Definition executeVariableDeclaration (identifier : string)
    (initializer : option Expression) : M unit :=
  value <-
    match initializer with
    | Some e => r_evaluateExpression rec e
    | None => ret VNull
    end ;;
  env <- getEnvironment ;;
  define env identifier value.

Definition executeFunctionDeclaration (name : string) (parameters : list string)
    (body : option (list Statement)) : M unit :=
  match body with
  | None => crash                       (* statement->body->clone() on a null body *)
  | Some b =>
      env <- getEnvironment ;;
      define env name (VFunction name parameters b)
  end.

Definition executeExpressionStatement (expr : Expression) : M unit :=
  r_evaluateExpression rec expr ;;; ret tt.

(** One iteration of the [while (true)] of [executeLoopStatement],
    followed by the remaining ones. A [Break] out of the body ends
    the loop. *)
Definition whileLoop (condition increment : option Expression) (body : list Statement)
  : M unit :=
  continue <-
    match condition with
    | Some c =>
        conditionValue <- r_evaluateExpression rec c ;;
        ret (isTruthy conditionValue)
    | None => ret true
    end ;;
  if negb continue then ret tt
  else
    env <- getEnvironment ;;
    broke <-
      try_catch (r_executeBlock rec body env ;;; ret false)
        (fun e => match e with Break => ret true | _ => throw e end) ;;
    if broke then ret tt
    else
      match increment with
      | Some i => r_evaluateExpression rec i ;;; ret tt
      | None => ret tt
      end ;;;
      r_while rec condition increment body.

Definition executeLoopStatement (init : option Statement)
    (condition increment : option Expression) (body : list Statement) : M unit :=
  cur <- getEnvironment ;;
  loopEnv <- make_shared_Environment (Some cur) ;;
  previousEnv <- getEnvironment ;;
  setEnvironment loopEnv ;;;
  match init with
  | Some (VariableDeclaration identifier initializer) =>
      executeVariableDeclaration identifier initializer
  | Some (ExpressionStatement expr) => executeExpressionStatement expr
  | Some _ => throw (RuntimeError "Invalid loop initializer")
  | None => ret tt
  end ;;;
  try_catch (whileLoop condition increment body)
    (fun e =>
       match e with
       | Return _ => setEnvironment previousEnv ;;; throw e
       | _ => throw e
       end) ;;;
  setEnvironment previousEnv.

Definition executeIfStatement (condition : Expression) (thenBranch : list Statement)
    (elseBranch : option (list Statement)) : M unit :=
  conditionValue <- r_evaluateExpression rec condition ;;
  let result := isTruthy conditionValue in
  if result then
    cur <- getEnvironment ;;
    env <- make_shared_Environment (Some cur) ;;
    r_executeBlock rec thenBranch env
  else
    match elseBranch with
    | Some b =>
        cur <- getEnvironment ;;
        env <- make_shared_Environment (Some cur) ;;
        r_executeBlock rec b env
    | None => ret tt
    end.

(** [for (i = 0; i < args.size(); i++) { if (i > 0) cout << " "; ... }] *)
Fixpoint printArgs (i : nat) (args : list Expression) : M unit :=
  match args with
  | [] => ret tt
  | arg :: args' =>
      (if (0 <? i)%nat then cout " " else ret tt) ;;;
      value <- r_evaluateExpression rec arg ;;
      cout (ValueOps.toString value) ;;;
      printArgs (S i) args'
  end.

Definition executePrintStatement (isPrintln : bool) (args : list Expression)
    (directString : string) : M unit :=
  if negb (String.eqb directString EmptyString) then
    cout directString ;;;
    (if isPrintln then cout endl else ret tt)
  else
    printArgs 0 args ;;;
    (if isPrintln then cout endl else ret tt).

Definition executeReturnStatement (valueExpr : option Expression) : M unit :=
  value <-
    match valueExpr with
    | Some e => r_evaluateExpression rec e
    | None => ret VNull
    end ;;
  throw (Return value).

Definition executeBreakStatement : M unit := throw Break.

(** The [switch (stmt->getType())] of [executeBlock]. *)
Definition executeStatement (stmt : Statement) : M unit :=
  match stmt with
  | BlockStatement statements =>
      cur <- getEnvironment ;;
      env <- make_shared_Environment (Some cur) ;;
      r_executeBlock rec statements env
  | VariableDeclaration identifier initializer =>
      executeVariableDeclaration identifier initializer
  | FunctionDeclaration name parameters body =>
      executeFunctionDeclaration name parameters body
  | LoopStatement init condition increment body =>
      executeLoopStatement init condition increment body
  | IfStatement condition thenBranch elseBranch =>
      executeIfStatement condition thenBranch elseBranch
  | PrintStatement isPrintln args directString =>
      executePrintStatement isPrintln args directString
  | ReturnStatement value => executeReturnStatement value
  | BreakStatement => executeBreakStatement
  | ExpressionStatement expr => executeExpressionStatement expr
  end.

Fixpoint executeStatements (statements : list Statement) : M unit :=
  match statements with
  | [] => ret tt
  | stmt :: rest => executeStatement stmt ;;; executeStatements rest
  end.

Definition executeBlock (statements : list Statement) (environment : nat) : M unit :=
  previousEnv <- getEnvironment ;;
  try_catch
    (setEnvironment environment ;;;
     executeStatements statements)
    (fun e =>
       match e with
       | Return _ => setEnvironment previousEnv ;;; throw e
       | Break => setEnvironment previousEnv ;;; throw e
       | _ =>
           cerr ("Runtime Error: " +:+ what e +:+ endl) ;;;
           setEnvironment previousEnv ;;;
           throw e
       end) ;;;
  setEnvironment previousEnv.

Definition step : Rec := mkRec evaluateExpression executeBlock whileLoop.

End Step.

Definition bottom : Rec :=
  mkRec (fun _ => out_of_fuel) (fun _ _ => out_of_fuel) (fun _ _ _ => out_of_fuel).

Fixpoint rec_at (fuel : nat) : Rec :=
  match fuel with
  | O => bottom
  | S f => step (rec_at f)
  end.

(** [Interpreter::Interpreter()]: [globals_] is a fresh environment and
    [defineNativeFunctions] defines nothing. *)
Definition new : Interpreter := mkInterpreter [mkEnvironment ∅ None] 0 0.

(** [Interpreter::interpret] *)
Definition interpret (fuel : nat) (program : list Statement) : M unit :=
  try_catch
    (env <- getEnvironment ;; r_executeBlock (rec_at fuel) program env)
    (fun e =>
       match e with
       | RuntimeError w => cerr ("Runtime Error: " +:+ w +:+ endl)
       | _ => cerr ("Standard exception: " +:+ what e +:+ endl)
       end).

End WithStd.
End Interp.

(* ===================================================================== *)
(** * The entry point (mainClassicBuffer.cpp) *)
(* ===================================================================== *)

(** How the process ends: [return code] from [main], termination by an
    uncaught exception, a null dereference or a trapping division, or the
    model running out of fuel before the program ends. *)
Inductive ExitStatus :=
  | Exited (code : Z)
  | Aborted
  | Unfinished.

Record Run := mkRun {
  exit_status : ExitStatus;
  std_out : string;
  std_err : string
}.

Section Main.

Variable stoi : string -> option (Z * nat).
Variable stod : string -> option double.

(** [main], after [readFileIdzeyKL] has returned [source]. *)
Definition main (fuel : nat) (source : string) : Run :=
  let lexer := Lex.new source in
  match Parse.new stod lexer with
  | (Ok _, parser) =>
      match Parse.parse stod fuel parser with
      | (Ok program, _) =>
          match Interp.interpret stoi stod fuel program Interp.new with
          | (Ok _, _, evs) => mkRun (Exited 0) (stdout_of evs) (stderr_of evs)
          | (Throw (RuntimeError w), _, evs) =>
              mkRun (Exited 1) (stdout_of evs)
                (stderr_of evs +:+ "Runtime Error: " +:+ w +:+ endl)
          | (Throw e, _, evs) =>
              mkRun (Exited 1) (stdout_of evs)
                (stderr_of evs +:+ "Exception: " +:+ what e +:+ endl)
          | (Crash, _, evs) => mkRun Aborted (stdout_of evs) (stderr_of evs)
          | (OutOfFuel, _, evs) => mkRun Unfinished (stdout_of evs) (stderr_of evs)
          end
      | (Throw e, _) =>
          mkRun (Exited 1) EmptyString ("Parser Exception: " +:+ what e +:+ endl)
      | (Crash, _) => mkRun Aborted EmptyString EmptyString
      | (OutOfFuel, _) => mkRun Unfinished EmptyString EmptyString
      end
  | (Throw _, _) | (Crash, _) => mkRun Aborted EmptyString EmptyString
  | (OutOfFuel, _) => mkRun Unfinished EmptyString EmptyString
  end.

End Main.

(* ===================================================================== *)
(** * Vocabulary of the statements *)
(* ===================================================================== *)


(** [EvaluatedArgs ev st args rs st']: evaluating the expressions [args]
    in order with [ev], starting in [st], succeeds and ends in [st'];
    [rs] lists, per argument, what its evaluation wrote and its value. *)
Inductive EvaluatedArgs (ev : Expression -> Interp.M Value)
  : Interpreter -> list Expression -> list (list Event * Value) -> Interpreter -> Prop :=
  | EvaluatedArgs_nil (st : Interpreter) : EvaluatedArgs ev st [] [] st
  | EvaluatedArgs_cons (st st1 st2 : Interpreter) (e : Expression)
      (es : list Expression) (o : list Event) (v : Value)
      (rs : list (list Event * Value)) :
      ev e st = (Ok v, st1, o) ->
      EvaluatedArgs ev st1 es rs st2 ->
      EvaluatedArgs ev st (e :: es) ((o, v) :: rs) st2.

(** What an evaluated argument contributes to the standard output: what
    its evaluation printed, then its value. *)
Definition printed_arg (r : list Event * Value) : string :=
  stdout_of (fst r) +:+ ValueOps.toString (snd r).

Local Open Scope nat_scope.

(** Every environment encloses an older one. *)
Definition wf_heap (h : list Environment) : Prop :=
  forall (a : nat) (e : Environment) (p : nat),
    h !! a = Some e -> enclosing_ e = Some p -> p < a.

(** [above h b p]: the chain of environments that starts at [p] passes
    through [b]. *)
Inductive above (h : list Environment) (b : nat) : nat -> Prop :=
  | above_here : b < List.length h -> above h b b
  | above_enclosing (p q : nat) (e : Environment) :
      h !! p = Some e -> enclosing_ e = Some q -> above h b q -> above h b p.

Definition binds (h : list Environment) (a : nat) (x : string) : Prop :=
  exists e : Environment, h !! a = Some e /\ is_Some (values_ e !! x).

(** [ext g x b h h']: [h'] is [h] after some execution: environments are
    only added, their [enclosing_] links stay, a binding of [x] is never
    removed and, when [g] holds, the environments older than [b] keep
    their binding of [x]. *)
Definition ext (g : bool) (x : string) (b : nat) (h h' : list Environment) : Prop :=
  List.length h <= List.length h' /\
  forall (a : nat) (e : Environment),
    h !! a = Some e ->
    exists e' : Environment,
      h' !! a = Some e' /\
      enclosing_ e' = enclosing_ e /\
      (is_Some (values_ e !! x) -> is_Some (values_ e' !! x)) /\
      (g = true -> a < b -> values_ e' !! x = values_ e !! x).

Definition Inv (g : bool) (x : string) (b : nat) (st : Interpreter) : Prop :=
  wf_heap (heap st) /\
  above (heap st) b (environment_ st) /\
  (g = true -> binds (heap st) b x).

(** [pres g x b ps m]: from a state that satisfies the invariant and in
    which the addresses [ps] are above [b], [m] leads to such a state. *)
Definition pres {A} (g : bool) (x : string) (b : nat) (ps : list nat) (m : Interp.M A)
  : Prop :=
  forall (st st' : Interpreter) (r : Outcome A) (o : list Event),
    Inv g x b st ->
    Forall (above (heap st) b) ps ->
    m st = (r, st', o) ->
    Inv g x b st' /\ ext g x b (heap st) (heap st').

Definition RecPres (g : bool) (x : string) (b : nat) (rec : Interp.Rec) : Prop :=
  (forall e, pres g x b [] (Interp.r_evaluateExpression rec e)) /\
  (forall stmts env, pres g x b [env] (Interp.r_executeBlock rec stmts env)) /\
  (forall c i body, pres g x b [] (Interp.r_while rec c i body)).

(** [keeps m]: when [m] returns, [environment_] is what it was. *)
Definition keeps {A} (m : Interp.M A) : Prop :=
  forall (st st' : Interpreter) (a : A) (o : list Event),
    m st = (Ok a, st', o) -> environment_ st' = environment_ st.

(** [restores m]: when [m] returns or throws, [environment_] is what it
    was. *)
Definition restores {A} (m : Interp.M A) : Prop :=
  forall (st st' : Interpreter) (r : Outcome A) (o : list Event),
    m st = (r, st', o) ->
    (exists a, r = Ok a) \/ (exists e, r = Throw e) ->
    environment_ st' = environment_ st.

Definition RecKeeps (rec : Interp.Rec) : Prop :=
  (forall e, keeps (Interp.r_evaluateExpression rec e)) /\
  (forall stmts env, restores (Interp.r_executeBlock rec stmts env)) /\
  (forall c i body, keeps (Interp.r_while rec c i body)).

(** [ends p m q]: started with [environment_ = p], a run of [m] that
    returns ends with [environment_ = q]. *)
Definition ends {A} (p : nat) (m : Interp.M A) (q : nat) : Prop :=
  forall (st st' : Interpreter) (a : A) (o : list Event),
    environment_ st = p -> m st = (Ok a, st', o) -> environment_ st' = q.

(** Two heaps that agree, up to the address [p], on the links and on
    the bindings of [x]. *)
Definition agree_upto (x : string) (p : nat) (h h' : list Environment) : Prop :=
  forall (a : nat) (e : Environment),
    a <= p -> h !! a = Some e ->
    exists e' : Environment,
      h' !! a = Some e' /\ enclosing_ e' = enclosing_ e /\
      values_ e' !! x = values_ e !! x.

(** The state in which the statements of a block run: the fresh scope of
    the block, enclosed by the current one, is current. *)
Definition enter_block (st : Interpreter) : Interpreter :=
  mkInterpreter (heap st ++ [mkEnvironment ∅ (Some (environment_ st))])
    (List.length (heap st)) (globals_ st).

Local Open Scope Z_scope.

(** The global scope binds [x] to 1. *)
Definition outer_x_is_1 : Interpreter :=
  mkInterpreter [mkEnvironment {[ "x" := VInteger 1 ]} None] 0%nat 0%nat.

Definition lit (z : Z) : Expression := Literal (TVDouble (of_int z)).

(** [{ var x = 5; x = 7; break; }] *)
Definition shadowing_block : Statement :=
  BlockStatement
    [VariableDeclaration "x" (Some (lit 5));
     ExpressionStatement (BinaryExpression ASSIGN (Identifier "x") (lit 7));
     BreakStatement].

(** [{ var x = (x = 2); }] *)
Definition assigning_block : Statement :=
  BlockStatement
    [VariableDeclaration "x"
       (Some (BinaryExpression ASSIGN (Identifier "x") (lit 2)))].

Definition run_statement (s : Statement) (st : Interpreter)
  : Outcome unit * Interpreter * list Event :=
  Interp.executeStatement (Interp.rec_at Std.stoi Std.stod 4%nat) s st.

(** A whole program, from its source text. *)
Definition run : string -> Run := main Std.stoi Std.stod 100%nat.

(** A double that is a whole number: the one nearest to an integer that
    is a double already. *)
Definition exactly_integral (d : double) : Prop :=
  exists z : Z, d = binary_normalize prec emax z 0 false /\ dtrunc d = Some z.

(** The double 3000000000.0, as [std::stod] reads it. *)
Definition three_billion : double :=
  default dzero (Std.stod "3000000000").

(* ===================================================================== *)
(** * Vocabulary of the further properties *)
(* ===================================================================== *)

Section FurtherVocabulary.

Local Open Scope nat_scope.

(** How [toString] writes an element of an array: a function loses its
    name. *)
Definition element_string (x : Value) : string :=
  match x with
  | VFunction _ _ _ | VNativeFunction => "<function>"
  | _ => ValueOps.toString x
  end.

(** [loop (var x = 0; x < 2; x = x + 1) { }] *)
Definition counting_loop : Statement :=
  LoopStatement (Some (VariableDeclaration "x" (Some (lit 0))))
    (Some (BinaryExpression LESS (Identifier "x") (lit 2)))
    (Some (BinaryExpression ASSIGN (Identifier "x")
             (BinaryExpression PLUS (Identifier "x") (lit 1))))
    [].

(** [s] inside [d] blocks: [{ { ... s ... } }]. *)
Fixpoint nested (d : nat) (s : Statement) : Statement :=
  match d with
  | O => s
  | S d' => BlockStatement [nested d' s]
  end.

(** The message of [Environment::get] and [Environment::assign]. *)
Definition undefined_variable (x : string) : string :=
  "Undefined variable '" +:+ x +:+ "'".

(** The lexer has not run past the end of its source. *)
Definition within (lx : Lexer) : Prop := current_ lx <= String.length (source_ lx).

(** [moved k lx lx']: [lx'] is [lx] after [k] characters or more were
    consumed; the source and the buffer are the same. *)
Definition moved (k : nat) (lx lx' : Lexer) : Prop :=
  source_ lx' = source_ lx /\
  tokenBuffer_ lx' = tokenBuffer_ lx /\
  current_ lx + k <= current_ lx' /\
  within lx'.

(** What is left to deliver: the characters not yet consumed and the
    buffered tokens. *)
Definition pending (lx : Lexer) : nat :=
  (String.length (source_ lx) - current_ lx) + List.length (tokenBuffer_ lx).


(** Every character of [s] satisfies [p]. *)
Fixpoint all_chars (p : ascii -> bool) (s : string) : bool :=
  match s with
  | EmptyString => true
  | String c s' => p c && all_chars p s'
  end.

(** [s] starts with a character that satisfies [p]. *)
Definition starts_with (p : ascii -> bool) (s : string) : bool :=
  match s with
  | EmptyString => false
  | String c _ => p c
  end.

(** The characters that continue an identifier. *)
Definition ident_char (c : ascii) : bool := Lex.isalnum c || Ascii.eqb c "_".

(** [identifierType] of the word [w]. *)
Definition word_type (w : string) : TokenType :=
  match Lex.keywords w with
  | Some t => t
  | None => IDENTIFIER
  end.

(** The token that [scanIdentifier] returns for the word [w]. *)
Definition word_token (w : string) (line column : Z) : Token :=
  match word_type w with
  | IDENTIFIER => Token5 IDENTIFIER (TVString w) w line column
  | TRUE => Token5 TRUE (TVBool true) w line column
  | FALSE => Token5 FALSE (TVBool false) w line column
  | t => Token4 t w line column
  end.

(** The lexer stands in front of [rest]. *)
Definition at_rest (lx : Lexer) (pre rest : string) : Prop :=
  source_ lx = pre +:+ rest /\ current_ lx = String.length pre.

(** How often the character [d] occurs in [s]. *)
Fixpoint count_char (d : ascii) (s : string) : nat :=
  match s with
  | EmptyString => 0
  | String c s' => (if Ascii.eqb c d then 1 else 0) + count_char d s'
  end.

(** The characters inside a string literal. *)
Definition not_quote (c : ascii) : bool := negb (Ascii.eqb c Lex.DQUOTE).

(** [s] without its first character. *)
Definition after_first (s : string) : string :=
  match s with
  | EmptyString => EmptyString
  | String _ s' => s'
  end.

(** The text goes on with a point and a digit. *)
Definition fraction_ahead (s : string) : bool :=
  starts_with (Ascii.eqb ".") s && starts_with Lex.isdigit (after_first s).

(** The operators that [evaluateBinaryExpression] knows. *)
Definition binary_operators : list TokenType :=
  [PLUS; MINUS; MULTIPLY; DIVIDE; MODULO; EQUALS; NOT_EQUALS;
   LESS; LESS_EQ; GREATER; GREATER_EQ; AND; OR; ASSIGN].

(** The expressions that the interpreter evaluates without meeting an
    operator it does not know. *)
Inductive wf_expression : Expression -> Prop :=
  | wf_Binary (op : TokenType) (l r : Expression) :
      In op binary_operators -> wf_expression l -> wf_expression r ->
      wf_expression (BinaryExpression op l r)
  | wf_Unary (op : TokenType) (e : Expression) :
      op = BANG \/ op = MINUS -> wf_expression e ->
      wf_expression (UnaryExpression op e)
  | wf_Identifier (name : string) : wf_expression (Identifier name)
  | wf_Literal (value : TokenValue) : wf_expression (Literal value)
  | wf_Call (callee : Expression) (arguments : list Expression) :
      wf_expression callee -> Forall wf_expression arguments ->
      wf_expression (CallExpression callee arguments)
  | wf_Array (elements : list Expression) :
      Forall wf_expression elements -> wf_expression (ArrayExpression elements)
  | wf_ArrayAccess (array index : Expression) :
      wf_expression array -> wf_expression index ->
      wf_expression (ArrayAccessExpression array index)
  | wf_PropertyAccess (object : Expression) (property : string) :
      wf_expression object -> wf_expression (PropertyAccessExpression object property).

(** The statements that the parser builds: a loop starts with a
    variable declaration or with nothing, a print statement has no
    direct string, and the expressions are as above. *)
Inductive wf_statement : Statement -> Prop :=
  | wf_Block (statements : list Statement) :
      Forall wf_statement statements -> wf_statement (BlockStatement statements)
  | wf_VariableDeclaration (identifier : string) (initializer : option Expression) :
      (forall e, initializer = Some e -> wf_expression e) ->
      wf_statement (VariableDeclaration identifier initializer)
  | wf_FunctionDeclaration (name : string) (parameters : list string)
      (body : option (list Statement)) :
      (forall b, body = Some b -> Forall wf_statement b) ->
      wf_statement (FunctionDeclaration name parameters body)
  | wf_Loop (init : option Statement) (condition increment : option Expression)
      (body : list Statement) :
      (forall s, init = Some s ->
         (exists x i, s = VariableDeclaration x i) /\ wf_statement s) ->
      (forall e, condition = Some e -> wf_expression e) ->
      (forall e, increment = Some e -> wf_expression e) ->
      Forall wf_statement body ->
      wf_statement (LoopStatement init condition increment body)
  | wf_If (condition : Expression) (thenBranch : list Statement)
      (elseBranch : option (list Statement)) :
      wf_expression condition -> Forall wf_statement thenBranch ->
      (forall b, elseBranch = Some b -> Forall wf_statement b) ->
      wf_statement (IfStatement condition thenBranch elseBranch)
  | wf_Print (isPrintln : bool) (args : list Expression) :
      Forall wf_expression args ->
      wf_statement (PrintStatement isPrintln args EmptyString)
  | wf_Return (value : option Expression) :
      (forall e, value = Some e -> wf_expression e) ->
      wf_statement (ReturnStatement value)
  | wf_Break : wf_statement BreakStatement
  | wf_ExpressionStatement (e : Expression) :
      wf_expression e -> wf_statement (ExpressionStatement e).

(** [post P m]: what [m] returns satisfies [P]. *)
Definition post {A} (P : A -> Prop) (m : Parse.PM A) : Prop :=
  forall (p p' : Parser) (a : A), m p = (Ok a, p') -> P a.

Definition RecWf (rec : Parse.Rec) : Prop :=
  post wf_statement (Parse.r_statement rec) /\
  post (Forall wf_statement) (Parse.r_block rec) /\
  post wf_statement (Parse.r_if rec) /\
  post wf_expression (Parse.r_expression rec) /\
  post wf_expression (Parse.r_assignment rec) /\
  post wf_expression (Parse.r_unary rec) /\
  (forall e, wf_expression e -> post wf_expression (Parse.r_arrayAccess rec e)) /\
  (forall e, wf_expression e -> post wf_expression (Parse.r_propertyAccess rec e)).

(** What [readFileIdzeyKL] meets after the input file has opened and
    [tellg] at its end has given a positive size: the construction of
    the buffer throws, [read] fails, or [read] fills the buffer. *)
Inductive ReadResult :=
  | BufferThrows (what : string)
  | ReadFails
  | ReadOk (content : string).

(** The input file: it does not open, or it opens and [tellg] at its end
    gives [fileSize]. *)
Inductive InputFile :=
  | NotOpened
  | Opened (fileSize : Z) (result : ReadResult).

Section Files.

Variable stoi : string -> option (Z * nat).
Variable stod : string -> option double.
(** [std::filesystem::path(fileName).extension()] *)
Variable extension : string -> string.

Definition isIdzeyKLFile (fileName : string) : bool :=
  String.eqb (extension fileName) ".idzey".

(** [readFileIdzeyKL] (BufferFunc.hpp): the content of the file, or the
    empty string after a diagnostic on [std::cerr]. *)
Definition readFileIdzeyKL (fileName : string) (file : InputFile) : string * list Event :=
  if negb (isIdzeyKLFile fileName) then
    (EmptyString,
     [Cerr ("Ошибка: Неверный формат файла. Ожидался файл с расширением '.idzey'" +:+ endl)])
  else
    match file with
    | NotOpened =>
        (EmptyString,
         [Cerr ("Ошибка: Не удалось открыть файл для чтения: " +:+ fileName +:+ "'" +:+ endl)])
    | Opened fileSize result =>
        if (fileSize <=? 0)%Z then
          (EmptyString, [Cerr ("Ошибка: Файл пуст: " +:+ fileName +:+ endl)])
        else
          match result with
          | BufferThrows what =>
              (EmptyString, [Cerr ("Ошибка при чтении файла: " +:+ what +:+ endl)])
          | ReadFails =>
              (EmptyString,
               [Cerr ("Ошибка: Не удалось прочитать файл: " +:+ fileName +:+ endl)])
          | ReadOk content => (content, [])
          end
    end.

(** [main] of mainClassicBuffer.cpp with the arguments [args] after the
    program name.  Without an argument [argv[1]] is the null pointer,
    from which no [std::string] can be made. *)
Definition mainClassicBuffer (fuel : nat) (args : list string) (file : InputFile) : Run :=
  match args with
  | [] => mkRun Aborted EmptyString EmptyString
  | inputName :: _ =>
      let '(source, evs) := readFileIdzeyKL inputName file in
      let r := main stoi stod fuel source in
      mkRun (exit_status r) (std_out r) (stderr_of evs +:+ std_err r)
  end.

(** The input cannot be used: wrong extension, a file that does not
    open, a size that is not positive, a buffer that cannot be made, or
    a read that fails. *)
Definition unusable (inputName : string) (file : InputFile) : Prop :=
  isIdzeyKLFile inputName = false \/
  file = NotOpened \/
  (exists fileSize result, file = Opened fileSize result /\ (fileSize <= 0)%Z) \/
  (exists fileSize what, file = Opened fileSize (BufferThrows what)) \/
  (exists fileSize, file = Opened fileSize ReadFails).

End Files.

End FurtherVocabulary.

(* ===================================================================== *)
(** * Properties of the machine numbers *)
(* ===================================================================== *)

Section NumFacts.

Lemma digits2_pos_bounds (p : positive) :
  2 ^ (Zpos (digits2_pos p) - 1) <= Zpos p < 2 ^ Zpos (digits2_pos p).
Proof.
  assert (Hdouble : forall d : positive, 2 ^ Zpos d = 2 * 2 ^ (Zpos d - 1)).
  { intros d. rewrite <- Z.pow_succ_r by lia. f_equal. lia. }
  induction p as [p IH | p IH |]; simpl digits2_pos.
  - rewrite Pos2Z.inj_succ.
    replace (Z.succ (Zpos (digits2_pos p)) - 1) with (Zpos (digits2_pos p)) by lia.
    rewrite Z.pow_succ_r by lia.
    specialize (Hdouble (digits2_pos p)). lia.
  - rewrite Pos2Z.inj_succ.
    replace (Z.succ (Zpos (digits2_pos p)) - 1) with (Zpos (digits2_pos p)) by lia.
    rewrite Z.pow_succ_r by lia.
    specialize (Hdouble (digits2_pos p)). lia.
  - simpl. lia.
Qed.

Lemma digits2_pos_int (p : positive) :
  Zpos p <= 2 ^ 31 -> Zpos (digits2_pos p) <= 32.
Proof.
  intros Hp. pose proof (digits2_pos_bounds p) as [Hdl Hdh].
  destruct (Z_le_gt_dec (Zpos (digits2_pos p)) 32) as [H | H]; [exact H |].
  exfalso. assert (2 ^ 32 <= 2 ^ (Zpos (digits2_pos p) - 1)).
  { apply Z.pow_le_mono_r; lia. }
  lia.
Qed.

Lemma iter_xO_digits (p k : positive) :
  digits2_pos (Pos.iter xO p k) = (digits2_pos p + k)%positive.
Proof.
  induction k as [| k IH] using Pos.peano_ind.
  - simpl. lia.
  - rewrite Pos.iter_succ. simpl. rewrite IH. lia.
Qed.

Lemma iter_xO_value (p k : positive) :
  Zpos (Pos.iter xO p k) = Zpos p * 2 ^ Zpos k.
Proof.
  induction k as [| k IH] using Pos.peano_ind.
  - simpl. lia.
  - rewrite Pos.iter_succ, Pos2Z.inj_succ, Z.pow_succ_r by lia.
    rewrite Pos2Z.inj_xO, IH. lia.
Qed.

(** The conversion of an [int] shifts its digits to 53 bits; nothing is
    rounded away. *)
Lemma binary_round_int (s : bool) (p : positive) :
  Zpos p <= 2 ^ 31 ->
  binary_round prec emax s p 0 =
  S754_finite s (Pos.iter xO p (Z.to_pos (53 - Zpos (digits2_pos p))))
    (Zpos (digits2_pos p) - 53).
Proof.
  intros Hp.
  pose proof (digits2_pos_int p Hp) as Hd.
  unfold binary_round.
  set (d := digits2_pos p) in *.
  assert (Hfexp : fexp prec emax (Zpos d + 0) = Zpos d - 53).
  { unfold fexp, emin, prec, emax. lia. }
  rewrite Hfexp.
  unfold shl_align.
  destruct (Zpos d - 53 - 0) as [| q | q] eqn:Hq; try lia.
  assert (Hq' : Z.to_pos (53 - Zpos d) = q) by lia.
  rewrite Hq'.
  unfold binary_round_aux, shr_fexp.
  cbn [Zdigits2 shr_record_of_loc].
  rewrite iter_xO_digits. fold d.
  assert (Hfexp2 : fexp prec emax (Zpos (d + q) + (Zpos d - 53)) = Zpos d - 53).
  { unfold fexp, emin, prec, emax. lia. }
  rewrite Hfexp2.
  replace (Zpos d - 53 - (Zpos d - 53)) with 0 by lia.
  cbn [shr shr_m loc_of_shr_record round_nearest_even Zdigits2 shr_record_of_loc].
  rewrite iter_xO_digits. fold d. rewrite Hfexp2.
  replace (Zpos d - 53 - (Zpos d - 53)) with 0 by lia.
  cbn [shr shr_m].
  replace (Zpos d - 53 <=? emax - prec) with true; [reflexivity |].
  unfold emax, prec. lia.
Qed.

Lemma of_int_value (z : Z) :
  in_int z -> z <> 0 ->
  exists m e, of_int z = S754_finite (z <? 0) m e /\ e < 0 /\
              Zpos m = Z.abs z * 2 ^ (- e).
Proof.
  intros [Hlo Hhi] Hz. unfold INT_MIN, INT_MAX in *.
  unfold of_int, binary_normalize.
  destruct z as [| p | p]; [congruence | |].
  - rewrite binary_round_int by lia.
    pose proof (digits2_pos_int p ltac:(lia)) as Hd.
    eexists _, _. split; [reflexivity |]. split; [lia |].
    rewrite iter_xO_value. rewrite Z2Pos.id by lia.
    simpl Z.abs. f_equal. f_equal. lia.
  - rewrite binary_round_int by lia.
    pose proof (digits2_pos_int p ltac:(lia)) as Hd.
    eexists _, _. split; [reflexivity |]. split; [lia |].
    rewrite iter_xO_value. rewrite Z2Pos.id by lia.
    simpl Z.abs. f_equal. f_equal. lia.
Qed.

(** [static_cast<int>(static_cast<double>(z))] is [z]. *)
Lemma to_int_of_int (z : Z) : in_int z -> to_int (of_int z) = z.
Proof.
  intros Hz. destruct (Z.eq_dec z 0) as [-> | Hnz]; [reflexivity |].
  destruct (of_int_value z Hz Hnz) as (m & e & Heq & He & Hm).
  rewrite Heq. unfold to_int, dtrunc.
  assert (Hsh : Z.shiftl (Zpos m) e = Z.abs z).
  { rewrite Z.shiftl_div_pow2 by lia. rewrite Hm.
    apply Z.div_mul. apply Z.pow_nonzero; lia. }
  rewrite Hsh. destruct Hz as [Hlo Hhi].
  destruct (z <? 0) eqn:Hs.
  - replace (- Z.abs z) with z by lia.
    replace (INT_MIN <=? z) with true by lia.
    replace (z <=? INT_MAX) with true by lia. reflexivity.
  - replace (Z.abs z) with z by lia.
    replace (INT_MIN <=? z) with true by lia.
    replace (z <=? INT_MAX) with true by lia. reflexivity.
Qed.

Lemma to_int_in_int (d : double) : in_int (to_int d).
Proof.
  unfold to_int, in_int.
  destruct (dtrunc d) as [z |]; [| unfold INT_MIN, INT_MAX; lia].
  destruct ((INT_MIN <=? z) && (z <=? INT_MAX)) eqn:H.
  - apply andb_prop in H. lia.
  - unfold INT_MIN, INT_MAX; lia.
Qed.

Lemma SFcompare_Eq_finite s1 m1 e1 s2 m2 e2 :
  SFcompare (S754_finite s1 m1 e1) (S754_finite s2 m2 e2) = Some Eq ->
  s1 = s2 /\ m1 = m2 /\ e1 = e2.
Proof.
  simpl. destruct s1, s2; try discriminate.
  - destruct (e1 ?= e2) eqn:He; try discriminate.
    apply Z.compare_eq in He. intros H.
    destruct (Pos.compare_cont Eq m1 m2) eqn:Hm; try discriminate.
    apply Pos.compare_eq in Hm. auto.
  - destruct (e1 ?= e2) eqn:He; try discriminate.
    apply Z.compare_eq in He. intros H.
    destruct (Pos.compare_cont Eq m1 m2) eqn:Hm; try discriminate.
    apply Pos.compare_eq in Hm. auto.
Qed.

(** A double that compares equal to the conversion of the [int] [z]
    converts back to [z]. *)
Lemma deqb_of_int_to_int (q : double) (z : Z) :
  in_int z -> deqb q (of_int z) = true -> to_int q = z.
Proof.
  intros Hz Heq. unfold deqb, SFeqb in Heq.
  destruct (SFcompare q (of_int z)) as [[| |] |] eqn:Hc; try discriminate.
  destruct (Z.eq_dec z 0) as [-> | Hnz].
  - change (of_int 0) with (S754_zero false) in Hc.
    destruct q as [s | s | | s m e]; try reflexivity; try discriminate.
    + destruct s; discriminate.
    + simpl in Hc. destruct s; discriminate.
  - destruct (of_int_value z Hz Hnz) as (m & e & Hv & He & Hm).
    rewrite Hv in Hc.
    destruct q as [s | s | | s' m' e'].
    + simpl in Hc. destruct (z <? 0); discriminate.
    + simpl in Hc. destruct s; discriminate.
    + discriminate.
    + apply SFcompare_Eq_finite in Hc as (-> & -> & ->).
      rewrite <- Hv. apply to_int_of_int. exact Hz.
Qed.

Lemma of_int_zero_iff (z : Z) :
  in_int z -> deqb (of_int z) dzero = true <-> z = 0.
Proof.
  intros Hz. split.
  - intros H. destruct (Z.eq_dec z 0) as [-> | Hnz]; [reflexivity |].
    destruct (of_int_value z Hz Hnz) as (m & e & Hv & _). rewrite Hv in H.
    unfold deqb, SFeqb in H. simpl in H. destruct (z <? 0); discriminate.
  - intros ->. reflexivity.
Qed.

End NumFacts.

(* ===================================================================== *)
(** * Properties of the lexer *)
(* ===================================================================== *)

Section LexerFacts.

Variable stod : string -> option double.

(** Once the source is exhausted [nextToken] answers [EOF] before it
    looks at the buffer: a buffered token stays where it is. *)
Lemma nextToken_exhausted (lx : Lexer) :
  Lex.isAtEnd (Lex.skipWhitespace lx) = true ->
  exists l c lx',
    Lex.nextToken stod lx = (inl (Token4 EOF_TOKEN "EOF" l c), lx') /\
    tokenBuffer_ lx' = tokenBuffer_ (Lex.skipWhitespace lx).
Proof.
  intros Hend. unfold Lex.nextToken.
  set (lx1 := Lex.set_start _ _).
  assert (Hend1 : Lex.isAtEnd lx1 = true) by exact Hend.
  rewrite Hend1. eexists _, _, _. split; [reflexivity | reflexivity].
Qed.

(** While source text remains, a buffered token is what the next call
    returns. *)
Lemma nextToken_buffered (lx : Lexer) (t : Token) (rest : list Token) :
  Lex.isAtEnd (Lex.skipWhitespace lx) = false ->
  tokenBuffer_ (Lex.skipWhitespace lx) = t :: rest ->
  fst (Lex.nextToken stod lx) = inl t.
Proof.
  intros Hend Hbuf. unfold Lex.nextToken.
  set (lx1 := Lex.set_start _ _).
  assert (Hend1 : Lex.isAtEnd lx1 = false) by exact Hend.
  assert (Hbuf1 : tokenBuffer_ lx1 = t :: rest) by exact Hbuf.
  rewrite Hend1, Hbuf1. reflexivity.
Qed.

(** C4 (the code at the failing input).  On the source [loop(] the first
    call returns the [LOOP] keyword and buffers the synthetic [LPAREN];
    the opening parenthesis was the last character, so the second call
    returns [EOF] and the [LPAREN] is never delivered. *)
Theorem nextToken_loop_paren_last :
  let r1 := Lex.nextToken stod (Lex.new "loop(") in
  let r2 := Lex.nextToken stod (snd r1) in
  let r3 := Lex.nextToken stod (snd r2) in
  fst r1 = inl (Token4 LOOP "loop" 1 1) /\
  tokenBuffer_ (snd r1) = [Token4 LPAREN "(" 1 5] /\
  fst r2 = inl (Token4 EOF_TOKEN "EOF" 1 6) /\
  fst r3 = inl (Token4 EOF_TOKEN "EOF" 1 6) /\
  tokenBuffer_ (snd r3) = [Token4 LPAREN "(" 1 5].
Proof. vm_compute. repeat split. Qed.

(** With source text after the parenthesis the rewrite works as
    described: [LOOP], then the synthetic [LPAREN]. *)
Example nextToken_loop_paren_inside :
  let r1 := Lex.nextToken stod (Lex.new "loop(x") in
  let r2 := Lex.nextToken stod (snd r1) in
  fst r1 = inl (Token4 LOOP "loop" 1 1) /\
  fst r2 = inl (Token4 LPAREN "(" 1 5).
Proof. vm_compute. repeat split. Qed.

End LexerFacts.

(* ===================================================================== *)
(** * Properties of [Value] *)
(* ===================================================================== *)

Section ValueFacts.

Variable stoi : string -> option (Z * nat).
Variable stod : string -> option double.

Import ValueOps.

Lemma string_get_in_range (s : string) (n : nat) :
  (n < String.length s)%nat -> exists c, String.get n s = Some c.
Proof.
  revert n. induction s as [| a s IH]; intros n Hn; simpl in *.
  - lia.
  - destruct n as [| n'].
    + exists a. reflexivity.
    + apply IH. lia.
Qed.

(** C6.  Reading [a[i]] of an array with [i] negative or past the end
    gives null; a value that is neither an array nor a string reads as
    itself at index 0 and as null elsewhere; a string reads as itself
    at index 0, as the one-character string at a valid positive index,
    and as null at any other index. *)
Theorem getArrayElement_spec :
  (forall (a : list Value) (i : Z),
      i < 0 \/ i >= size_int a -> getArrayElement (VArray a) i = VNull) /\
  (forall (v : Value),
      isArray v = false -> isString v = false ->
      getArrayElement v 0 = v /\
      forall i : Z, i <> 0 -> getArrayElement v i = VNull) /\
  (forall (s : string),
      getArrayElement (VString s) 0 = VString s /\
      (forall i : Z, 0 < i < strsize_int s ->
         exists c : ascii,
           String.get (Z.to_nat i) s = Some c /\
           getArrayElement (VString s) i = VString (String c EmptyString)) /\
      (forall i : Z, i < 0 \/ (i <> 0 /\ i >= strsize_int s) ->
         getArrayElement (VString s) i = VNull)).
Proof.
  split; [| split].
  - intros a i Hi. unfold getArrayElement.
    destruct (i <? 0) eqn:Hneg; [reflexivity |].
    destruct (i >=? size_int a) eqn:Hge; [reflexivity |]. lia.
  - intros v Harr Hstr. split.
    + destruct v; try reflexivity; discriminate.
    + intros i Hi.
      assert (Hz : (i =? 0) = false) by lia.
      destruct v; simpl; try rewrite Hz; try reflexivity; discriminate.
  - intros s. split; [reflexivity | split].
    + intros i [Hpos Hlt]. unfold getArrayElement.
      replace (i =? 0) with false by lia.
      replace (i >? 0) with true by lia.
      replace (i <? strsize_int s) with true by lia. simpl.
      destruct (string_get_in_range s (Z.to_nat i)) as [c Hc].
      { unfold strsize_int in Hlt. lia. }
      rewrite Hc. exists c. split; reflexivity.
    + intros i Hi. unfold getArrayElement.
      destruct Hi as [Hneg | [Hnz Hge]].
      * replace (i =? 0) with false by lia.
        replace (i >? 0) with false by lia. reflexivity.
      * replace (i =? 0) with false by lia.
        replace (i <? strsize_int s) with false by lia.
        rewrite andb_false_r. reflexivity.
Qed.

Lemma setArrayElement_isArray (v x : Value) (i : Z) :
  isArray (setArrayElement v i x) = true.
Proof.
  unfold setArrayElement.
  destruct (i <? 0); [reflexivity |].
  destruct (i >=? _); [| reflexivity].
  destruct (i >? 1000); reflexivity.
Qed.

(** A scalar that is not a string is promoted to an empty array: the
    prior value is not kept as element 0. *)
Example setArrayElement_scalar_dropped :
  setArrayElement (VInteger 5) 1 (VInteger 7) = VArray [VNull; VInteger 7].
Proof. reflexivity. Qed.




(** The [int] division is defined unless the divisor is zero or the
    operands are [INT_MIN] and [-1]. *)
Lemma division_traps_false (x y : Z) :
  y <> 0 -> ~ (x = INT_MIN /\ y = -1) -> division_traps x y = false.
Proof.
  intros Hnz Hmin. unfold division_traps.
  replace (y =? 0) with false by lia. cbn [orb].
  destruct (x =? INT_MIN) eqn:Hx; [| reflexivity].
  destruct (y =? -1) eqn:Hy; [| reflexivity].
  exfalso. apply Hmin. lia.
Qed.

Lemma division_traps_true (x y : Z) :
  division_traps x y = true <-> y = 0 \/ (x = INT_MIN /\ y = -1).
Proof.
  unfold division_traps. rewrite orb_true_iff, andb_true_iff. lia.
Qed.

(** An exact quotient of two [int]s is an [int], [INT_MIN / -1] apart. *)
Lemma exact_quotient_in_int (x y : Z) :
  in_int x -> in_int y -> y <> 0 -> Z.rem x y = 0 ->
  ~ (x = INT_MIN /\ y = -1) -> in_int (Z.quot x y).
Proof.
  unfold in_int, INT_MIN, INT_MAX. intros Hx Hy Hnz Hrem Hmin.
  pose proof (Z.quot_rem' x y) as Hq. rewrite Hrem, Z.add_0_r in Hq.
  set (q := Z.quot x y) in *. clearbody q. nia.
Qed.

(** The integral demotion: a result that equals the conversion of an
    [int] becomes that Integer, any other result stays a Double. *)
Lemma demote_spec (q : double) :
  (forall z : Z, in_int z -> deqb q (of_int z) = true -> demote q = VInteger z) /\
  ((forall z : Z, in_int z -> deqb q (of_int z) = false) -> demote q = VDouble q).
Proof.
  split.
  - intros z Hz Heq. unfold demote.
    rewrite (deqb_of_int_to_int q z Hz Heq), Heq. reflexivity.
  - intros Hne. unfold demote.
    rewrite (Hne (to_int q) (to_int_in_int q)). reflexivity.
Qed.

(** C7 (amended).  [a / b] is the Integer 0, never an error, whenever
    [b] coerces to the number zero; two Integers that divide exactly,
    other than [INT_MIN] and [-1], give the Integer quotient (an [int]);
    operands that are not both Integers, or that do not divide exactly,
    give the double quotient, demoted to Integer when it equals an [int]
    and left a Double otherwise. *)
Theorem div_spec :
  (forall a b : Value,
      deqb (asNumber stoi stod b) dzero = true ->
      div stoi stod a b = Some (VInteger 0)) /\
  (forall x y : Z,
      in_int x -> in_int y -> y <> 0 -> Z.rem x y = 0 ->
      ~ (x = INT_MIN /\ y = -1) ->
      div stoi stod (VInteger x) (VInteger y) = Some (VInteger (Z.quot x y)) /\
      in_int (Z.quot x y)) /\
  (forall a b : Value,
      deqb (asNumber stoi stod b) dzero = false ->
      ~ (exists x y : Z, a = VInteger x /\ b = VInteger y /\ Z.rem x y = 0) ->
      let q := ddiv (asNumber stoi stod a) (asNumber stoi stod b) in
      (forall z : Z, in_int z -> deqb q (of_int z) = true ->
         div stoi stod a b = Some (VInteger z)) /\
      ((forall z : Z, in_int z -> deqb q (of_int z) = false) ->
         div stoi stod a b = Some (VDouble q))).
Proof.
  split; [| split].
  - intros a b Hz. unfold div. rewrite Hz. reflexivity.
  - intros x y Hx Hy Hnz Hrem Hmin. split.
    + unfold div. cbn [asNumber].
      destruct (deqb (of_int y) dzero) eqn:Hd.
      * apply of_int_zero_iff in Hd; [congruence | exact Hy].
      * unfold int_rem, int_div. rewrite (division_traps_false x y Hnz Hmin).
        rewrite Hrem. reflexivity.
    + apply exact_quotient_in_int; assumption.
  - intros a b Hz Hnot q.
    assert (Hdiv : div stoi stod a b = Some (demote q)).
    { unfold div. rewrite Hz.
      destruct a; try reflexivity. destruct b; try reflexivity.
      cbn [asNumber] in Hz.
      assert (Hnz : integer_0 <> 0).
      { intros ->. vm_compute in Hz. discriminate Hz. }
      assert (Hrem : Z.rem integer_ integer_0 <> 0).
      { intros Hr. apply Hnot. exists integer_, integer_0. repeat split. exact Hr. }
      assert (Hmin : ~ (integer_ = INT_MIN /\ integer_0 = -1)).
      { intros [-> ->]. apply Hrem. reflexivity. }
      unfold int_rem. rewrite (division_traps_false _ _ Hnz Hmin).
      replace (Z.rem integer_ integer_0 =? 0) with false by lia.
      reflexivity. }
    rewrite Hdiv.
    destruct (demote_spec q) as [Hint Hdbl].
    split.
    + intros z Hin Heq. rewrite (Hint z Hin Heq). reflexivity.
    + intros Hne. rewrite (Hdbl Hne). reflexivity.
Qed.

(** C6 at one input per case. *)
Lemma getArrayElement_spec_witness :
  getArrayElement (VArray [VInteger 1]) 1 = VNull /\
  getArrayElement (VArray [VInteger 1]) (-1) = VNull /\
  getArrayElement (VBoolean true) 0 = VBoolean true /\
  getArrayElement (VBoolean true) 2 = VNull /\
  getArrayElement (VString "ab") 0 = VString "ab" /\
  getArrayElement (VString "ab") 2 = VNull.
Proof.
  destruct getArrayElement_spec as (Harr & Hscalar & Hstr).
  split; [| split; [| split; [| split; [| split]]]].
  - apply Harr. right. unfold size_int. simpl. lia.
  - apply Harr. left. lia.
  - apply (Hscalar (VBoolean true)); reflexivity.
  - apply (Hscalar (VBoolean true)); [reflexivity | reflexivity | lia].
  - apply (Hstr "ab").
  - apply (Hstr "ab"). right. unfold strsize_int. simpl. lia.
Defined.

End ValueFacts.

(** C7 at [1 / 0], [6 / 3], [7 / 2] and [7.5 / 2.5]. *)
Lemma div_spec_witness :
  ValueOps.div Std.stoi Std.stod (VInteger 1) (VInteger 0) = Some (VInteger 0) /\
  ValueOps.div Std.stoi Std.stod (VInteger 6) (VInteger 3) = Some (VInteger 2) /\
  ValueOps.div Std.stoi Std.stod (VInteger 7) (VInteger 2)
    = Some (VDouble (ddiv (of_int 7) (of_int 2))) /\
  ValueOps.div Std.stoi Std.stod (VDouble (ddiv (of_int 15) (of_int 2)))
      (VDouble (ddiv (of_int 5) (of_int 2)))
    = Some (VInteger 3).
Proof.
  destruct (div_spec Std.stoi Std.stod) as (Hzero & Hexact & Hother).
  split; [| split; [| split]].
  - apply Hzero. reflexivity.
  - destruct (Hexact 6 3) as [H _];
      [unfold in_int, INT_MIN, INT_MAX; lia | unfold in_int, INT_MIN, INT_MAX; lia
      | lia | reflexivity | unfold INT_MIN; lia |].
    exact H.
  - destruct (Hother (VInteger 7) (VInteger 2)) as [_ H].
    + reflexivity.
    + intros (x & y & Hx & Hy & Hr). injection Hx as <-. injection Hy as <-.
      vm_compute in Hr. discriminate Hr.
    + apply H. intros z Hz.
      destruct (deqb (ddiv (ValueOps.asNumber Std.stoi Std.stod (VInteger 7)) (ValueOps.asNumber Std.stoi Std.stod (VInteger 2)))
                  (of_int z)) eqn:Heq; [| reflexivity].
      exfalso. pose proof (deqb_of_int_to_int _ z Hz Heq) as Hto.
      vm_compute in Hto. subst z. vm_compute in Heq. discriminate Heq.
  - destruct (Hother (VDouble (ddiv (of_int 15) (of_int 2)))
                (VDouble (ddiv (of_int 5) (of_int 2)))) as [H _].
    + reflexivity.
    + intros (x & y & Hx & _). discriminate Hx.
    + apply H; [unfold in_int, INT_MIN, INT_MAX; lia | vm_compute; reflexivity].
Defined.

(** C7 (counterexample).  The quotient of [3000000000 / 1] is the whole
    number 3000000000 exactly, and the result is a Double, not an
    Integer: no [int] holds it. *)
Lemma div_integral_quotient_stays_double :
  let q := ddiv three_billion (of_int 1) in
  exactly_integral q /\
  ValueOps.div Std.stoi Std.stod (VDouble three_billion) (VInteger 1)
    = Some (VDouble q) /\
  run "println(3000000000 / 1);"
    = mkRun (Exited 0) ("3000000000.000000" +:+ endl) EmptyString.
Proof.
  split; [| split].
  - exists 3000000000. split; vm_compute; reflexivity.
  - vm_compute. reflexivity.
  - vm_compute. reflexivity.
Qed.

(** [INT_MIN / -1] and [INT_MIN % -1] have no result: the [int]
    remainder that both operators evaluate traps, and the process is
    killed. *)
Lemma int_min_by_minus_one_traps :
  ValueOps.div Std.stoi Std.stod (VInteger INT_MIN) (VInteger (-1)) = None /\
  ValueOps.mod_ Std.stoi Std.stod (VInteger INT_MIN) (VInteger (-1)) = None /\
  run "println((0 - 2147483647 - 1) / (0 - 1));"
    = mkRun Aborted EmptyString EmptyString /\
  run "println((0 - 2147483647 - 1) % (0 - 1));"
    = mkRun Aborted EmptyString EmptyString.
Proof. repeat split; vm_compute; reflexivity. Qed.


(* ===================================================================== *)
(** * Properties of the interpreter *)
(* ===================================================================== *)

Section StringFacts.

Lemma append_assoc (a b c : string) : (a +:+ b) +:+ c = a +:+ (b +:+ c).
Proof.
  induction a as [| x a IH]; [reflexivity |].
  change (String x ((a +:+ b) +:+ c) = String x (a +:+ (b +:+ c))).
  f_equal. exact IH.
Qed.

Lemma append_empty_r (a : string) : a +:+ EmptyString = a.
Proof.
  induction a as [| x a IH]; [reflexivity |].
  change (String x (a +:+ EmptyString) = String x a).
  f_equal. exact IH.
Qed.

Lemma stdout_of_app (a b : list Event) :
  stdout_of (a ++ b) = stdout_of a +:+ stdout_of b.
Proof.
  induction a as [| [s | s] a IH]; simpl; [reflexivity | | exact IH].
  rewrite IH. symmetry. apply append_assoc.
Qed.

End StringFacts.

Section InterpFacts.

Variable stoi : string -> option (Z * nat).
Variable stod : string -> option double.

Import Interp.

Abbreviation rec_at := (Interp.rec_at stoi stod).
Abbreviation asNumber := (ValueOps.asNumber stoi stod).

Lemma bind_ok {A B} (m : M A) (k : A -> M B) st a st1 o1 :
  m st = (Ok a, st1, o1) ->
  bind m k st = (let '(r, st2, o2) := k a st1 in (r, st2, o1 ++ o2)).
Proof. intros H. unfold bind. rewrite H. reflexivity. Qed.

(** ** Unary minus *)

(** C10.  Unary minus yields the Double-tagged negation of the numeric
    coercion of its operand, whatever the operand is; the source [-5]
    parses to the negation of the literal 5 and evaluates to the Double
    -5.0, while the literal 5 evaluates to the Integer 5. *)
Theorem unary_minus_is_double :
  (forall (fuel : nat) (e : Expression) (st st' : Interpreter) (v : Value)
          (o : list Event),
      r_evaluateExpression (rec_at fuel) e st = (Ok v, st', o) ->
      r_evaluateExpression (rec_at (S fuel)) (UnaryExpression MINUS e) st =
        (Ok (VDouble (dneg (asNumber v))), st', o)) /\
  fst (Parse.parse Std.stod 5%nat (snd (Parse.new Std.stod (Lex.new "-5;")))) =
    Ok [ExpressionStatement (UnaryExpression MINUS (Literal (TVDouble (of_int 5))))] /\
  r_evaluateExpression (rec_at 2%nat)
    (UnaryExpression MINUS (Literal (TVDouble (of_int 5)))) Interp.new =
    (Ok (VDouble (dneg (of_int 5))), Interp.new, []) /\
  r_evaluateExpression (rec_at 1%nat) (Literal (TVDouble (of_int 5))) Interp.new =
    (Ok (VInteger 5), Interp.new, []).
Proof.
  split; [| repeat split].
  intros fuel e st st' v o Hev.
  cbn [Interp.rec_at step r_evaluateExpression evaluateExpression].
  unfold evaluateUnaryExpression.
  rewrite (bind_ok _ _ _ _ _ _ Hev). cbn. rewrite app_nil_r. reflexivity.
Qed.

(** ** Logical operators *)

(** Both operands of [&&] are evaluated before the operator is looked
    at: a falsy left operand does not keep the right one from running. *)
Lemma and_evaluates_both (rec : Rec) (l r : Expression) st st1 st2 vl vr o1 o2 :
  r_evaluateExpression rec l st = (Ok vl, st1, o1) ->
  r_evaluateExpression rec r st1 = (Ok vr, st2, o2) ->
  evaluateBinaryExpression stoi stod rec AND l r st =
    (Ok (VBoolean (isTruthy vl && isTruthy vr)), st2, o1 ++ o2).
Proof.
  intros Hl Hr. unfold evaluateBinaryExpression.
  rewrite (bind_ok _ _ _ _ _ _ Hl), (bind_ok _ _ _ _ _ _ Hr).
  destruct (isTruthy vl); cbn; rewrite app_nil_r; reflexivity.
Qed.

Lemma or_evaluates_both (rec : Rec) (l r : Expression) st st1 st2 vl vr o1 o2 :
  r_evaluateExpression rec l st = (Ok vl, st1, o1) ->
  r_evaluateExpression rec r st1 = (Ok vr, st2, o2) ->
  evaluateBinaryExpression stoi stod rec OR l r st =
    (Ok (VBoolean (isTruthy vl || isTruthy vr)), st2, o1 ++ o2).
Proof.
  intros Hl Hr. unfold evaluateBinaryExpression.
  rewrite (bind_ok _ _ _ _ _ _ Hl), (bind_ok _ _ _ _ _ _ Hr).
  destruct (isTruthy vl); cbn; rewrite app_nil_r; reflexivity.
Qed.

(** ** Assignment of a sum *)

(** The assignment [name = l + r] evaluates [l] and [r] once more and,
    when both are numbers, stores and returns their sum as a Double,
    without the integral demotion of [operator+]. *)
Lemma assign_sum_stores_double (rec : Rec) (name : string) (l r : Expression)
    (right vl vr v : Value) st st1 st2 st' o1 o2 o :
  r_evaluateExpression rec l st = (Ok vl, st1, o1) ->
  r_evaluateExpression rec r st1 = (Ok vr, st2, o2) ->
  ValueOps.isNumber vl = true ->
  ValueOps.isNumber vr = true ->
  evaluateAssign stoi stod rec (Identifier name) (BinaryExpression PLUS l r) right st
    = (Ok v, st', o) ->
  v = VDouble (dadd (asNumber vl) (asNumber vr)) /\
  exists a : nat,
    find_scope (List.length (heap st2)) (heap st2) (environment_ st2) name = Some a /\
    heap st' = store_var (heap st2) a name v.
Proof.
  intros Hl Hr Hnl Hnr Hrun.
  unfold evaluateAssign in Hrun.
  unfold bind at 1 in Hrun. unfold bind at 1 in Hrun. rewrite Hl in Hrun.
  unfold bind at 1 in Hrun. rewrite Hr in Hrun.
  rewrite Hnl, Hnr in Hrun. cbn [andb ret] in Hrun.
  unfold bind, getEnvironment, assign in Hrun.
  destruct (find_scope _ _ _ _) as [a |] eqn:Hfind; [| discriminate Hrun].
  cbn in Hrun. injection Hrun as <- <- <-.
  split; [reflexivity |]. exists a. split; [reflexivity | reflexivity].
Qed.

(** ** Printing *)

Lemma EvaluatedArgs_nil_iff ev st args rs st' :
  EvaluatedArgs ev st args rs st' -> (args = [] <-> rs = []).
Proof. intros H. destruct H; split; intros; congruence. Qed.

Lemma printArgs_spec (rec : Rec) (args : list Expression)
    (rs : list (list Event * Value)) (st st' : Interpreter) :
  EvaluatedArgs (r_evaluateExpression rec) st args rs st' ->
  forall i : nat,
  exists evs : list Event,
    printArgs rec i args st = (Ok tt, st', evs) /\
    stdout_of evs =
      (if (0 <? i)%nat then match rs with [] => EmptyString | _ => " " end
       else EmptyString) +:+ String.concat " " (map printed_arg rs).
Proof.
  induction 1 as [st | st st1 st2 e es o v rs Hev Hrest IH]; intros i.
  - exists []. split; [reflexivity |]. destruct (0 <? i)%nat; reflexivity.
  - destruct (IH (S i)) as (evs & Hrun & Hout).
    cbn [printArgs].
    assert (Hsep : exists sep : list Event,
               (if (0 <? i)%nat then cout " " else ret tt) st = (Ok tt, st, sep) /\
               stdout_of sep = if (0 <? i)%nat then " " else EmptyString).
    { destruct (0 <? i)%nat; eexists; split; reflexivity. }
    destruct Hsep as (sep & Hsep & Hsepout).
    rewrite (bind_ok _ _ _ _ _ _ Hsep), (bind_ok _ _ _ _ _ _ Hev).
    unfold bind at 1. cbn [cout]. rewrite Hrun.
    eexists. split; [reflexivity |].
    rewrite !stdout_of_app, Hsepout, Hout. cbn [stdout_of map].
    change (Nat.ltb 0 (S i)) with true.
    unfold printed_arg at 2. cbn [fst snd].
    destruct rs as [| r rs'].
    + cbn [String.concat map]. rewrite !append_empty_r. reflexivity.
    + cbn [String.concat map]. rewrite !append_assoc. reflexivity.
Qed.

(** C9.  A print statement with an argument list writes the argument
    values (each after whatever its own evaluation printed) with exactly
    one space between consecutive ones, none before the first or after
    the last, followed by a newline for [println]. *)
Theorem print_separates_arguments (fuel : nat) (isPrintln : bool)
    (args : list Expression) (rs : list (list Event * Value))
    (st st' : Interpreter) :
  EvaluatedArgs (r_evaluateExpression (rec_at fuel)) st args rs st' ->
  exists evs : list Event,
    executeStatement (rec_at fuel)
      (PrintStatement isPrintln args EmptyString) st = (Ok tt, st', evs) /\
    stdout_of evs =
      String.concat " " (map printed_arg rs) +:+
      (if isPrintln then endl else EmptyString).
Proof.
  intros Hargs.
  destruct (printArgs_spec _ _ _ _ _ Hargs 0) as (evs & Hrun & Hout).
  cbn [executeStatement]. unfold executePrintStatement. cbn [String.eqb negb].
  rewrite (bind_ok _ _ _ _ _ _ Hrun).
  destruct isPrintln; cbn.
  - eexists. split; [reflexivity |].
    rewrite stdout_of_app, Hout. reflexivity.
  - eexists. split; [reflexivity |].
    rewrite stdout_of_app, Hout. reflexivity.
Qed.

(** ** The exit status *)

(** [interpret] handles every exception itself: nothing reaches the
    handlers of [main]. *)
Lemma interpret_never_throws (fuel : nat) (program : list Statement)
    (st : Interpreter) (e : Exception) :
  fst (fst (interpret stoi stod fuel program st)) <> Throw e.
Proof.
  unfold interpret, try_catch.
  destruct (bind _ _ st) as [[[a | e' | |] st1] o1]; cbn; try discriminate.
  destruct e'; cbn; discriminate.
Qed.

(** Whenever the program parses, [main] does not return 1: it returns
    0 when the interpretation ends, with or without a runtime error. *)
Lemma main_exit_status (fuel : nat) (source : string) (parser p : Parser)
    (program : list Statement) :
  Parse.new stod (Lex.new source) = (Ok tt, parser) ->
  Parse.parse stod fuel parser = (Ok program, p) ->
  exit_status (main stoi stod fuel source) = Exited 0 \/
  exit_status (main stoi stod fuel source) = Aborted \/
  exit_status (main stoi stod fuel source) = Unfinished.
Proof.
  intros Hnew Hparse. unfold main. rewrite Hnew, Hparse.
  pose proof (interpret_never_throws fuel program Interp.new) as Hnothrow.
  destruct (interpret stoi stod fuel program Interp.new) as [[[[] | e | |] st1] evs];
    cbn in *; auto.
  exfalso. apply (Hnothrow e). reflexivity.
Qed.

End InterpFacts.

(** C10 at the operand ["7"], a string. *)
Lemma unary_minus_is_double_witness :
  Interp.r_evaluateExpression (Interp.rec_at Std.stoi Std.stod 2%nat)
    (UnaryExpression MINUS (Literal (TVString "7"))) Interp.new =
    (Ok (VDouble (dneg (ValueOps.asNumber Std.stoi Std.stod (VString "7")))), Interp.new, []).
Proof.
  apply (proj1 (unary_minus_is_double Std.stoi Std.stod) 1%nat (Literal (TVString "7"))).
  reflexivity.
Defined.

(** C9 at [println(1, "b", true)]. *)
Lemma print_separates_arguments_witness :
  exists evs : list Event,
    Interp.executeStatement (Interp.rec_at Std.stoi Std.stod 1%nat)
      (PrintStatement true
         [Literal (TVDouble (of_int 1)); Literal (TVString "b"); Literal (TVBool true)]
         EmptyString) Interp.new = (Ok tt, Interp.new, evs) /\
    stdout_of evs = "1 b true" +:+ endl.
Proof.
  apply (print_separates_arguments Std.stoi Std.stod 1%nat true _
           [([], VInteger 1); ([], VString "b"); ([], VBoolean true)]).
  repeat (eapply EvaluatedArgs_cons; [reflexivity |]).
  apply EvaluatedArgs_nil.
Defined.


(* ===================================================================== *)
(** * Scopes: what a block leaves alone *)
(* ===================================================================== *)

Local Open Scope nat_scope.

(** ** The heap of environments *)

Section HeapFacts.

Variable g : bool.
Variable x : string.
Variable b : nat.

Lemma ext_refl (h : list Environment) : ext g x b h h.
Proof.
  split; [lia |]. intros a e He. exists e. repeat split; auto.
Qed.

Lemma ext_trans (h1 h2 h3 : list Environment) :
  ext g x b h1 h2 -> ext g x b h2 h3 -> ext g x b h1 h3.
Proof.
  intros [Hl1 H1] [Hl2 H2]. split; [lia |].
  intros a e He.
  destruct (H1 a e He) as (e2 & He2 & Henc2 & Hsome2 & Hval2).
  destruct (H2 a e2 He2) as (e3 & He3 & Henc3 & Hsome3 & Hval3).
  exists e3. repeat split.
  - exact He3.
  - congruence.
  - auto.
  - intros Hg Hab. rewrite (Hval3 Hg Hab). auto.
Qed.

Lemma above_lt (h : list Environment) (p : nat) :
  above h b p -> p < List.length h.
Proof.
  intros H. destruct H as [Hb | p q e He _ _]; [exact Hb |].
  apply lookup_lt_Some in He. exact He.
Qed.

Lemma above_base_lt (h : list Environment) (p : nat) :
  above h b p -> b < List.length h.
Proof. induction 1; auto. Qed.

Lemma above_ge (h : list Environment) (p : nat) :
  wf_heap h -> above h b p -> b <= p.
Proof.
  intros Hwf H. induction H as [Hb | p q e He Henc _ IH]; [lia |].
  specialize (Hwf p e q He Henc). lia.
Qed.

Lemma above_ext (h h' : list Environment) (p : nat) :
  ext g x b h h' -> above h b p -> above h' b p.
Proof.
  intros [Hlen Hold] H. induction H as [Hb | p q e He Henc _ IH].
  - apply above_here. lia.
  - destruct (Hold p e He) as (e' & He' & Henc' & _).
    eapply above_enclosing; [exact He' | rewrite Henc'; exact Henc | exact IH].
Qed.

Lemma Forall_above_ext (h h' : list Environment) (ps : list nat) :
  ext g x b h h' -> Forall (above h b) ps -> Forall (above h' b) ps.
Proof.
  intros Hext HF. eapply Forall_impl; [exact HF |].
  intros p. apply above_ext. exact Hext.
Qed.

Lemma binds_ext (h h' : list Environment) :
  ext g x b h h' -> binds h b x -> binds h' b x.
Proof.
  intros [_ Hold] (e & He & Hsome).
  destruct (Hold b e He) as (e' & He' & _ & Hs & _).
  exists e'. split; auto.
Qed.

(** The walk for [x] from an environment above [b] stops at [b] or
    before. *)
Lemma find_scope_above (h : list Environment) (p : nat) :
  wf_heap h -> binds h b x -> above h b p ->
  forall n : nat, p < n ->
  exists a : nat, Interp.find_scope n h p x = Some a /\ b <= a.
Proof.
  intros Hwf (eb & Heb & Hsome) H.
  induction H as [Hb | p q e He Henc Hq IH]; intros n Hn.
  - destruct n as [| n]; [lia |]. exists b. simpl. rewrite Heb.
    destruct Hsome as [v Hv]. rewrite Hv. split; [reflexivity | lia].
  - destruct n as [| n]; [lia |]. simpl. rewrite He.
    destruct (values_ e !! x) as [v |] eqn:Hv.
    + exists p. split; [reflexivity |].
      eapply above_ge; [exact Hwf |]. eapply above_enclosing; eauto.
    + rewrite Henc. apply IH. specialize (Hwf p e q He Henc). lia.
Qed.

Lemma find_scope_lookup (h : list Environment) (name : string) :
  forall (n p a : nat),
    Interp.find_scope n h p name = Some a ->
    exists e, h !! a = Some e /\ is_Some (values_ e !! name).
Proof.
  induction n as [| n IH]; intros p a H; [discriminate |].
  simpl in H. destruct (h !! p) as [e |] eqn:He; [| discriminate].
  destruct (values_ e !! name) as [v |] eqn:Hv.
  - injection H as <-. exists e. split; [exact He | eauto].
  - destruct (enclosing_ e) as [q |]; [| discriminate]. eapply IH. exact H.
Qed.

(** Writing [name] in the environment at [a]. *)
Lemma store_var_ext (h : list Environment) (a : nat) (name : string) (v : Value) :
  (g = true -> name = x -> b <= a) ->
  ext g x b h (Interp.store_var h a name v).
Proof.
  intros Hguard. unfold Interp.store_var.
  destruct (h !! a) as [ea |] eqn:Hea; [| apply ext_refl].
  split; [rewrite length_insert; lia |].
  intros a' e He.
  destruct (decide (a = a')) as [<- | Hne].
  - rewrite list_lookup_insert_eq by (eapply lookup_lt_Some; eauto).
    eexists. split; [reflexivity |]. cbn.
    assert (e = ea) by congruence. subst e.
    split; [reflexivity |]. split.
    + intros Hs. destruct (decide (name = x)) as [-> | Hn].
      * rewrite lookup_insert_eq. eauto.
      * rewrite lookup_insert_ne by exact Hn. exact Hs.
    + intros Hg Hlt. destruct (decide (name = x)) as [-> | Hn].
      * specialize (Hguard Hg eq_refl). lia.
      * rewrite lookup_insert_ne by exact Hn. reflexivity.
  - rewrite list_lookup_insert_ne by exact Hne.
    exists e. repeat split; auto.
Qed.

Lemma store_var_wf (h : list Environment) (a : nat) (name : string) (v : Value) :
  wf_heap h -> wf_heap (Interp.store_var h a name v).
Proof.
  intros Hwf. unfold Interp.store_var.
  destruct (h !! a) as [ea |] eqn:Hea; [| exact Hwf].
  intros a' e p He Henc.
  destruct (decide (a = a')) as [<- | Hne].
  - rewrite list_lookup_insert_eq in He by (eapply lookup_lt_Some; eauto).
    injection He as <-. cbn in Henc. eapply Hwf; eauto.
  - rewrite list_lookup_insert_ne in He by exact Hne. eapply Hwf; eauto.
Qed.

Lemma alloc_ext (h : list Environment) (e : Environment) :
  ext g x b h (h ++ [e]).
Proof.
  split; [rewrite length_app; simpl; lia |].
  intros a e0 He0. exists e0.
  rewrite lookup_app_l by (eapply lookup_lt_Some; eauto).
  repeat split; auto.
Qed.

Lemma alloc_wf (h : list Environment) (cur : nat) :
  wf_heap h -> cur < List.length h ->
  wf_heap (h ++ [mkEnvironment ∅ (Some cur)]).
Proof.
  intros Hwf Hcur a e p He Henc.
  destruct (decide (a < List.length h)) as [Hlt | Hge].
  - rewrite lookup_app_l in He by exact Hlt. eapply Hwf; eauto.
  - rewrite lookup_app_r in He by lia.
    destruct (a - List.length h) as [| k] eqn:Hk; [| destruct k; discriminate].
    injection He as <-. cbn in Henc. injection Henc as <-. lia.
Qed.

Lemma alloc_above (h : list Environment) (cur : nat) (e : Environment) :
  above h b cur -> enclosing_ e = Some cur ->
  above (h ++ [e]) b (List.length h).
Proof.
  intros Hcur Henc.
  eapply above_enclosing.
  - rewrite lookup_app_r by lia. rewrite Nat.sub_diag. reflexivity.
  - exact Henc.
  - eapply above_ext; [apply alloc_ext | exact Hcur].
Qed.

End HeapFacts.

(** ** Rules for the computations of the interpreter *)

Section PresRules.

Variable g : bool.
Variable x : string.
Variable b : nat.

Abbreviation pres' := (pres g x b).

Lemma pres_pure {A} (ps : list nat) (m : Interp.M A) :
  (forall st, exists r o, m st = (r, st, o)) -> pres' ps m.
Proof.
  intros Hpure st st' r o HInv _ Hrun.
  destruct (Hpure st) as (r' & o' & Hm). rewrite Hm in Hrun.
  injection Hrun as <- <- <-. split; [exact HInv | apply ext_refl].
Qed.

Lemma pres_ret {A} ps (a : A) : pres' ps (Interp.ret a).
Proof. apply pres_pure. intros st. eexists _, _. reflexivity. Qed.

Lemma pres_throw {A} ps (e : Exception) : pres' ps (@Interp.throw A e).
Proof. apply pres_pure. intros st. eexists _, _. reflexivity. Qed.

Lemma pres_crash {A} ps : pres' ps (@Interp.crash A).
Proof. apply pres_pure. intros st. eexists _, _. reflexivity. Qed.

Lemma pres_out_of_fuel {A} ps : pres' ps (@Interp.out_of_fuel A).
Proof. apply pres_pure. intros st. eexists _, _. reflexivity. Qed.

Lemma pres_defined {A} ps (o : option A) : pres' ps (Interp.defined o).
Proof. destruct o; [apply pres_ret | apply pres_crash]. Qed.

Lemma pres_cout ps s : pres' ps (Interp.cout s).
Proof. apply pres_pure. intros st. eexists _, _. reflexivity. Qed.

Lemma pres_cerr ps s : pres' ps (Interp.cerr s).
Proof. apply pres_pure. intros st. eexists _, _. reflexivity. Qed.

Lemma pres_getEnvironment ps : pres' ps Interp.getEnvironment.
Proof. apply pres_pure. intros st. eexists _, _. reflexivity. Qed.

Lemma pres_get ps env name : pres' ps (Interp.get env name).
Proof.
  apply pres_pure. intros st. unfold Interp.get.
  destruct (Interp.lookup_var _ _ _); eexists _, _; reflexivity.
Qed.

Lemma pres_weaken {A} (ps ps' : list nat) (m : Interp.M A) :
  incl ps ps' -> pres' ps m -> pres' ps' m.
Proof.
  intros Hincl Hm st st' r o HInv Hps Hrun.
  eapply Hm; [exact HInv | | exact Hrun].
  apply Forall_forall. intros p Hp.
  rewrite Forall_forall in Hps. apply Hps.
  apply list_elem_of_In. apply Hincl. apply list_elem_of_In. exact Hp.
Qed.

Lemma Forall_above_In (h : list Environment) (ps : list nat) (p : nat) :
  Forall (above h b) ps -> In p ps -> above h b p.
Proof.
  intros HF Hin. rewrite Forall_forall in HF. apply HF.
  apply list_elem_of_In. exact Hin.
Qed.

Lemma pres_setEnvironment ps p : In p ps -> pres' ps (Interp.setEnvironment p).
Proof.
  intros Hin st st' r o (Hwf & Habove & Hbinds) Hps Hrun.
  injection Hrun as <- <- <-. split; [| apply ext_refl].
  split; [exact Hwf |]. split; [| exact Hbinds].
  cbn. eapply Forall_above_In; eauto.
Qed.

Lemma Inv_store (st : Interpreter) (a : nat) (name : string) (v : Value) :
  Inv g x b st ->
  (g = true -> name = x -> b <= a) ->
  Inv g x b (mkInterpreter (Interp.store_var (heap st) a name v) (environment_ st)
               (globals_ st)) /\
  ext g x b (heap st) (Interp.store_var (heap st) a name v).
Proof.
  intros (Hwf & Habove & Hbinds) Hguard.
  pose proof (store_var_ext g x b (heap st) a name v Hguard) as Hext.
  split; [| exact Hext].
  split; [apply store_var_wf; exact Hwf |].
  split; cbn.
  - eapply above_ext; eauto.
  - intros Hg. eapply binds_ext; eauto.
Qed.

Lemma pres_define ps env name v : In env ps -> pres' ps (Interp.define env name v).
Proof.
  intros Hin st st' r o HInv Hps Hrun.
  injection Hrun as <- <- <-.
  apply Inv_store; [exact HInv |].
  intros _ _. destruct HInv as (Hwf & _ & _).
  eapply above_ge; [exact Hwf |]. eapply Forall_above_In; eauto.
Qed.

Lemma pres_assign ps env name v : In env ps -> pres' ps (Interp.assign env name v).
Proof.
  intros Hin st st' r o HInv Hps Hrun.
  unfold Interp.assign in Hrun.
  destruct (Interp.find_scope _ _ _ _) as [a |] eqn:Hfind.
  - injection Hrun as <- <- <-.
    apply Inv_store; [exact HInv |].
    intros Hg ->. destruct HInv as (Hwf & _ & Hbinds).
    assert (Habove : above (heap st) b env) by (eapply Forall_above_In; eauto).
    destruct (find_scope_above x b (heap st) env Hwf (Hbinds Hg) Habove
                (List.length (heap st))) as (a' & Ha' & Hle).
    { eapply above_lt; eauto. }
    congruence.
  - injection Hrun as <- <- <-. split; [exact HInv | apply ext_refl].
Qed.

Lemma pres_make_shared ps cur :
  In cur ps -> pres' ps (Interp.make_shared_Environment (Some cur)).
Proof.
  intros Hin st st' r o (Hwf & Habove & Hbinds) Hps Hrun.
  injection Hrun as <- <- <-.
  pose proof (alloc_ext g x b (heap st) (mkEnvironment ∅ (Some cur))) as Hext.
  split; [| exact Hext].
  split; cbn.
  - apply alloc_wf; [exact Hwf |].
    eapply above_lt. eapply Forall_above_In; eauto.
  - split.
    + eapply above_ext; eauto.
    + intros Hg. eapply binds_ext; eauto.
Qed.

Lemma pres_bind {A B} ps (m : Interp.M A) (k : A -> Interp.M B) :
  pres' ps m -> (forall a, pres' ps (k a)) -> pres' ps (Interp.bind m k).
Proof.
  intros Hm Hk st st' r o HInv Hps Hrun.
  unfold Interp.bind in Hrun.
  destruct (m st) as [[r1 st1] o1] eqn:Hm1.
  destruct (Hm _ _ _ _ HInv Hps Hm1) as [HInv1 Hext1].
  destruct r1 as [a | e | |]; try (injection Hrun as <- <- <-; auto).
  destruct (k a st1) as [[r2 st2] o2] eqn:Hk2.
  injection Hrun as <- <- <-.
  destruct (Hk a _ _ _ _ HInv1 (Forall_above_ext g x b _ _ _ Hext1 Hps) Hk2)
    as [HInv2 Hext2].
  split; [exact HInv2 | eapply ext_trans; eauto].
Qed.

Lemma pres_bind_getEnvironment {B} ps (k : nat -> Interp.M B) :
  (forall a, pres' (a :: ps) (k a)) -> pres' ps (Interp.bind Interp.getEnvironment k).
Proof.
  intros Hk st st' r o HInv Hps Hrun.
  unfold Interp.bind, Interp.getEnvironment in Hrun.
  destruct (k (environment_ st) st) as [[r2 st2] o2] eqn:Hk2.
  injection Hrun as <- <- <-.
  eapply Hk; [exact HInv | | exact Hk2].
  constructor; [| exact Hps]. apply HInv.
Qed.

Lemma pres_bind_make_shared {B} ps cur (k : nat -> Interp.M B) :
  In cur ps ->
  (forall a, pres' (a :: ps) (k a)) ->
  pres' ps (Interp.bind (Interp.make_shared_Environment (Some cur)) k).
Proof.
  intros Hin Hk st st' r o HInv Hps Hrun.
  unfold Interp.bind in Hrun.
  destruct (Interp.make_shared_Environment (Some cur) st) as [[r1 st1] o1] eqn:Hm1.
  destruct (pres_make_shared ps cur Hin _ _ _ _ HInv Hps Hm1) as [HInv1 Hext1].
  unfold Interp.make_shared_Environment in Hm1. injection Hm1 as <- <- <-.
  destruct (k _ _) as [[r2 st2] o2] eqn:Hk2.
  injection Hrun as <- <- <-.
  assert (Hps1 : Forall (above (heap st ++ [mkEnvironment ∅ (Some cur)]) b)
                   (List.length (heap st) :: ps)).
  { constructor.
    - apply (alloc_above g x b (heap st) cur); [| reflexivity].
      eapply Forall_above_In; eauto.
    - eapply Forall_above_ext; eauto. }
  destruct (Hk _ _ _ _ _ HInv1 Hps1 Hk2) as [HInv2 Hext2].
  split; [exact HInv2 | eapply ext_trans; eauto].
Qed.

Lemma pres_try_catch {A} ps (m : Interp.M A) (h : Exception -> Interp.M A) :
  pres' ps m -> (forall e, pres' ps (h e)) -> pres' ps (Interp.try_catch m h).
Proof.
  intros Hm Hh st st' r o HInv Hps Hrun.
  unfold Interp.try_catch in Hrun.
  destruct (m st) as [[r1 st1] o1] eqn:Hm1.
  destruct (Hm _ _ _ _ HInv Hps Hm1) as [HInv1 Hext1].
  destruct r1 as [a | e | |]; try (injection Hrun as <- <- <-; auto).
  destruct (h e st1) as [[r2 st2] o2] eqn:Hh2.
  cbn in Hrun. injection Hrun as <- <- <-.
  destruct (Hh e _ _ _ _ HInv1 (Forall_above_ext g x b _ _ _ Hext1 Hps) Hh2)
    as [HInv2 Hext2].
  split; [exact HInv2 | eapply ext_trans; eauto].
Qed.

End PresRules.

(** ** One level of the interpreter keeps the invariant *)

Ltac in_tac := solve [simpl; auto 10].

Section StepPres.

Variable g : bool.
Variable x : string.
Variable b : nat.
Variable stoi : string -> option (Z * nat).
Variable stod : string -> option double.
Variable rec : Interp.Rec.
Hypothesis Hrec : RecPres g x b rec.

Lemma pres_rec_eval ps e : pres g x b ps (Interp.r_evaluateExpression rec e).
Proof.
  eapply pres_weaken; [| apply Hrec]. intros p [].
Qed.

Lemma pres_rec_block ps stmts env :
  In env ps -> pres g x b ps (Interp.r_executeBlock rec stmts env).
Proof.
  intros Hin. eapply pres_weaken; [| apply Hrec].
  intros p [<- | []]. exact Hin.
Qed.

Lemma pres_rec_while ps c i body : pres g x b ps (Interp.r_while rec c i body).
Proof.
  eapply pres_weaken; [| apply Hrec]. intros p [].
Qed.

Ltac pres_step :=
  match goal with
  | |- pres _ _ _ _ (Interp.bind Interp.getEnvironment _) =>
      apply pres_bind_getEnvironment; intros
  | |- pres _ _ _ _ (Interp.bind (Interp.make_shared_Environment _) _) =>
      apply pres_bind_make_shared; [in_tac | intros]
  | |- pres _ _ _ _ (Interp.bind _ _) => apply pres_bind; [| intros]
  | |- pres _ _ _ _ (Interp.try_catch _ _) => apply pres_try_catch; [| intros]
  | |- pres _ _ _ _ (Interp.ret _) => apply pres_ret
  | |- pres _ _ _ _ (Interp.throw _) => apply pres_throw
  | |- pres _ _ _ _ Interp.crash => apply pres_crash
  | |- pres _ _ _ _ Interp.out_of_fuel => apply pres_out_of_fuel
  | |- pres _ _ _ _ (Interp.defined _) => apply pres_defined
  | |- pres _ _ _ _ (Interp.cout _) => apply pres_cout
  | |- pres _ _ _ _ (Interp.cerr _) => apply pres_cerr
  | |- pres _ _ _ _ Interp.getEnvironment => apply pres_getEnvironment
  | |- pres _ _ _ _ (Interp.get _ _) => apply pres_get
  | |- pres _ _ _ _ (Interp.setEnvironment _) => apply pres_setEnvironment; in_tac
  | |- pres _ _ _ _ (Interp.define _ _ _) => apply pres_define; in_tac
  | |- pres _ _ _ _ (Interp.assign _ _ _) => apply pres_assign; in_tac
  | |- pres _ _ _ _ (Interp.r_evaluateExpression rec _) => apply pres_rec_eval
  | |- pres _ _ _ _ (Interp.r_executeBlock rec _ _) => apply pres_rec_block; in_tac
  | |- pres _ _ _ _ (Interp.r_while rec _ _ _) => apply pres_rec_while
  | |- pres _ _ _ _ (match ?v with _ => _ end) => destruct v
  | |- pres _ _ _ _ (if ?c then _ else _) => destruct c
  | |- pres _ _ _ _ (let _ := _ in _) => cbv zeta
  end.

Ltac pres_auto := repeat pres_step.

Lemma pres_evaluateAll ps es : pres g x b ps (Interp.evaluateAll rec es).
Proof.
  induction es as [| e es IH]; cbn [Interp.evaluateAll]; pres_auto. exact IH.
Qed.

Lemma pres_defineAll ps env names values :
  In env ps -> pres g x b ps (Interp.defineAll env names values).
Proof.
  intros Hin. revert values.
  induction names as [| n names IH]; intros [| v values]; cbn [Interp.defineAll];
    pres_auto. apply IH.
Qed.

Lemma pres_call ps callee arguments :
  pres g x b ps (Interp.call rec callee arguments).
Proof.
  unfold Interp.call. destruct callee; pres_auto.
  apply pres_defineAll. in_tac.
Qed.

Lemma pres_evaluateExpression ps e :
  pres g x b ps (Interp.evaluateExpression stoi stod rec e).
Proof.
  destruct e; cbn [Interp.evaluateExpression].
  - unfold Interp.evaluateBinaryExpression, Interp.evaluateAssign.
    destruct op; pres_auto.
  - unfold Interp.evaluateUnaryExpression. pres_auto.
  - unfold Interp.evaluateIdentifier. pres_auto.
  - unfold Interp.evaluateLiteral. pres_auto.
  - unfold Interp.evaluateCallExpression.
    destruct e; pres_auto; try apply pres_evaluateAll; try apply pres_call.
  - unfold Interp.evaluateArrayExpression. pres_auto. apply pres_evaluateAll.
  - unfold Interp.evaluateArrayAccessExpression. pres_auto.
  - unfold Interp.evaluatePropertyAccessExpression. pres_auto.
Qed.

Lemma pres_whileLoop ps c i body :
  pres g x b ps (Interp.whileLoop rec c i body).
Proof. unfold Interp.whileLoop. pres_auto. Qed.

Lemma pres_printArgs ps args : forall i, pres g x b ps (Interp.printArgs rec i args).
Proof.
  induction args as [| a args IH]; intros i; cbn [Interp.printArgs]; pres_auto.
  apply IH.
Qed.

Lemma pres_executeStatement ps stmt :
  pres g x b ps (Interp.executeStatement rec stmt).
Proof.
  destruct stmt; cbn [Interp.executeStatement].
  - pres_auto.
  - unfold Interp.executeVariableDeclaration. pres_auto.
  - unfold Interp.executeFunctionDeclaration. pres_auto.
  - unfold Interp.executeLoopStatement, Interp.executeVariableDeclaration,
      Interp.executeExpressionStatement.
    pres_auto; apply pres_whileLoop.
  - unfold Interp.executeIfStatement. pres_auto.
  - unfold Interp.executePrintStatement. pres_auto; apply pres_printArgs.
  - unfold Interp.executeReturnStatement. pres_auto.
  - unfold Interp.executeBreakStatement. pres_auto.
  - unfold Interp.executeExpressionStatement. pres_auto.
Qed.

Lemma pres_executeStatements ps stmts :
  pres g x b ps (Interp.executeStatements rec stmts).
Proof.
  induction stmts as [| s stmts IH]; cbn [Interp.executeStatements]; pres_auto.
  - apply pres_executeStatement.
  - exact IH.
Qed.

Lemma pres_executeBlock ps stmts env :
  In env ps -> pres g x b ps (Interp.executeBlock rec stmts env).
Proof.
  intros Hin. unfold Interp.executeBlock. pres_auto.
  apply pres_executeStatements.
Qed.

Lemma RecPres_step : RecPres g x b (Interp.step stoi stod rec).
Proof.
  split; [| split]; cbn [Interp.step Interp.r_evaluateExpression Interp.r_executeBlock
                           Interp.r_while].
  - intros e. apply pres_evaluateExpression.
  - intros stmts env. apply pres_executeBlock. in_tac.
  - intros c i body. apply pres_whileLoop.
Qed.

End StepPres.

Lemma RecPres_bottom g x b : RecPres g x b Interp.bottom.
Proof. split; [| split]; intros; apply pres_out_of_fuel. Qed.

Lemma RecPres_rec_at g x b stoi stod (fuel : nat) :
  RecPres g x b (Interp.rec_at stoi stod fuel).
Proof.
  induction fuel as [| f IH]; cbn [Interp.rec_at].
  - apply RecPres_bottom.
  - apply RecPres_step. exact IH.
Qed.

(** ** The current environment is put back *)

Section EndsRules.

Lemma keeps_ends {A} (m : Interp.M A) (p : nat) : keeps m -> ends p m p.
Proof. intros Hk st st' a o Hp Hrun. rewrite (Hk _ _ _ _ Hrun). exact Hp. Qed.

Lemma ends_keeps {A} (m : Interp.M A) : (forall p, ends p m p) -> keeps m.
Proof. intros H st st' a o Hrun. eapply H; [reflexivity | exact Hrun]. Qed.

Lemma restores_keeps {A} (m : Interp.M A) : restores m -> keeps m.
Proof. intros H st st' a o Hrun. eapply H; [exact Hrun | left; eauto]. Qed.

Lemma ends_same {A} (m : Interp.M A) (p : nat) :
  (forall st r st' o, m st = (r, st', o) -> environment_ st' = environment_ st) ->
  ends p m p.
Proof. intros H st st' a o Hp Hrun. rewrite (H _ _ _ _ Hrun). exact Hp. Qed.

Lemma ends_never {A} (m : Interp.M A) (p q : nat) :
  (forall st a st' o, m st <> (Ok a, st', o)) -> ends p m q.
Proof. intros H st st' a o _ Hrun. destruct (H _ _ _ _ Hrun). Qed.

Lemma ends_ret {A} (a : A) p : ends p (Interp.ret a) p.
Proof. apply ends_same. intros st r st' o H. injection H as <- <- <-. reflexivity. Qed.

Lemma ends_throw {A} (e : Exception) p q : ends p (@Interp.throw A e) q.
Proof. apply ends_never. intros st a st' o H. discriminate H. Qed.

Lemma ends_crash {A} p q : ends p (@Interp.crash A) q.
Proof. apply ends_never. intros st a st' o H. discriminate H. Qed.

Lemma ends_out_of_fuel {A} p q : ends p (@Interp.out_of_fuel A) q.
Proof. apply ends_never. intros st a st' o H. discriminate H. Qed.

Lemma ends_defined {A} (o : option A) p : ends p (Interp.defined o) p.
Proof. destruct o; [apply ends_ret | apply ends_crash]. Qed.

Lemma ends_cout s p : ends p (Interp.cout s) p.
Proof. apply ends_same. intros st r st' o H. injection H as <- <- <-. reflexivity. Qed.

Lemma ends_cerr s p : ends p (Interp.cerr s) p.
Proof. apply ends_same. intros st r st' o H. injection H as <- <- <-. reflexivity. Qed.

Lemma ends_get env name p : ends p (Interp.get env name) p.
Proof.
  apply ends_same. intros st r st' o H. unfold Interp.get in H.
  destruct (Interp.lookup_var _ _ _); injection H as <- <- <-; reflexivity.
Qed.

Lemma ends_define env name v p : ends p (Interp.define env name v) p.
Proof. apply ends_same. intros st r st' o H. injection H as <- <- <-. reflexivity. Qed.

Lemma ends_assign env name v p : ends p (Interp.assign env name v) p.
Proof.
  apply ends_same. intros st r st' o H. unfold Interp.assign in H.
  destruct (Interp.find_scope _ _ _ _); injection H as <- <- <-; reflexivity.
Qed.

Lemma ends_make_shared enc p : ends p (Interp.make_shared_Environment enc) p.
Proof. apply ends_same. intros st r st' o H. injection H as <- <- <-. reflexivity. Qed.

Lemma ends_setEnvironment p q : ends p (Interp.setEnvironment q) q.
Proof. intros st st' a o _ H. injection H as <- <- <-. reflexivity. Qed.

Lemma ends_bind {A B} (m : Interp.M A) (k : A -> Interp.M B) (p q r : nat) :
  ends p m q -> (forall a, ends q (k a) r) -> ends p (Interp.bind m k) r.
Proof.
  intros Hm Hk st st' c o Hp Hrun. unfold Interp.bind in Hrun.
  destruct (m st) as [[[a | e | |] st1] o1] eqn:Hm1; try discriminate Hrun.
  destruct (k a st1) as [[r2 st2] o2] eqn:Hk2.
  injection Hrun as -> <- <-.
  eapply Hk; [| exact Hk2]. eapply Hm; eauto.
Qed.

Lemma ends_bind_getEnvironment {B} (k : nat -> Interp.M B) (p r : nat) :
  ends p (k p) r -> ends p (Interp.bind Interp.getEnvironment k) r.
Proof.
  intros Hk st st' c o Hp Hrun. unfold Interp.bind, Interp.getEnvironment in Hrun.
  destruct (k (environment_ st) st) as [[r2 st2] o2] eqn:Hk2.
  injection Hrun as -> <- <-. rewrite Hp in Hk2. eapply Hk; eauto.
Qed.

(** Handlers that end at [r] wherever they start. *)
Lemma ends_try_catch {A} (m : Interp.M A) (h : Exception -> Interp.M A) (p r : nat) :
  ends p m r -> (forall e q, ends q (h e) r) -> ends p (Interp.try_catch m h) r.
Proof.
  intros Hm Hh st st' c o Hp Hrun. unfold Interp.try_catch in Hrun.
  destruct (m st) as [[[a | e | |] st1] o1] eqn:Hm1; try discriminate Hrun.
  - injection Hrun as <- <- <-. eapply Hm; eauto.
  - destruct (h e st1) as [[r2 st2] o2] eqn:Hh2. cbn in Hrun.
    injection Hrun as -> <- <-. eapply Hh; [reflexivity | exact Hh2].
Qed.

(** A body that restores [environment_] also when it throws. *)
Lemma ends_try_catch_restores {A} (m : Interp.M A) (h : Exception -> Interp.M A)
    (p : nat) :
  restores m -> (forall e, ends p (h e) p) -> ends p (Interp.try_catch m h) p.
Proof.
  intros Hm Hh st st' c o Hp Hrun. unfold Interp.try_catch in Hrun.
  destruct (m st) as [[[a | e | |] st1] o1] eqn:Hm1; try discriminate Hrun.
  - injection Hrun as <- <- <-. rewrite (Hm _ _ _ _ Hm1); [exact Hp | left; eauto].
  - destruct (h e st1) as [[r2 st2] o2] eqn:Hh2. cbn in Hrun.
    injection Hrun as -> <- <-. eapply Hh; [| exact Hh2].
    rewrite (Hm _ _ _ _ Hm1); [exact Hp | right; eauto].
Qed.

Lemma restores_bind_ret {A B} (m : Interp.M A) (c : B) :
  restores m -> restores (Interp.bind m (fun _ => Interp.ret c)).
Proof.
  intros Hm st st' r o Hrun Hr. unfold Interp.bind in Hrun.
  destruct (m st) as [[[a | e | |] st1] o1] eqn:Hm1.
  - cbn in Hrun. injection Hrun as <- <- <-. eapply Hm; [exact Hm1 | left; eauto].
  - injection Hrun as <- <- <-. eapply Hm; [exact Hm1 | right; eauto].
  - injection Hrun as <- <- <-. destruct Hr as [[a Ha] | [e He]]; discriminate.
  - injection Hrun as <- <- <-. destruct Hr as [[a Ha] | [e He]]; discriminate.
Qed.

(** [executeBlock] puts [environment_] back on every exit path, whatever
    the statements do. *)
Lemma restores_executeBlock (rec : Interp.Rec) (stmts : list Statement) (env : nat) :
  restores (Interp.executeBlock rec stmts env).
Proof.
  intros st st' r o Hrun Hr.
  unfold Interp.executeBlock, Interp.bind at 1, Interp.getEnvironment in Hrun.
  unfold Interp.bind at 1, Interp.try_catch in Hrun.
  destruct (Interp.bind (Interp.setEnvironment env) _ st) as [[[[] | e | |] st1] o1].
  - cbn in Hrun. injection Hrun as <- <- <-. reflexivity.
  - destruct e; cbn in Hrun; injection Hrun as <- <- <-; reflexivity.
  - injection Hrun as <- <- <-. destruct Hr as [[a Ha] | [e He]]; discriminate.
  - injection Hrun as <- <- <-. destruct Hr as [[a Ha] | [e He]]; discriminate.
Qed.

End EndsRules.

Section StepKeeps.

Variable stoi : string -> option (Z * nat).
Variable stod : string -> option double.
Variable rec : Interp.Rec.
Hypothesis Hrec : RecKeeps rec.

Lemma ends_rec_eval p e : ends p (Interp.r_evaluateExpression rec e) p.
Proof. apply keeps_ends. apply Hrec. Qed.

Lemma ends_rec_block p stmts env : ends p (Interp.r_executeBlock rec stmts env) p.
Proof. apply keeps_ends. apply restores_keeps. apply Hrec. Qed.

Lemma ends_rec_while p c i body : ends p (Interp.r_while rec c i body) p.
Proof. apply keeps_ends. apply Hrec. Qed.

Ltac ends_step :=
  match goal with
  | |- ends _ (Interp.bind Interp.getEnvironment _) _ =>
      apply ends_bind_getEnvironment
  | |- ends _ (Interp.bind _ _) _ => eapply ends_bind; [| intros]
  | |- ends _ (Interp.ret _) _ => apply ends_ret
  | |- ends _ (Interp.throw _) _ => apply ends_throw
  | |- ends _ Interp.crash _ => apply ends_crash
  | |- ends _ Interp.out_of_fuel _ => apply ends_out_of_fuel
  | |- ends _ (Interp.defined _) _ => apply ends_defined
  | |- ends _ (Interp.cout _) _ => apply ends_cout
  | |- ends _ (Interp.cerr _) _ => apply ends_cerr
  | |- ends _ (Interp.get _ _) _ => apply ends_get
  | |- ends _ (Interp.setEnvironment _) _ => apply ends_setEnvironment
  | |- ends _ (Interp.define _ _ _) _ => apply ends_define
  | |- ends _ (Interp.assign _ _ _) _ => apply ends_assign
  | |- ends _ (Interp.make_shared_Environment _) _ => apply ends_make_shared
  | |- ends _ (Interp.r_evaluateExpression rec _) _ => apply ends_rec_eval
  | |- ends _ (Interp.r_executeBlock rec _ _) _ => apply ends_rec_block
  | |- ends _ (Interp.r_while rec _ _ _) _ => apply ends_rec_while
  | |- ends _ (match ?v with _ => _ end) _ => destruct v
  | |- ends _ (if ?c then _ else _) _ => destruct c
  | |- ends _ (let _ := _ in _) _ => cbv zeta
  end.

Ltac ends_auto := repeat ends_step.

Lemma ends_evaluateAll p es : ends p (Interp.evaluateAll rec es) p.
Proof.
  induction es as [| e es IH]; cbn [Interp.evaluateAll]; ends_auto. exact IH.
Qed.

Lemma ends_defineAll p env names values :
  ends p (Interp.defineAll env names values) p.
Proof.
  revert values.
  induction names as [| n names IH]; intros [| v values]; cbn [Interp.defineAll];
    ends_auto. apply IH.
Qed.

Lemma ends_call p callee arguments : ends p (Interp.call rec callee arguments) p.
Proof.
  unfold Interp.call. destruct callee; ends_auto.
  - apply ends_defineAll.
  - apply ends_try_catch.
    + ends_auto.
    + intros e q. destruct e; ends_auto.
Qed.

Lemma ends_evaluateExpression p e :
  ends p (Interp.evaluateExpression stoi stod rec e) p.
Proof.
  destruct e; cbn [Interp.evaluateExpression].
  - unfold Interp.evaluateBinaryExpression, Interp.evaluateAssign.
    destruct op; ends_auto.
  - unfold Interp.evaluateUnaryExpression. ends_auto.
  - unfold Interp.evaluateIdentifier. ends_auto.
  - unfold Interp.evaluateLiteral. ends_auto.
  - unfold Interp.evaluateCallExpression.
    destruct e; ends_auto; try apply ends_evaluateAll; try apply ends_call.
  - unfold Interp.evaluateArrayExpression. ends_auto. apply ends_evaluateAll.
  - unfold Interp.evaluateArrayAccessExpression. ends_auto.
  - unfold Interp.evaluatePropertyAccessExpression. ends_auto.
Qed.

Lemma ends_whileLoop p c i body : ends p (Interp.whileLoop rec c i body) p.
Proof.
  unfold Interp.whileLoop. ends_auto.
  apply ends_try_catch_restores.
  - apply restores_bind_ret. apply Hrec.
  - intros e. destruct e; ends_auto.
Qed.

Lemma RecKeeps_step : RecKeeps (Interp.step stoi stod rec).
Proof.
  split; [| split]; cbn [Interp.step Interp.r_evaluateExpression Interp.r_executeBlock
                           Interp.r_while].
  - intros e. apply ends_keeps. intros p. apply ends_evaluateExpression.
  - intros stmts env. apply restores_executeBlock.
  - intros c i body. apply ends_keeps. intros p. apply ends_whileLoop.
Qed.

End StepKeeps.

Lemma RecKeeps_rec_at stoi stod (fuel : nat) : RecKeeps (Interp.rec_at stoi stod fuel).
Proof.
  induction fuel as [| f IH]; cbn [Interp.rec_at].
  - split; [| split]; intros.
    + intros st st' a o H. discriminate H.
    + intros st st' r o H Hr. injection H as <- <- <-.
      destruct Hr as [[a Ha] | [e He]]; discriminate.
    + intros st st' a o H. discriminate H.
  - apply RecKeeps_step. exact IH.
Qed.

(** ** Lookups that a run leaves alone *)

Section LookupFacts.

Variable x : string.

Lemma find_scope_le (h : list Environment) :
  wf_heap h ->
  forall (n p a : nat), Interp.find_scope n h p x = Some a -> a <= p.
Proof.
  intros Hwf. induction n as [| n IH]; intros p a H; [discriminate |].
  simpl in H. destruct (h !! p) as [e |] eqn:He; [| discriminate].
  destruct (values_ e !! x) as [v |].
  - injection H as <-. lia.
  - destruct (enclosing_ e) as [q |] eqn:Henc; [| discriminate].
    specialize (IH _ _ H). specialize (Hwf p e q He Henc). lia.
Qed.

Lemma find_scope_fuel (h : list Environment) :
  wf_heap h ->
  forall (n m p : nat), p < n -> p < m ->
    Interp.find_scope n h p x = Interp.find_scope m h p x.
Proof.
  intros Hwf. induction n as [| n IH]; intros m p Hn Hm; [lia |].
  destruct m as [| m]; [lia |]. simpl.
  destruct (h !! p) as [e |] eqn:He; [| reflexivity].
  destruct (values_ e !! x); [reflexivity |].
  destruct (enclosing_ e) as [q |] eqn:Henc; [| reflexivity].
  specialize (Hwf p e q He Henc). apply IH; lia.
Qed.

Lemma find_scope_agree (h h' : list Environment) :
  wf_heap h ->
  forall (n p : nat), p < List.length h -> agree_upto x p h h' ->
    Interp.find_scope n h' p x = Interp.find_scope n h p x.
Proof.
  intros Hwf. induction n as [| n IH]; intros p Hp Hag; [reflexivity |].
  simpl. destruct (lookup_lt_is_Some_2 h p Hp) as [e He].
  destruct (Hag p e (Nat.le_refl p) He) as (e' & He' & Henc & Hval).
  rewrite He, He', Hval, Henc.
  destruct (values_ e !! x); [reflexivity |].
  destruct (enclosing_ e) as [q |] eqn:Hq; [| reflexivity].
  specialize (Hwf p e q He Hq).
  apply IH; [lia |]. intros a ea Ha. apply Hag. lia.
Qed.

Lemma lookup_var_agree (h h' : list Environment) (p : nat) :
  wf_heap h -> p < List.length h -> List.length h <= List.length h' ->
  agree_upto x p h h' ->
  Interp.lookup_var h' p x = Interp.lookup_var h p x.
Proof.
  intros Hwf Hp Hlen Hag. unfold Interp.lookup_var.
  rewrite (find_scope_agree h h' Hwf _ p Hp Hag).
  rewrite (find_scope_fuel h Hwf (List.length h') (List.length h) p) by lia.
  destruct (Interp.find_scope (List.length h) h p x) as [a |] eqn:Hfind;
    [| reflexivity].
  pose proof (find_scope_le h Hwf _ _ _ Hfind) as Hle.
  destruct (find_scope_lookup h x _ _ _ Hfind) as (e & He & _).
  destruct (Hag a e Hle He) as (e' & He' & _ & Hval).
  rewrite He, He'. exact Hval.
Qed.

Lemma lookup_var_ext (b : nat) (h h' : list Environment) (p : nat) :
  wf_heap h -> ext true x b h h' -> p < b -> p < List.length h ->
  Interp.lookup_var h' p x = Interp.lookup_var h p x.
Proof.
  intros Hwf [Hlen Hold] Hpb Hp.
  apply lookup_var_agree; [exact Hwf | exact Hp | exact Hlen |].
  intros a e Ha He.
  destruct (Hold a e He) as (e' & He' & Henc & _ & Hval).
  exists e'. repeat split; [exact He' | exact Henc |].
  apply Hval; [reflexivity | lia].
Qed.

End LookupFacts.

(** ** Blocks *)

Section Block.

Variable stoi : string -> option (Z * nat).
Variable stod : string -> option double.

Abbreviation rec_at := (Interp.rec_at stoi stod).

(** The states that a program reaches from the initial one satisfy what
    the theorem on blocks asks of its starting state. *)
Lemma program_state_wf (fuel : nat) (program : list Statement)
    (st' : Interpreter) (r : Outcome unit) (o : list Event) :
  Interp.r_executeBlock (rec_at fuel) program 0 Interp.new = (r, st', o) ->
  wf_heap (heap st') /\ environment_ st' < List.length (heap st').
Proof.
  intros Hrun.
  assert (HInv : Inv false EmptyString 0 Interp.new).
  { split; [| split; [| discriminate]].
    - intros a e p He Henc. destruct a as [| a]; [| discriminate He].
      injection He as <-. discriminate Henc.
    - apply above_here. cbn. lia. }
  assert (Hps : Forall (above (heap Interp.new) 0) [0]).
  { constructor; [apply above_here; cbn; lia | constructor]. }
  destruct (proj1 (proj2 (RecPres_rec_at false EmptyString 0 stoi stod fuel))
              program 0 _ _ _ _ HInv Hps Hrun) as [(Hwf & Habove & _) _].
  split; [exact Hwf |]. eapply above_lt. exact Habove.
Qed.

Lemma executeStatement_block (rec : Interp.Rec) (stmts : list Statement)
    (st st' : Interpreter) (r : Outcome unit) (o : list Event) :
  Interp.executeStatement (Interp.step stoi stod rec) (BlockStatement stmts) st
    = (r, st', o) ->
  exists (r1 : Outcome unit) (st1 : Interpreter) (o1 : list Event),
    Interp.executeStatements rec stmts (enter_block st) = (r1, st1, o1) /\
    heap st' = heap st1 /\
    ((r = Ok tt \/ exists e, r = Throw e) -> environment_ st' = environment_ st).
Proof.
  intros Hrun.
  cbn [Interp.executeStatement] in Hrun.
  unfold Interp.bind at 1, Interp.getEnvironment in Hrun.
  unfold Interp.bind at 1, Interp.make_shared_Environment in Hrun.
  cbn [Interp.step Interp.r_executeBlock] in Hrun.
  destruct (Interp.executeBlock rec stmts _ _) as [[r0 st0] o0] eqn:Hblock.
  cbn in Hrun. injection Hrun as <- <- <-.
  assert (Henv : (r0 = Ok tt \/ exists e, r0 = Throw e) ->
                 environment_ st0 = environment_ st).
  { intros Hr. rewrite (restores_executeBlock _ _ _ _ _ _ _ Hblock); [reflexivity |].
    destruct Hr as [-> | [e ->]]; eauto. }
  unfold Interp.executeBlock, Interp.bind at 1, Interp.getEnvironment in Hblock.
  unfold Interp.bind at 1, Interp.try_catch in Hblock.
  unfold Interp.bind at 1, Interp.setEnvironment at 1 in Hblock.
  cbn [heap environment_ globals_] in Hblock.
  fold (enter_block st) in Hblock.
  destruct (Interp.executeStatements rec stmts (enter_block st))
    as [[r1 st1] o1] eqn:Hstmts.
  exists r1, st1, o1. split; [reflexivity |]. split; [| exact Henv].
  destruct r1 as [[] | e | |]; cbn in Hblock.
  - injection Hblock as <- <- <-. reflexivity.
  - destruct e; cbn in Hblock; injection Hblock as <- <- <-; reflexivity.
  - injection Hblock as <- <- <-. reflexivity.
  - injection Hblock as <- <- <-. reflexivity.
Qed.

(** C8 (amended).  A block [{ var x = V; ... }] runs in a fresh scope
    enclosed by the current one.  Provided the evaluation of [V] returns
    a value and leaves the outer binding of [x] as it is: the declaration
    binds [x] in the scope of the block and writes no other scope; when
    the block ends, whatever its other statements do and on whichever
    path (normal completion, break, return, or a runtime error), the
    lookup of [x] from the outer scope gives what it gave before the
    block, and the outer scope is current again. *)
Theorem block_declaration_shadows (fuel : nat) (x : string) (V : Expression)
    (rest : list Statement) (st st1 st' : Interpreter) (v : Value)
    (o1 o : list Event) (r : Outcome unit) :
  wf_heap (heap st) ->
  environment_ st < List.length (heap st) ->
  Interp.r_evaluateExpression (rec_at fuel) V (enter_block st) = (Ok v, st1, o1) ->
  Interp.lookup_var (heap st1) (environment_ st) x =
    Interp.lookup_var (heap st) (environment_ st) x ->
  Interp.executeStatement (rec_at (S fuel))
    (BlockStatement (VariableDeclaration x (Some V) :: rest)) st = (r, st', o) ->
  (exists st2 : Interpreter,
      Interp.executeStatement (rec_at fuel) (VariableDeclaration x (Some V))
        (enter_block st) = (Ok tt, st2, o1) /\
      Interp.lookup_var (heap st2) (environment_ st2) x = Some v /\
      forall a : nat, a <> List.length (heap st) -> heap st2 !! a = heap st1 !! a) /\
  Interp.lookup_var (heap st') (environment_ st) x =
    Interp.lookup_var (heap st) (environment_ st) x /\
  ((r = Ok tt \/ exists e : Exception, r = Throw e) ->
   environment_ st' = environment_ st).
Proof.
  intros Hwf Hcur HV Hquiet Hrun.
  set (b := List.length (heap st)) in *.
  set (cur := environment_ st) in *.
  destruct (executeStatement_block (rec_at fuel) _ _ _ _ _ Hrun) as (r1 & st1' & o1' & Hstmts & Hheap & Henv).
  (* the evaluation of V *)
  assert (HInv0 : Inv false x b (enter_block st)).
  { split; [apply alloc_wf; assumption |]. split; [| discriminate].
    apply above_here. cbn. rewrite length_app. cbn. lia. }
  destruct (proj1 (RecPres_rec_at false x b stoi stod fuel) V _ _ _ _ HInv0
              ltac:(constructor) HV) as [(Hwf1 & Habove1 & _) Hext1].
  pose proof (proj1 (RecKeeps_rec_at stoi stod fuel) V _ _ _ _ HV) as Henv1.
  cbn [enter_block environment_] in Henv1. fold b in Henv1.
  assert (Hb1 : b < List.length (heap st1)) by (eapply above_base_lt; eauto).
  destruct (lookup_lt_is_Some_2 _ _ Hb1) as [eb Heb].
  (* the declaration *)
  set (st2 := mkInterpreter (Interp.store_var (heap st1) b x v) b (globals_ st1)).
  assert (Hdecl : Interp.executeStatement (rec_at fuel) (VariableDeclaration x (Some V))
                    (enter_block st) = (Ok tt, st2, o1)).
  { cbn [Interp.executeStatement]. unfold Interp.executeVariableDeclaration.
    unfold Interp.bind at 1. rewrite HV.
    unfold Interp.bind, Interp.getEnvironment, Interp.define.
    rewrite Henv1, app_nil_r. reflexivity. }
  assert (Hst2b : heap st2 !! b =
                  Some (mkEnvironment (<[x := v]> (values_ eb)) (enclosing_ eb))).
  { cbn [st2 heap]. unfold Interp.store_var. rewrite Heb.
    apply list_lookup_insert_eq. exact Hb1. }
  assert (Hwf2 : wf_heap (heap st2)) by (apply store_var_wf; exact Hwf1).
  assert (HInv2 : Inv true x b st2).
  { split; [exact Hwf2 |]. split.
    - cbn [st2 environment_]. apply above_here.
      cbn [st2 heap]. unfold Interp.store_var. rewrite Heb, length_insert. exact Hb1.
    - intros _. eexists. split; [exact Hst2b |]. cbn. rewrite lookup_insert_eq. eauto. }
  assert (Hext12 : ext true x b (heap st1) (heap st2)).
  { apply store_var_ext. intros _ _. lia. }
  assert (Hcur_st : cur < List.length (heap st1)) by (unfold b in Hb1; lia).
  (* the rest of the block *)
  cbn [Interp.executeStatements] in Hstmts.
  unfold Interp.bind at 1 in Hstmts.
  cbn [Interp.rec_at] in Hstmts.
  change (Interp.executeStatement (Interp.rec_at stoi stod fuel)) with
    (Interp.executeStatement (rec_at fuel)) in Hstmts.
  rewrite Hdecl in Hstmts.
  destruct (Interp.executeStatements (rec_at fuel) rest st2) as [[r3 st3] o3] eqn:Hrest.
  injection Hstmts as <- <- <-.
  destruct (pres_executeStatements true x b (rec_at fuel)
              (RecPres_rec_at true x b stoi stod fuel) [] rest _ _ _ _ HInv2
              ltac:(constructor) Hrest) as [_ Hext23].
  split; [| split].
  - exists st2. split; [exact Hdecl |]. split.
    + cbn [st2 environment_].
      unfold Interp.lookup_var.
      assert (Hfind : Interp.find_scope (List.length (heap st2)) (heap st2) b x = Some b).
      { destruct (List.length (heap st2)) as [| n] eqn:Hn.
        - apply lookup_lt_Some in Hst2b. lia.
        - cbn [Interp.find_scope]. rewrite Hst2b. cbn [values_].
          rewrite lookup_insert_eq. reflexivity. }
      rewrite Hfind, Hst2b. cbn [values_]. apply lookup_insert_eq.
    + intros a Ha. cbn [st2 heap]. unfold Interp.store_var. rewrite Heb.
      apply list_lookup_insert_ne. fold b in Ha. congruence.
  - rewrite Hheap.
    rewrite (lookup_var_ext x b (heap st2) (heap st3) cur Hwf2 Hext23) by
      (try exact Hcur; cbn [st2 heap]; unfold Interp.store_var;
       rewrite Heb, length_insert; exact Hcur_st).
    rewrite (lookup_var_ext x b (heap st1) (heap st2) cur Hwf1 Hext12 Hcur Hcur_st).
    exact Hquiet.
  - exact Henv.
Qed.

End Block.

Lemma wf_heap_outer : wf_heap (heap outer_x_is_1).
Proof.
  intros a e p He Henc. destruct a as [| a]; [| discriminate He].
  injection He as <-. discriminate Henc.
Qed.

(** C8 (amended) at [{ var x = 5; x = 7; break; }], which leaves by a
    [Break]: the outer [x] still is 1 and the outer scope is current. *)
Lemma block_declaration_shadows_witness :
  fst (fst (run_statement shadowing_block outer_x_is_1)) = Throw Break /\
  Interp.lookup_var (heap (snd (fst (run_statement shadowing_block outer_x_is_1))))
    (environment_ outer_x_is_1) "x" = Some (VInteger 1) /\
  environment_ (snd (fst (run_statement shadowing_block outer_x_is_1))) =
    environment_ outer_x_is_1.
Proof.
  split; [vm_compute; reflexivity |].
  destruct (run_statement shadowing_block outer_x_is_1) as [[r st'] o] eqn:Hrun.
  assert (Hr : r = Throw Break).
  { apply (f_equal (fun t => fst (fst t))) in Hrun. vm_compute in Hrun.
    symmetry. exact Hrun. }
  destruct (block_declaration_shadows Std.stoi Std.stod 3 "x" (lit 5)
              [ExpressionStatement (BinaryExpression ASSIGN (Identifier "x") (lit 7));
               BreakStatement]
              outer_x_is_1
              (snd (fst (Interp.r_evaluateExpression (Interp.rec_at Std.stoi Std.stod 3)
                           (lit 5) (enter_block outer_x_is_1))))
              st' (VInteger 5) [] o r)
    as (_ & Hlookup & Henv).
  - exact wf_heap_outer.
  - cbn. lia.
  - vm_compute. reflexivity.
  - vm_compute. reflexivity.
  - exact Hrun.
  - cbn [fst snd]. split.
    + rewrite Hlookup. vm_compute. reflexivity.
    + rewrite Henv; [reflexivity |]. right. exists Break. exact Hr.
Defined.

(** C8 (counterexample).  The initializer of [{ var x = (x = 2); }] is
    evaluated before the block scope binds [x], so its assignment goes to
    the outer [x]: the block ends normally and the outer binding has
    changed from 1 to 2. *)
Lemma block_initializer_assigns_outer :
  Interp.lookup_var (heap outer_x_is_1) (environment_ outer_x_is_1) "x"
    = Some (VInteger 1) /\
  fst (fst (run_statement assigning_block outer_x_is_1)) = Ok tt /\
  Interp.lookup_var (heap (snd (fst (run_statement assigning_block outer_x_is_1))))
    (environment_ outer_x_is_1) "x" = Some (VInteger 2).
Proof. vm_compute. repeat split. Qed.

Local Open Scope Z_scope.

(* ===================================================================== *)
(** * Runs of whole programs *)
(* ===================================================================== *)

Section Runs.

(** C1 (the code at the failing input).  The program [x;] uses an
    undefined variable.  The diagnostic is written to the standard error
    stream, by [executeBlock] and again by [interpret], which swallows
    the error: [main] returns 0, not 1. *)
Theorem runtime_error_exit_status :
  run "x;" =
    mkRun (Exited 0) EmptyString
      ("Runtime Error: Undefined variable 'x'" +:+ endl +:+
       "Runtime Error: Undefined variable 'x'" +:+ endl).
Proof. vm_compute. reflexivity. Qed.

(** C2 (the code at the failing input).  The left operand of [&&] is
    falsy and the left operand of [||] is truthy, and the assignments
    in the right operands are carried out all the same: both variables
    print as 1. *)
Theorem logical_operators_run_right_operand :
  run "var x = 0; false && (x = 1); println(x);" =
    mkRun (Exited 0) ("1" +:+ endl) EmptyString /\
  run "var y = 0; true || (y = 1); println(y);" =
    mkRun (Exited 0) ("1" +:+ endl) EmptyString.
Proof. split; vm_compute; reflexivity. Qed.

(** C3 (the code at the failing input).  Scenario C prints the sum as a
    Double, [45.000000], and so does the loop to [n] for [n = 4]: the
    assignment [s = s + i] stores the Double sum. *)
Theorem sum_loop_prints_double :
  run "var s = 0; loop (var i = 0; i < 100; i = i + 1) { if (i == 10) { break; } s = s + i; } println(s);"
    = mkRun (Exited 0) ("45.000000" +:+ endl) EmptyString /\
  run "var s = 0; loop (var i = 0; i <= 4; i = i + 1) { s = s + i; } println(s);"
    = mkRun (Exited 0) ("10.000000" +:+ endl) EmptyString /\
  run "var s = 0; loop (var i = 0; i <= 0; i = i + 1) { s = s + i; } println(s);"
    = mkRun (Exited 0) ("0.000000" +:+ endl) EmptyString.
Proof. repeat split; vm_compute; reflexivity. Qed.

(** The other literal scenarios of the specification. *)
Example scenario_A :
  run "var a = 2 + 3 * 4; println(a);" = mkRun (Exited 0) ("14" +:+ endl) EmptyString.
Proof. vm_compute. reflexivity. Qed.

Example scenario_B :
  run "func fib(n) { if (n < 2) { return n; } return fib(n-1) + fib(n-2); } println(fib(10));"
    = mkRun (Exited 0) ("55" +:+ endl) EmptyString.
Proof. vm_compute. reflexivity. Qed.

Example scenario_D :
  run "var a[] = [1,2,3]; a[5] = 99; println(a.length); println(a[4]);"
    = mkRun (Exited 0) ("6" +:+ endl +:+ "null" +:+ endl) EmptyString.
Proof. vm_compute. reflexivity. Qed.

(** The counterexample to C8 from its source text: the outer [x] prints
    as 2 after the block. *)
Example outer_x_prints_2_after_block :
  run "var x = 1; { var x = (x = 2); } println(x);"
    = mkRun (Exited 0) ("2" +:+ endl) EmptyString.
Proof. vm_compute. reflexivity. Qed.

(** An array longer than 1001 elements arises from concatenation; an
    index above 1000 inside it is assigned. *)
Example index_above_cap_inside_array :
  run "var a[] = []; a[1000] = 0; var b = a + a; b[1500] = 7; println(b[1500]); println(b.length);"
    = mkRun (Exited 0) ("7" +:+ endl +:+ "2002" +:+ endl) EmptyString.
Proof. vm_compute. reflexivity. Qed.

(** A scalar that is not a string loses its value when it is indexed
    for assignment. *)
Example scalar_promotion_drops_value :
  run "var a = 5; a[1] = 7; println(a);"
    = mkRun (Exited 0) ("[null, 7]" +:+ endl) EmptyString.
Proof. vm_compute. reflexivity. Qed.

(** A loop body runs in the scope of the loop header, not in a scope of
    its own: its declaration of [x] overwrites the loop variable, and the
    loop ends after one iteration. *)
Example loop_body_shares_header_scope :
  run "loop (var x = 0; x < 3; x = x + 1) { var x = 10; println(x); }"
    = mkRun (Exited 0) ("10" +:+ endl) EmptyString.
Proof. vm_compute. reflexivity. Qed.

End Runs.

(* ===================================================================== *)
(** * Further properties of the code *)
(* ===================================================================== *)

(** ** Element assignment and access *)

Section ArrayFacts.

Local Open Scope Z_scope.

Import ValueOps.

(** What [setArrayElement] starts from, for every value. *)
Lemma setArrayElement_unfold (v x : Value) (i : Z) :
  exists a : list Value,
    (forall a0, v = VArray a0 -> a = a0) /\
    (isArray v = false -> (List.length a <= 1)%nat) /\
    setArrayElement v i x =
      if i <? 0 then VArray a
      else if i >=? size_int a then
        if i >? 1000 then VArray a
        else VArray (<[Z.to_nat i := x]> (resize (Z.to_nat (i + 1)) VNull a))
      else VArray (<[Z.to_nat i := x]> a).
Proof.
  destruct v;
    try (exists []; split; [discriminate | split; [simpl; lia | reflexivity]]).
  - exists [VString string_]. split; [discriminate | split; [simpl; lia | reflexivity]].
  - exists array_. split; [congruence | split; [discriminate | reflexivity]].
Qed.

Lemma getArrayElement_array (a : list Value) (i : Z) :
  getArrayElement (VArray a) i =
    if (i <? 0) || (i >=? size_int a) then VNull
    else default VNull (a !! Z.to_nat i).
Proof.
  cbn [getArrayElement]. destruct ((i <? 0) || (i >=? size_int a)); [reflexivity |].
  apply nth_lookup.
Qed.

(** X1.  Writing then reading: after [v[i] = x], reading index [i] gives
    [x] back, for every value [v], whenever [i] is not negative and is
    at most 1000 or inside the array [v] already. *)
Theorem setArrayElement_then_get (v x : Value) (i : Z) :
  0 <= i ->
  i <= 1000 \/ (exists a : list Value, v = VArray a /\ i < size_int a) ->
  getArrayElement (setArrayElement v i x) i = x.
Proof.
  intros Hnn Hcase.
  destruct (setArrayElement_unfold v x i) as (a & Harr & Hsmall & ->).
  replace (i <? 0) with false by lia.
  unfold size_int in *.
  destruct (i >=? Z.of_nat (List.length a)) eqn:Hge.
  - assert (Hcap : (i >? 1000) = false).
    { destruct Hcase as [H | (a0 & -> & H)]; [lia |].
      rewrite (Harr a0 eq_refl) in Hge. unfold size_int in H. lia. }
    rewrite Hcap, getArrayElement_array. unfold size_int.
    rewrite length_insert, length_resize.
    replace (i <? 0) with false by lia.
    rewrite Z2Nat.id by lia.
    replace (i >=? i + 1) with false by lia.
    cbn [orb]. rewrite list_lookup_insert_eq by (rewrite length_resize; lia).
    reflexivity.
  - rewrite getArrayElement_array. unfold size_int. rewrite length_insert.
    replace (i <? 0) with false by lia. rewrite Hge. cbn [orb].
    rewrite list_lookup_insert_eq by lia. reflexivity.
Qed.

Lemma setArrayElement_then_get_witness :
  getArrayElement (setArrayElement (VInteger 5) 3 (VString "a")) 3 = VString "a".
Proof.
  apply setArrayElement_then_get; [lia | left; lia].
Defined.

(** X2.  An element assignment to index [i] of an array leaves what
    is read at every other index [j] as it was (null where the array was
    grown or does not reach). *)
Theorem setArrayElement_other_index (a : list Value) (x : Value) (i j : Z) :
  j <> i ->
  getArrayElement (setArrayElement (VArray a) i x) j = getArrayElement (VArray a) j.
Proof.
  intros Hne. unfold setArrayElement. cbv beta iota zeta.
  destruct (i <? 0) eqn:Hneg; [reflexivity |].
  destruct (i >=? size_int a) eqn:Hge.
  - destruct (i >? 1000) eqn:Hcap; [reflexivity |].
    rewrite !getArrayElement_array. unfold size_int in *.
    rewrite length_insert, length_resize.
    rewrite Z2Nat.id by lia.
    destruct (j <? 0) eqn:Hj; [reflexivity |]. cbn [orb].
    destruct (j >=? Z.of_nat (List.length a)) eqn:Hja.
    + destruct (j >=? i + 1) eqn:Hji; [reflexivity |].
      rewrite list_lookup_insert_ne by lia.
      rewrite lookup_resize_new by lia. reflexivity.
    + replace (j >=? i + 1) with false by lia.
      rewrite list_lookup_insert_ne by lia.
      rewrite lookup_resize by lia. reflexivity.
  - rewrite !getArrayElement_array. unfold size_int in *. rewrite length_insert.
    destruct ((j <? 0) || (j >=? Z.of_nat (List.length a))) eqn:Hj; [reflexivity |].
    rewrite list_lookup_insert_ne by lia. reflexivity.
Qed.

Lemma setArrayElement_other_index_witness :
  getArrayElement (setArrayElement (VArray [VInteger 1; VInteger 2]) 4 (VInteger 9)) 1
  = getArrayElement (VArray [VInteger 1; VInteger 2]) 1.
Proof. apply setArrayElement_other_index. lia. Defined.

(** X3.  The length of an array after an element assignment: the
    larger of the old length and [i + 1] when [0 <= i <= 1000], the old
    length otherwise.  An assignment never shrinks an array and never
    grows one beyond 1001 elements. *)
Theorem setArrayElement_size (a : list Value) (x : Value) (i : Z) :
  getProperty (setArrayElement (VArray a) i x) "length" =
    VInteger (if (0 <=? i) && (i <=? 1000) then Z.max (size_int a) (i + 1)
              else size_int a) /\
  getArraySize (setArrayElement (VArray a) i x) >= getArraySize (VArray a) /\
  getArraySize (setArrayElement (VArray a) i x) <= Z.max (getArraySize (VArray a)) 1001.
Proof.
  assert (Hsize : getArraySize (setArrayElement (VArray a) i x) =
                  if (0 <=? i) && (i <=? 1000) then Z.max (size_int a) (i + 1)
                  else size_int a).
  { unfold setArrayElement. cbv beta iota zeta.
    destruct (i <? 0) eqn:Hneg.
    { replace (0 <=? i) with false by lia. reflexivity. }
    replace (0 <=? i) with true by lia. cbn [andb].
    destruct (i >=? size_int a) eqn:Hge.
    - destruct (i >? 1000) eqn:Hcap.
      + replace (i <=? 1000) with false by lia. reflexivity.
      + replace (i <=? 1000) with true by lia.
        cbn [getArraySize]. unfold size_int in *.
        rewrite length_insert, length_resize. lia.
    - cbn [getArraySize]. unfold size_int in *. rewrite length_insert.
      destruct (i <=? 1000); lia. }
  split; [| split].
  - assert (Hp : forall v, isArray v = true ->
                   getProperty v "length" = VInteger (getArraySize v)).
    { intros [] H; try discriminate H. reflexivity. }
    rewrite Hp by apply setArrayElement_isArray. rewrite Hsize. reflexivity.
  - rewrite Hsize. cbn [getArraySize]. destruct ((0 <=? i) && (i <=? 1000)); lia.
  - rewrite Hsize. cbn [getArraySize].
    destruct ((0 <=? i) && (i <=? 1000)) eqn:H; [| lia].
    apply andb_prop in H. lia.
Qed.

End ArrayFacts.

(** ** Equality of values *)

Section CompareFacts.

Local Open Scope Z_scope.

Variable stoi : string -> option (Z * nat).
Variable stod : string -> option double.

Import ValueOps.

Lemma SFcompare_Eq_sym (x y : double) :
  SFcompare x y = Some Eq -> SFcompare y x = Some Eq.
Proof.
  destruct x as [sx | sx | | sx mx ex], y as [sy | sy | | sy my ey];
    try solve [cbn; repeat match goal with s : bool |- _ => destruct s end;
               (discriminate || reflexivity)].
  intros H. apply SFcompare_Eq_finite in H as (-> & -> & ->).
  cbn. destruct sy; rewrite Z.compare_refl, Pos.compare_cont_refl; reflexivity.
Qed.

Lemma deqb_sym (x y : double) : deqb x y = deqb y x.
Proof.
  unfold deqb, SFeqb.
  destruct (SFcompare x y) as [[| |] |] eqn:Hxy.
  - rewrite (SFcompare_Eq_sym _ _ Hxy). reflexivity.
  - destruct (SFcompare y x) as [[| |] |] eqn:Hyx; try reflexivity.
    rewrite (SFcompare_Eq_sym _ _ Hyx) in Hxy. discriminate.
  - destruct (SFcompare y x) as [[| |] |] eqn:Hyx; try reflexivity.
    rewrite (SFcompare_Eq_sym _ _ Hyx) in Hxy. discriminate.
  - destruct (SFcompare y x) as [[| |] |] eqn:Hyx; try reflexivity.
    rewrite (SFcompare_Eq_sym _ _ Hyx) in Hxy. discriminate.
Qed.

Lemma deqb_refl (x : double) : x <> S754_nan -> deqb x x = true.
Proof.
  intros Hx. unfold deqb, SFeqb.
  destruct x as [s | s | | s m e]; cbn.
  - reflexivity.
  - destruct s; reflexivity.
  - congruence.
  - destruct s; rewrite Z.compare_refl, Pos.compare_cont_refl; reflexivity.
Qed.

Lemma of_int_not_nan (z : Z) : in_int z -> of_int z <> S754_nan.
Proof.
  intros Hz. destruct (Z.eq_dec z 0) as [-> | Hnz]; [discriminate |].
  destruct (of_int_value z Hz Hnz) as (m & e & -> & _). discriminate.
Qed.

Lemma bool_eqb_sym (a b : bool) : Bool.eqb a b = Bool.eqb b a.
Proof. destruct a, b; reflexivity. Qed.

(** X4.  [operator==] is symmetric: [a == b] and [b == a] are the same
    Boolean for all values. *)
Theorem eq_symmetric (a b : Value) : eq stoi stod a b = eq stoi stod b a.
Proof.
  unfold eq.
  rewrite (andb_comm (isNull a)), (andb_comm (isNumber a)).
  rewrite (deqb_sym (asNumber stoi stod a)).
  rewrite (bool_eqb_sym (asBoolean a)).
  rewrite (String.eqb_sym (toString a)).
  rewrite (orb_comm (isNumber a)), (orb_comm (isString a)),
    (orb_comm (isBoolean a)), (orb_comm (isArray a)).
  destruct (isNull b && isNull a); [reflexivity |].
  destruct (isNumber b && isNumber a); [reflexivity |].
  destruct a, b; try reflexivity.
  - apply String.eqb_sym.
  - apply bool_eqb_sym.
Qed.

(** X5.  [v == v] holds for every value except the Double NaN and the
    functions (user-defined or native), which are equal to nothing, not
    even to themselves. *)
Theorem eq_reflexive (v : Value) :
  (forall i : Z, v = VInteger i -> in_int i) ->
  eq stoi stod v v = true <-> v <> VDouble S754_nan /\ isAnyFunction v = false.
Proof.
  intros Hint. destruct v; cbn.
  - split; [intros _; split; [discriminate | reflexivity] | reflexivity].
  - split.
    + intros H. split; [| reflexivity]. intros [= ->]. discriminate H.
    + intros [H _]. apply deqb_refl. congruence.
  - split; [intros _; split; [discriminate | reflexivity] |].
    intros _. apply deqb_refl. apply of_int_not_nan. apply Hint. reflexivity.
  - split; [intros _; split; [discriminate | reflexivity] |].
    intros _. apply String.eqb_refl.
  - split; [intros _; split; [discriminate | reflexivity] |].
    intros _. destruct boolean_; reflexivity.
  - split; [intros _; split; [discriminate | reflexivity] |].
    intros _. apply String.eqb_refl.
  - split; [discriminate | intros [_ H]; discriminate H].
  - split; [discriminate | intros [_ H]; discriminate H].
Qed.

End CompareFacts.

(** An array is equal to itself. *)
Lemma eq_reflexive_witness :
  ValueOps.eq Std.stoi Std.stod (VArray [VInteger 1]) (VArray [VInteger 1]) = true.
Proof.
  apply eq_reflexive; [discriminate | split; [discriminate | reflexivity]].
Defined.

(** ** Arithmetic and coercions *)

Section ArithFacts.

Local Open Scope Z_scope.

Variable stoi : string -> option (Z * nat).
Variable stod : string -> option double.

Import ValueOps.

(** X6.  [a % b] is the Integer 0 whenever [b] coerces to the number
    zero; for two Integers it is the remainder of the truncated division
    (smaller than the divisor in magnitude, with the sign of the
    dividend), except that [INT_MIN % -1] has no result: the remainder
    instruction traps; for any other operands it is [fmod] of the two
    numbers, demoted to Integer when it equals an [int]. *)
Theorem mod_spec :
  (forall a b : Value,
      deqb (asNumber stoi stod b) dzero = true ->
      mod_ stoi stod a b = Some (VInteger 0)) /\
  (forall x y : Z,
      in_int y -> y <> 0 ->
      (x = INT_MIN /\ y = -1 -> mod_ stoi stod (VInteger x) (VInteger y) = None) /\
      (~ (x = INT_MIN /\ y = -1) ->
       mod_ stoi stod (VInteger x) (VInteger y) = Some (VInteger (Z.rem x y)) /\
       Z.abs (Z.rem x y) < Z.abs y /\
       0 <= Z.rem x y * x /\
       x = y * Z.quot x y + Z.rem x y)) /\
  (forall a b : Value,
      deqb (asNumber stoi stod b) dzero = false ->
      ~ (exists x y : Z, a = VInteger x /\ b = VInteger y) ->
      let r := dfmod (asNumber stoi stod a) (asNumber stoi stod b) in
      (forall z : Z, in_int z -> deqb r (of_int z) = true ->
         mod_ stoi stod a b = Some (VInteger z)) /\
      ((forall z : Z, in_int z -> deqb r (of_int z) = false) ->
         mod_ stoi stod a b = Some (VDouble r))).
Proof.
  split; [| split].
  - intros a b Hz. unfold mod_. rewrite Hz. reflexivity.
  - intros x y Hy Hnz.
    assert (Hd : deqb (of_int y) dzero = false).
    { destruct (deqb (of_int y) dzero) eqn:Hd; [| reflexivity].
      apply of_int_zero_iff in Hd; [congruence | exact Hy]. }
    split.
    + intros [-> ->]. reflexivity.
    + intros Hmin. split; [| split; [| split]].
      * unfold mod_. cbn [asNumber]. rewrite Hd.
        unfold int_rem. rewrite (division_traps_false x y Hnz Hmin). reflexivity.
      * apply Z.rem_bound_abs. exact Hnz.
      * apply Z.rem_sign_mul. exact Hnz.
      * apply Z.quot_rem'.
  - intros a b Hz Hnot r.
    assert (Hmod : mod_ stoi stod a b = Some (demote r)).
    { unfold mod_. rewrite Hz.
      destruct a; try reflexivity. destruct b; try reflexivity.
      exfalso. apply Hnot. eauto. }
    rewrite Hmod. destruct (demote_spec r) as [Hint Hdbl]. split.
    + intros z Hin Heq. rewrite (Hint z Hin Heq). reflexivity.
    + intros Hne. rewrite (Hdbl Hne). reflexivity.
Qed.

(** X7.  [a + b]: two Integers add with wrap-around; two numbers of
    which one is a Double add as doubles, with demotion; as soon as one
    operand is a string the result is the concatenation of the two
    renderings; two arrays are concatenated; in the remaining cases a
    number on either side gives the numeric sum and no number gives the
    concatenated renderings. *)
Theorem add_spec :
  (forall x y : Z,
      add stoi stod (VInteger x) (VInteger y) = VInteger (wrap32 (x + y)) /\
      (in_int (x + y) -> wrap32 (x + y) = x + y)) /\
  (forall a b : Value,
      isNumber a = true -> isNumber b = true ->
      isInteger a && isInteger b = false ->
      add stoi stod a b = demote (dadd (asNumber stoi stod a) (asNumber stoi stod b))) /\
  (forall a b : Value,
      isString a || isString b = true ->
      add stoi stod a b = VString (toString a +:+ toString b)) /\
  (forall x y : list Value,
      add stoi stod (VArray x) (VArray y) = VArray (x ++ y)) /\
  (forall a b : Value,
      isString a || isString b = false ->
      isArray a && isArray b = false ->
      isNumber a && isNumber b = false ->
      add stoi stod a b =
        if isNumber a || isNumber b
        then demote (dadd (asNumber stoi stod a) (asNumber stoi stod b))
        else VString (toString a +:+ toString b)).
Proof.
  split; [| split; [| split; [| split]]].
  - intros x y. split; [reflexivity |].
    intros [Hlo Hhi]. unfold wrap32, INT_MIN, INT_MAX in *.
    rewrite Z.mod_small by lia. lia.
  - intros a b Ha Hb Hint. unfold add. rewrite Ha, Hb.
    destruct a; try discriminate Ha; destruct b; try discriminate Hb;
      try reflexivity. discriminate Hint.
  - intros a b Hs. unfold add.
    destruct a; destruct b; try discriminate Hs; reflexivity.
  - intros x y. reflexivity.
  - intros a b Hs Harr Hnum. unfold add.
    destruct a; destruct b; try discriminate Hs; try discriminate Harr;
      try discriminate Hnum; reflexivity.
Qed.

(** X8.  [asArray] is the singleton view that [getArraySize] and
    [getArrayElement] give of a value: its length is [getArraySize], and
    for every value that is not a string its elements are what
    [getArrayElement] reads. *)
Theorem asArray_singleton_view (v : Value) :
  size_int (asArray v) = getArraySize v /\
  (isString v = false ->
   forall i : Z, getArrayElement (VArray (asArray v)) i = getArrayElement v i).
Proof.
  split.
  - destruct v; reflexivity.
  - intros Hs i.
    assert (Hone : forall w : Value,
               getArrayElement (VArray [w]) i = if i =? 0 then w else VNull).
    { intros w. cbn [getArrayElement]. unfold size_int. cbn [List.length].
      change (Z.of_nat 1) with 1.
      destruct (i <? 0) eqn:Hneg.
      - replace (i =? 0) with false by lia. reflexivity.
      - destruct (Z.eq_dec i 0) as [-> | Hnz]; [reflexivity |].
        replace (i >=? 1) with true by lia.
        replace (i =? 0) with false by lia. reflexivity. }
    destruct v; try discriminate Hs; try reflexivity;
      cbn [asArray]; rewrite Hone; reflexivity.
Qed.

Lemma asArray_singleton_view_witness :
  size_int (asArray (VBoolean true)) = getArraySize (VBoolean true) /\
  getArrayElement (VArray (asArray (VBoolean true))) 0 = getArrayElement (VBoolean true) 0.
Proof.
  destruct (asArray_singleton_view (VBoolean true)) as [H1 H2].
  split; [exact H1 | apply H2; reflexivity].
Defined.

(** X9.  For every value that is not a string, [asInteger] is the
    truncation of [asNumber] to an [int]. *)
Theorem asInteger_truncates_asNumber (v : Value) :
  isString v = false ->
  (forall i : Z, v = VInteger i -> in_int i) ->
  (forall a : list Value, v = VArray a -> in_int (size_int a)) ->
  asInteger stoi v = to_int (asNumber stoi stod v).
Proof.
  intros Hs Hint Harr.
  destruct v; try discriminate Hs; try reflexivity; cbn [asInteger asNumber].
  - symmetry. apply to_int_of_int. apply Hint. reflexivity.
  - destruct boolean_; reflexivity.
  - symmetry. apply to_int_of_int. apply (Harr _ eq_refl).
Qed.

End ArithFacts.

Lemma asInteger_truncates_asNumber_witness :
  ValueOps.asInteger Std.stoi (VBoolean true)
  = to_int (ValueOps.asNumber Std.stoi Std.stod (VBoolean true)).
Proof.
  apply asInteger_truncates_asNumber; [reflexivity | discriminate | discriminate].
Defined.

(** ** Rendering and literals *)

Section RenderFacts.

Local Open Scope Z_scope.

Variable stoi : string -> option (Z * nat).
Variable stod : string -> option double.

Import ValueOps.

(** X10.  An array prints as its elements between brackets, separated
    by a comma and a space; nested arrays print the same way, and a
    function inside an array prints as [<function>] without its name. *)
Theorem toString_array (a : list Value) :
  toString (VArray a) = "[" +:+ String.concat ", " (map element_string a) +:+ "]".
Proof.
  cbn [toString].
  match goal with
  | |- _ +:+ ?f a O +:+ _ = _ => set (elems := f)
  end.
  assert (Helems : forall (l : list Value) (i : nat),
             elems l i =
               (if (0 <? i)%nat then match l with [] => EmptyString | _ => ", " end
                else EmptyString) +:+ String.concat ", " (map element_string l)).
  { assert (Hstep : forall (x : Value) (l : list Value) (i : nat),
               elems (x :: l) i =
                 (if (0 <? i)%nat then ", " else EmptyString) +:+
                 element_string x +:+ elems l (S i)).
    { intros x l i. destruct x; reflexivity. }
    induction l as [| x l IH]; intros i.
    - destruct i; reflexivity.
    - rewrite Hstep, IH. change (0 <? S i)%nat with true.
      cbn [map String.concat].
      destruct l as [| y l].
      + cbn [map String.concat]. rewrite !append_empty_r.
        destruct (0 <? i)%nat; reflexivity.
      + reflexivity. }
  rewrite Helems. reflexivity.
Qed.

(** X11.  A number literal that equals an [int] evaluates to that
    Integer, any other number literal to a Double; the state is
    untouched and nothing is printed. *)
Theorem evaluateLiteral_number :
  (forall (z : Z) (st : Interpreter),
      in_int z ->
      Interp.evaluateLiteral (TVDouble (of_int z)) st = (Ok (VInteger z), st, [])) /\
  (forall (num : double) (st : Interpreter),
      (forall z : Z, in_int z -> deqb num (of_int z) = false) ->
      Interp.evaluateLiteral (TVDouble num) st = (Ok (VDouble num), st, [])).
Proof.
  split.
  - intros z st Hz. unfold Interp.evaluateLiteral.
    rewrite (to_int_of_int z Hz).
    rewrite deqb_refl by (apply of_int_not_nan; exact Hz). reflexivity.
  - intros num st Hnum. unfold Interp.evaluateLiteral.
    rewrite (Hnum (to_int num) (to_int_in_int num)). reflexivity.
Qed.

End RenderFacts.

(** ** Environments *)

Section EnvironmentFacts.

Local Open Scope nat_scope.

Lemma store_var_length (h : list Environment) (a : nat) (name : string) (v : Value) :
  List.length (Interp.store_var h a name v) = List.length h.
Proof.
  unfold Interp.store_var. destruct (h !! a); [apply length_insert | reflexivity].
Qed.

Lemma store_var_lookup_ne (h : list Environment) (a a' : nat) (name : string)
    (v : Value) :
  a' <> a -> Interp.store_var h a name v !! a' = h !! a'.
Proof.
  intros Hne. unfold Interp.store_var.
  destruct (h !! a); [apply list_lookup_insert_ne; congruence | reflexivity].
Qed.

Lemma store_var_lookup_eq (h : list Environment) (a : nat) (name : string)
    (v : Value) (e : Environment) :
  h !! a = Some e ->
  Interp.store_var h a name v !! a =
    Some (mkEnvironment (<[name := v]> (values_ e)) (enclosing_ e)).
Proof.
  intros He. unfold Interp.store_var. rewrite He.
  apply list_lookup_insert_eq. eapply lookup_lt_Some. exact He.
Qed.

(** Writing [name] leaves the walk for another name as it was. *)
Lemma find_scope_store_other (h : list Environment) (a : nat) (name y : string)
    (v : Value) :
  y <> name ->
  forall n p : nat,
    Interp.find_scope n (Interp.store_var h a name v) p y = Interp.find_scope n h p y.
Proof.
  intros Hy. induction n as [| n IH]; intros p; [reflexivity |].
  cbn [Interp.find_scope].
  destruct (decide (p = a)) as [-> | Hne].
  - destruct (h !! a) as [e |] eqn:He.
    + rewrite (store_var_lookup_eq h a name v e He). cbn [values_ enclosing_].
      rewrite lookup_insert_ne by congruence.
      destruct (values_ e !! y); [reflexivity |].
      destruct (enclosing_ e); [apply IH | reflexivity].
    + unfold Interp.store_var. rewrite He. rewrite He. reflexivity.
  - rewrite store_var_lookup_ne by exact Hne.
    destruct (h !! p) as [e |]; [| reflexivity].
    destruct (values_ e !! y); [reflexivity |].
    destruct (enclosing_ e); [apply IH | reflexivity].
Qed.

Lemma lookup_var_store_other (h : list Environment) (a : nat) (name y : string)
    (v : Value) (p : nat) :
  y <> name ->
  Interp.lookup_var (Interp.store_var h a name v) p y = Interp.lookup_var h p y.
Proof.
  intros Hy. unfold Interp.lookup_var.
  rewrite store_var_length, find_scope_store_other by exact Hy.
  destruct (Interp.find_scope _ h p y) as [q |]; [| reflexivity].
  destruct (decide (q = a)) as [-> | Hne].
  - destruct (h !! a) as [e |] eqn:He.
    + rewrite (store_var_lookup_eq h a name v e He). cbn [values_].
      apply lookup_insert_ne. congruence.
    + unfold Interp.store_var. rewrite He. rewrite He. reflexivity.
  - rewrite store_var_lookup_ne by exact Hne. reflexivity.
Qed.



(** X12.  [define] never fails; after [define(name, v)] in an
    environment, [get(name)] from that environment returns [v]; the
    current environment is the same, no other name changes its value in
    any scope chain, and no other environment changes. *)
Theorem define_then_get (st : Interpreter) (env : nat) (name : string) (v : Value) :
  env < List.length (heap st) ->
  exists st' : Interpreter,
    Interp.define env name v st = (Ok tt, st', []) /\
    Interp.get env name st' = (Ok v, st', []) /\
    environment_ st' = environment_ st /\
    (forall (p : nat) (y : string),
        y <> name ->
        Interp.lookup_var (heap st') p y = Interp.lookup_var (heap st) p y) /\
    (forall a : nat, a <> env -> heap st' !! a = heap st !! a).
Proof.
  intros Henv. eexists. split; [reflexivity |].
  cbn [heap environment_].
  destruct (lookup_lt_is_Some_2 _ _ Henv) as [e He].
  split; [| split; [reflexivity | split]].
  - unfold Interp.get, Interp.lookup_var. cbn [heap].
    rewrite store_var_length.
    destruct (List.length (heap st)) as [| n] eqn:Hn; [lia |].
    cbn [Interp.find_scope].
    rewrite (store_var_lookup_eq _ _ name v e He). cbn [values_].
    rewrite lookup_insert_eq.
    rewrite (store_var_lookup_eq _ _ name v e He). cbn [values_].
    rewrite lookup_insert_eq. reflexivity.
  - intros p y Hy. apply lookup_var_store_other. exact Hy.
  - intros a Ha. apply store_var_lookup_ne. exact Ha.
Qed.

Lemma define_then_get_witness :
  exists st' : Interpreter,
    Interp.define 0 "x" (VInteger 1) Interp.new = (Ok tt, st', []) /\
    Interp.get 0 "x" st' = (Ok (VInteger 1), st', []).
Proof.
  destruct (define_then_get Interp.new 0 "x" (VInteger 1)) as (st' & H1 & H2 & _).
  - cbn. lia.
  - exists st'. split; [exact H1 | exact H2].
Defined.


End EnvironmentFacts.

(** ** Function calls *)

Section CallFacts.

Local Open Scope nat_scope.

Variable stoi : string -> option (Z * nat).
Variable stod : string -> option double.

Abbreviation rec_at := (Interp.rec_at stoi stod).

Lemma defineAll_run (x : string) (env : nat) (names : list string) :
  forall (values : list Value) (st : Interpreter),
  exists st' : Interpreter,
    Interp.defineAll env names values st = (Ok tt, st', []) /\
    environment_ st' = environment_ st /\
    globals_ st' = globals_ st /\
    ext true x env (heap st) (heap st') /\
    (wf_heap (heap st) -> wf_heap (heap st')) /\
    (env < List.length (heap st) -> List.length names <= List.length values ->
     In x names -> binds (heap st') env x).
Proof.
  induction names as [| n names IH]; intros values st.
  - exists st. split; [reflexivity |]. split; [reflexivity |]. split; [reflexivity |].
    split; [apply ext_refl |]. split; [auto |]. intros _ _ [].
  - destruct values as [| v values].
    + exists st. split; [reflexivity |]. split; [reflexivity |]. split; [reflexivity |].
      split; [apply ext_refl |]. split; [auto |]. cbn. lia.
    + set (st1 := mkInterpreter (Interp.store_var (heap st) env n v) (environment_ st)
                    (globals_ st)).
      destruct (IH values st1) as (st' & Hrun & Henv & Hglob & Hext & Hwf & Hbinds).
      assert (Hext1 : ext true x env (heap st) (heap st1)).
      { apply store_var_ext. intros _ _. lia. }
      exists st'. split; [| split; [exact Henv | split; [exact Hglob | split; [| split]]]].
      * cbn [Interp.defineAll]. unfold Interp.bind, Interp.define.
        fold st1. rewrite Hrun. reflexivity.
      * eapply ext_trans; eauto.
      * intros H. apply Hwf. apply store_var_wf. exact H.
      * intros Hlt Hlen Hin. cbn [List.length] in Hlen.
        assert (Hlt1 : env < List.length (heap st1)).
        { destruct Hext1 as [Hl _]. lia. }
        destruct (decide (n = x)) as [-> | Hne].
        -- eapply binds_ext; [exact Hext |].
           destruct (lookup_lt_is_Some_2 _ _ Hlt) as [e He].
           eexists. split.
           ++ cbn [st1 heap]. unfold Interp.store_var. rewrite He.
              apply list_lookup_insert_eq. exact Hlt.
           ++ cbn [values_]. rewrite lookup_insert_eq. eauto.
        -- apply Hbinds; [exact Hlt1 | lia |].
           destruct Hin as [Heq | Hin]; [congruence | exact Hin].
Qed.

(** X14.  A call of a user-defined function binds its parameters in a
    fresh scope: whatever the body does and however the call ends, the
    caller's binding of a parameter name is what it was before the call,
    and when the call returns a value the caller's scope is current
    again. *)
Theorem call_keeps_callers_binding (fuel : nat) (name : string)
    (parameters : list string) (body : list Statement) (arguments : list Value)
    (p : string) (st st' : Interpreter) (r : Outcome Value) (o : list Event) :
  wf_heap (heap st) ->
  environment_ st < List.length (heap st) ->
  In p parameters ->
  Interp.call (rec_at fuel) (VFunction name parameters body) arguments st = (r, st', o) ->
  Interp.lookup_var (heap st') (environment_ st) p =
    Interp.lookup_var (heap st) (environment_ st) p /\
  ((exists v : Value, r = Ok v) -> environment_ st' = environment_ st).
Proof.
  intros Hwf Hcur Hin Hrun.
  cbn [Interp.call] in Hrun.
  destruct (List.length arguments =? List.length parameters) eqn:Hlen; cbn [negb] in Hrun.
  2: { injection Hrun as <- <- <-. split; [reflexivity |].
       intros [v Hv]. discriminate Hv. }
  apply Nat.eqb_eq in Hlen.
  set (cur := environment_ st) in *.
  set (b := List.length (heap st)) in *.
  unfold Interp.bind at 1, Interp.getEnvironment in Hrun.
  unfold Interp.bind at 1, Interp.make_shared_Environment in Hrun.
  fold cur b in Hrun.
  set (st0 := mkInterpreter (heap st ++ [mkEnvironment ∅ (Some cur)]) cur (globals_ st)) in *.
  assert (Hwf0 : wf_heap (heap st0)) by (apply alloc_wf; assumption).
  assert (Hb0 : b < List.length (heap st0)).
  { cbn [st0 heap]. rewrite length_app. cbn. lia. }
  destruct (defineAll_run p b parameters arguments st0)
    as (st1 & Hdef & Henv1 & Hglob1 & Hext01 & Hwf1 & Hbinds1).
  unfold Interp.bind at 1 in Hrun. rewrite Hdef in Hrun.
  unfold Interp.bind at 1, Interp.getEnvironment in Hrun.
  unfold Interp.bind at 1, Interp.setEnvironment in Hrun.
  rewrite Henv1 in Hrun. cbn [st0 environment_] in Hrun.
  set (st1b := mkInterpreter (heap st1) b (globals_ st1)) in *.
  specialize (Hwf1 Hwf0). specialize (Hbinds1 Hb0 ltac:(lia) Hin).
  assert (Hb1 : b < List.length (heap st1)).
  { destruct Hext01 as [Hl _]. lia. }
  assert (HInv : Inv true p b st1b).
  { split; [exact Hwf1 |]. split; [apply above_here; exact Hb1 | intros _; exact Hbinds1]. }
  unfold Interp.try_catch, Interp.bind at 1 in Hrun.
  destruct (Interp.r_executeBlock (rec_at fuel) body b st1b) as [[r2 st2] o2] eqn:Hblock.
  destruct (proj1 (proj2 (RecPres_rec_at true p b stoi stod fuel)) body b _ _ _ _ HInv
              ltac:(constructor; [apply above_here; exact Hb1 | constructor]) Hblock)
    as [_ Hext12].
  assert (Hheap : heap st' = heap st2 /\
                  ((exists v : Value, r = Ok v) -> environment_ st' = cur)).
  { destruct r2 as [[] | e | |].
    - cbn in Hrun. injection Hrun as <- <- <-. split; [reflexivity | reflexivity].
    - destruct e; cbn in Hrun; injection Hrun as <- <- <-;
        (split; [reflexivity |]); try reflexivity;
        intros [v Hv]; discriminate Hv.
    - cbn in Hrun. injection Hrun as <- <- <-. split; [reflexivity |].
      intros [v Hv]; discriminate Hv.
    - cbn in Hrun. injection Hrun as <- <- <-. split; [reflexivity |].
      intros [v Hv]; discriminate Hv. }
  destruct Hheap as [Hheap Henv]. split; [| exact Henv].
  rewrite Hheap.
  rewrite (lookup_var_ext p b (heap st1) (heap st2) cur Hwf1 Hext12 Hcur) by lia.
  rewrite (lookup_var_ext p b (heap st0) (heap st1) cur Hwf0 Hext01 Hcur) by
    (cbn [st0 heap]; rewrite length_app; lia).
  apply lookup_var_agree; [exact Hwf | exact Hcur | cbn [st0 heap]; rewrite length_app; lia |].
  intros a e Ha He. exists e. split; [| split; reflexivity].
  cbn [st0 heap]. apply lookup_app_l_Some. exact He.
Qed.

End CallFacts.

(** [function f(x) { x = 9; }] called with 5 where [x] is 1: the
    caller's [x] still is 1. *)
Lemma call_keeps_callers_binding_witness :
  Interp.lookup_var
    (heap (snd (fst (Interp.call (Interp.rec_at Std.stoi Std.stod 4)
                       (VFunction "f" ["x"]
                          [ExpressionStatement
                             (BinaryExpression ASSIGN (Identifier "x") (lit 9))])
                       [VInteger 5] outer_x_is_1))))
    (environment_ outer_x_is_1) "x" = Some (VInteger 1).
Proof.
  destruct (Interp.call (Interp.rec_at Std.stoi Std.stod 4)
              (VFunction "f" ["x"]
                 [ExpressionStatement
                    (BinaryExpression ASSIGN (Identifier "x") (lit 9))])
              [VInteger 5] outer_x_is_1) as [[r st'] o] eqn:Hrun.
  destruct (call_keeps_callers_binding Std.stoi Std.stod 4 "f" ["x"]
              [ExpressionStatement
                 (BinaryExpression ASSIGN (Identifier "x") (lit 9))]
              [VInteger 5] "x" outer_x_is_1 st' r o wf_heap_outer) as [Hlookup _].
  - cbn. lia.
  - left. reflexivity.
  - exact Hrun.
  - cbn [fst snd]. rewrite Hlookup. vm_compute. reflexivity.
Defined.

Section ScopingFacts.

Local Open Scope nat_scope.

Variable stoi : string -> option (Z * nat).
Variable stod : string -> option double.

Abbreviation rec_at := (Interp.rec_at stoi stod).

(** From a fresh scope the names of the enclosing scope are seen. *)
Lemma lookup_var_fresh_scope (h : list Environment) (cur : nat) (y : string) :
  wf_heap h -> cur < List.length h ->
  Interp.lookup_var (h ++ [mkEnvironment ∅ (Some cur)]) (List.length h) y =
    Interp.lookup_var h cur y.
Proof.
  intros Hwf Hcur.
  set (h' := h ++ [mkEnvironment ∅ (Some cur)]).
  assert (Hwf' : wf_heap h') by (apply alloc_wf; assumption).
  assert (Hlen : List.length h' = S (List.length h)).
  { unfold h'. rewrite length_app. cbn. lia. }
  rewrite <- (lookup_var_agree y h h' cur Hwf Hcur ltac:(lia)).
  2: { intros a e Ha He. exists e. split; [| split; reflexivity].
       unfold h'. apply lookup_app_l_Some. exact He. }
  unfold Interp.lookup_var. rewrite Hlen. cbn [Interp.find_scope].
  assert (Hnew : h' !! List.length h = Some (mkEnvironment ∅ (Some cur))).
  { unfold h'. rewrite lookup_app_r by lia. rewrite Nat.sub_diag. reflexivity. }
  rewrite Hnew. cbn [values_ enclosing_]. rewrite lookup_empty.
  rewrite (find_scope_fuel y h' Hwf' (List.length h) (S (List.length h)) cur) by lia.
  reflexivity.
Qed.

(** X15.  Scoping is dynamic: the scope of a call encloses the scope
    that is current at the call, so a function body that reads a name it
    does not bind reads the caller's variable.  [function f() { return
    y; }] called where [y] is [v] returns [v]. *)
Theorem function_reads_callers_variable (fuel : nat) (name y : string)
    (st : Interpreter) (v : Value) :
  wf_heap (heap st) ->
  environment_ st < List.length (heap st) ->
  Interp.lookup_var (heap st) (environment_ st) y = Some v ->
  Interp.call (rec_at (S (S fuel)))
    (VFunction name [] [ReturnStatement (Some (Identifier y))]) [] st =
  (Ok v,
   mkInterpreter (heap st ++ [mkEnvironment ∅ (Some (environment_ st))])
     (environment_ st) (globals_ st),
   []).
Proof.
  intros Hwf Hcur Hy.
  pose proof (lookup_var_fresh_scope (heap st) (environment_ st) y Hwf Hcur) as Hfresh.
  rewrite Hy in Hfresh.
  cbn [Interp.call List.length Nat.eqb negb Interp.defineAll].
  cbn [Interp.rec_at Interp.step Interp.r_executeBlock].
  unfold Interp.executeBlock. cbn [Interp.executeStatements Interp.executeStatement].
  unfold Interp.executeReturnStatement.
  cbn [Interp.rec_at Interp.step Interp.r_evaluateExpression Interp.evaluateExpression].
  unfold Interp.evaluateIdentifier.
  unfold Interp.bind, Interp.try_catch, Interp.getEnvironment,
    Interp.make_shared_Environment, Interp.setEnvironment, Interp.ret, Interp.get,
    Interp.throw.
  cbn [heap environment_ globals_].
  rewrite Hfresh. reflexivity.
Qed.

End ScopingFacts.

(** [function f() { return x; }] called where [x] is 1 returns 1. *)
Lemma function_reads_callers_variable_witness :
  fst (fst (Interp.call (Interp.rec_at Std.stoi Std.stod 2)
              (VFunction "f" [] [ReturnStatement (Some (Identifier "x"))]) []
              outer_x_is_1))
  = Ok (VInteger 1).
Proof.
  rewrite (function_reads_callers_variable Std.stoi Std.stod 0 "f" "x"
             outer_x_is_1 (VInteger 1) wf_heap_outer).
  - reflexivity.
  - cbn. lia.
  - vm_compute. reflexivity.
Defined.

(** ** Loops *)

Section LoopFacts.

Local Open Scope nat_scope.

Variable stoi : string -> option (Z * nat).
Variable stod : string -> option double.

Abbreviation rec_at := (Interp.rec_at stoi stod).

(** X16.  The variable that a loop header declares lives in the scope
    of the loop: provided the evaluation of the initializer returns and
    does not itself change the outer binding of the name, the outer
    binding is unchanged after the loop, however it ends, and when the
    loop completes or returns the outer scope is current again. *)
Theorem loop_variable_scoped (fuel : nat) (x : string) (V : Expression)
    (condition increment : option Expression) (body : list Statement)
    (st st1 st' : Interpreter) (v : Value) (o1 o : list Event) (r : Outcome unit) :
  wf_heap (heap st) ->
  environment_ st < List.length (heap st) ->
  Interp.r_evaluateExpression (rec_at fuel) V (enter_block st) = (Ok v, st1, o1) ->
  Interp.lookup_var (heap st1) (environment_ st) x =
    Interp.lookup_var (heap st) (environment_ st) x ->
  Interp.executeStatement (rec_at fuel)
    (LoopStatement (Some (VariableDeclaration x (Some V))) condition increment body) st
    = (r, st', o) ->
  Interp.lookup_var (heap st') (environment_ st) x =
    Interp.lookup_var (heap st) (environment_ st) x /\
  ((r = Ok tt \/ exists w : Value, r = Throw (Return w)) ->
   environment_ st' = environment_ st).
Proof.
  intros Hwf Hcur HV Hquiet Hrun.
  set (b := List.length (heap st)) in *.
  set (cur := environment_ st) in *.
  assert (HInv0 : Inv false x b (enter_block st)).
  { split; [apply alloc_wf; assumption |]. split; [| discriminate].
    apply above_here. cbn. rewrite length_app. cbn. lia. }
  destruct (proj1 (RecPres_rec_at false x b stoi stod fuel) V _ _ _ _ HInv0
              ltac:(constructor) HV) as [(Hwf1 & Habove1 & _) Hext1].
  pose proof (proj1 (RecKeeps_rec_at stoi stod fuel) V _ _ _ _ HV) as Henv1.
  cbn [enter_block environment_] in Henv1. fold b in Henv1.
  assert (Hb1 : b < List.length (heap st1)) by (eapply above_base_lt; eauto).
  destruct (lookup_lt_is_Some_2 _ _ Hb1) as [eb Heb].
  set (st2 := mkInterpreter (Interp.store_var (heap st1) b x v) b (globals_ st1)).
  assert (Hst2b : heap st2 !! b =
                  Some (mkEnvironment (<[x := v]> (values_ eb)) (enclosing_ eb))).
  { cbn [st2 heap]. unfold Interp.store_var. rewrite Heb.
    apply list_lookup_insert_eq. exact Hb1. }
  assert (Hwf2 : wf_heap (heap st2)) by (apply store_var_wf; exact Hwf1).
  assert (HInv2 : Inv true x b st2).
  { split; [exact Hwf2 |]. split.
    - cbn [st2 environment_]. apply above_here.
      cbn [st2 heap]. unfold Interp.store_var. rewrite Heb, length_insert. exact Hb1.
    - intros _. eexists. split; [exact Hst2b |]. cbn. rewrite lookup_insert_eq. eauto. }
  assert (Hext12 : ext true x b (heap st1) (heap st2)).
  { apply store_var_ext. intros _ _. lia. }
  assert (Hcur_st : cur < List.length (heap st1)) by (unfold b in Hb1; lia).
  (* the run *)
  cbn [Interp.executeStatement] in Hrun. unfold Interp.executeLoopStatement in Hrun.
  unfold Interp.bind at 1, Interp.getEnvironment in Hrun.
  unfold Interp.bind at 1, Interp.make_shared_Environment in Hrun.
  unfold Interp.bind at 1, Interp.getEnvironment in Hrun.
  unfold Interp.bind at 1, Interp.setEnvironment in Hrun.
  cbn [heap environment_ globals_] in Hrun.
  fold (enter_block st) in Hrun.
  assert (Hdecl : Interp.executeVariableDeclaration (rec_at fuel) x (Some V)
                    (enter_block st) = (Ok tt, st2, o1)).
  { unfold Interp.executeVariableDeclaration.
    unfold Interp.bind at 1. rewrite HV.
    unfold Interp.bind, Interp.getEnvironment, Interp.define.
    rewrite Henv1, app_nil_r. reflexivity. }
  unfold Interp.bind at 1 in Hrun. rewrite Hdecl in Hrun.
  unfold Interp.bind at 1, Interp.try_catch in Hrun.
  destruct (Interp.whileLoop (rec_at fuel) condition increment body st2)
    as [[r3 st3] o3] eqn:Hloop.
  destruct (pres_whileLoop true x b (rec_at fuel)
              (RecPres_rec_at true x b stoi stod fuel) [] condition increment body
              _ _ _ _ HInv2 ltac:(constructor) Hloop) as [_ Hext23].
  assert (Hend : heap st' = heap st3 /\
                 ((r = Ok tt \/ exists w : Value, r = Throw (Return w)) ->
                  environment_ st' = cur)).
  { destruct r3 as [[] | e | |].
    - cbn in Hrun. injection Hrun as <- <- <-. split; reflexivity.
    - destruct e; cbn in Hrun; injection Hrun as <- <- <-;
        (split; [reflexivity |]); try reflexivity;
        intros [H | [w H]]; discriminate H.
    - cbn in Hrun. injection Hrun as <- <- <-. split; [reflexivity |].
      intros [H | [w H]]; discriminate H.
    - cbn in Hrun. injection Hrun as <- <- <-. split; [reflexivity |].
      intros [H | [w H]]; discriminate H. }
  destruct Hend as [Hheap Henv]. split; [| exact Henv].
  rewrite Hheap.
  rewrite (lookup_var_ext x b (heap st2) (heap st3) cur Hwf2 Hext23) by
    (try exact Hcur; cbn [st2 heap]; unfold Interp.store_var;
     rewrite Heb, length_insert; exact Hcur_st).
  rewrite (lookup_var_ext x b (heap st1) (heap st2) cur Hwf1 Hext12 Hcur Hcur_st).
  exact Hquiet.
Qed.

End LoopFacts.

Lemma loop_variable_scoped_witness :
  fst (fst (run_statement counting_loop outer_x_is_1)) = Ok tt /\
  Interp.lookup_var (heap (snd (fst (run_statement counting_loop outer_x_is_1))))
    (environment_ outer_x_is_1) "x" = Some (VInteger 1) /\
  environment_ (snd (fst (run_statement counting_loop outer_x_is_1))) =
    environment_ outer_x_is_1.
Proof.
  split; [vm_compute; reflexivity |].
  destruct (run_statement counting_loop outer_x_is_1) as [[r st'] o] eqn:Hrun.
  assert (Hr : r = Ok tt).
  { apply (f_equal (fun t => fst (fst t))) in Hrun. vm_compute in Hrun.
    symmetry. exact Hrun. }
  destruct (loop_variable_scoped Std.stoi Std.stod 4 "x" (lit 0)
              (Some (BinaryExpression LESS (Identifier "x") (lit 2)))
              (Some (BinaryExpression ASSIGN (Identifier "x")
                       (BinaryExpression PLUS (Identifier "x") (lit 1))))
              []
              outer_x_is_1
              (snd (fst (Interp.r_evaluateExpression (Interp.rec_at Std.stoi Std.stod 4)
                           (lit 0) (enter_block outer_x_is_1))))
              st' (VInteger 0) [] o r wf_heap_outer)
    as (Hlookup & Henv).
  - cbn. lia.
  - vm_compute. reflexivity.
  - vm_compute. reflexivity.
  - exact Hrun.
  - cbn [fst snd]. split.
    + rewrite Hlookup. vm_compute. reflexivity.
    + rewrite Henv; [reflexivity |]. left. exact Hr.
Defined.

(** ** Whole programs *)

Section ProgramFacts.

Local Open Scope nat_scope.

Variable stoi : string -> option (Z * nat).
Variable stod : string -> option double.

Abbreviation rec_at := (Interp.rec_at stoi stod).

(** X17.  A runtime error inside [d] nested blocks is reported once by
    every enclosing block on its way out: [executeBlock] prints the
    diagnostic to the error stream and rethrows.  An undefined variable
    at depth [d] gives [d] copies of the diagnostic, the error still
    propagates, and the scope that was current is current again. *)
Theorem nested_error_reported_per_block (x : string) (d : nat) :
  forall st : Interpreter,
    wf_heap (heap st) ->
    environment_ st < List.length (heap st) ->
    Interp.lookup_var (heap st) (environment_ st) x = None ->
    exists st' : Interpreter,
      Interp.executeStatement (rec_at (S d))
        (nested d (ExpressionStatement (Identifier x))) st =
      (Throw (RuntimeError (undefined_variable x)), st',
       replicate d (Cerr ("Runtime Error: " +:+ undefined_variable x +:+ endl))) /\
      environment_ st' = environment_ st.
Proof.
  induction d as [| d IH]; intros st Hwf Hcur Hnone.
  - exists st. cbn [nested Interp.executeStatement].
    unfold Interp.executeExpressionStatement.
    cbn [Interp.rec_at Interp.step Interp.r_evaluateExpression Interp.evaluateExpression].
    unfold Interp.evaluateIdentifier, Interp.bind, Interp.getEnvironment, Interp.get.
    rewrite Hnone. split; reflexivity.
  - destruct (IH (enter_block st)) as (st1 & Hinner & Henv1).
    + apply alloc_wf; assumption.
    + cbn. rewrite length_app. cbn. lia.
    + cbn [enter_block heap environment_].
      rewrite lookup_var_fresh_scope by assumption. exact Hnone.
    + exists (mkInterpreter (heap st1) (environment_ st) (globals_ st1)).
      cbn [nested Interp.executeStatement].
      unfold Interp.bind at 1, Interp.getEnvironment.
      unfold Interp.bind at 1, Interp.make_shared_Environment.
      change (Interp.r_executeBlock (rec_at (S (S d))))
        with (Interp.executeBlock (rec_at (S d))).
      unfold Interp.executeBlock.
      unfold Interp.bind at 1, Interp.getEnvironment.
      unfold Interp.bind at 1, Interp.try_catch.
      unfold Interp.bind at 1, Interp.setEnvironment at 1.
      cbn [heap environment_ globals_ Interp.executeStatements].
      fold (enter_block st).
      unfold Interp.bind at 1. rewrite Hinner.
      cbn. split; [| reflexivity].
      rewrite <- replicate_cons_app. reflexivity.
Qed.

(** X18.  [interpret] lets no exception out, and when it returns the
    scope that was current before is current again. *)
Theorem interpret_outcome (fuel : nat) (program : list Statement)
    (st st' : Interpreter) (r : Outcome unit) (o : list Event) :
  Interp.interpret stoi stod fuel program st = (r, st', o) ->
  (forall e : Exception, r <> Throw e) /\
  (r = Ok tt -> environment_ st' = environment_ st).
Proof.
  intros Hrun. unfold Interp.interpret, Interp.try_catch in Hrun.
  unfold Interp.bind at 1, Interp.getEnvironment in Hrun.
  destruct (Interp.r_executeBlock (rec_at fuel) program (environment_ st) st)
    as [[r1 st1] o1] eqn:Hblock.
  pose proof (proj1 (proj2 (RecKeeps_rec_at stoi stod fuel)) program (environment_ st)
                _ _ _ _ Hblock) as Hrestore.
  destruct r1 as [[] | e | |]; cbn in Hrun.
  - injection Hrun as <- <- <-. split; [discriminate |].
    intros _. apply Hrestore. left. eauto.
  - destruct e; cbn in Hrun; injection Hrun as <- <- <-;
      (split; [discriminate |]); intros _; apply Hrestore; right; eauto.
  - injection Hrun as <- <- <-. split; discriminate.
  - injection Hrun as <- <- <-. split; discriminate.
Qed.

(** X19.  [main] returns 1 exactly when the parser throws: no error of
    the interpretation reaches the exit status. *)
Theorem exit_status_1_iff_parse_error (fuel : nat) (source : string) :
  exit_status (main stoi stod fuel source) = Exited 1 <->
  exists (parser p : Parser) (e : Exception),
    Parse.new stod (Lex.new source) = (Ok tt, parser) /\
    Parse.parse stod fuel parser = (Throw e, p).
Proof.
  unfold main.
  destruct (Parse.new stod (Lex.new source)) as [[[] | e0 | |] parser] eqn:Hnew.
  - destruct (Parse.parse stod fuel parser) as [[program | e | |] p] eqn:Hparse.
    + destruct (Interp.interpret stoi stod fuel program Interp.new)
        as [[r st1] evs] eqn:Hrun.
      pose proof (interpret_never_throws stoi stod fuel program Interp.new) as Hnothrow.
      rewrite Hrun in Hnothrow. cbn [fst] in Hnothrow.
      split.
      * destruct r as [[] | e | |]; cbn; try discriminate.
        destruct (Hnothrow e eq_refl).
      * intros (parser' & p' & e & H1 & H2).
        injection H1 as <-. rewrite Hparse in H2. discriminate H2.
    + split; [| reflexivity]. intros _. exists parser, p, e. split; [reflexivity | exact Hparse].
    + split; [discriminate |]. intros (parser' & p' & e & H1 & H2).
      injection H1 as <-. rewrite Hparse in H2. discriminate H2.
    + split; [discriminate |]. intros (parser' & p' & e & H1 & H2).
      injection H1 as <-. rewrite Hparse in H2. discriminate H2.
  - split; [discriminate |]. intros (parser' & p' & e & H1 & _). discriminate H1.
  - split; [discriminate |]. intros (parser' & p' & e & H1 & _). discriminate H1.
  - split; [discriminate |]. intros (parser' & p' & e & H1 & _). discriminate H1.
Qed.

(** The statements loop of [parse] stops at once when the lexer is
    exhausted, whatever the current token is. *)
Lemma parse_exhausted (fuel : nat) (parser : Parser) :
  Lex.isEOF (lexer_ parser) = true ->
  Parse.parse stod (S fuel) parser = (Ok [], parser).
Proof.
  intros Heof. unfold Parse.parse, Parse.parse_with. cbn [Parse.statements_loop].
  unfold Parse.bind, Parse.lexer_isEOF. rewrite Heof. reflexivity.
Qed.

(** The empty source is the empty program. *)
Lemma main_empty_source (fuel : nat) :
  main stoi stod (S fuel) EmptyString = mkRun (Exited 0) EmptyString EmptyString.
Proof.
  assert (Hnew : Parse.new stod (Lex.new EmptyString) =
                 (Ok tt, snd (Parse.new stod (Lex.new EmptyString))))
    by reflexivity.
  unfold main. cbv zeta. rewrite Hnew.
  rewrite parse_exhausted by reflexivity. reflexivity.
Qed.

(** X20.  [parse] tests the lexer, not the current token, for the end of
    the input: when the constructor of the parser has read the one and
    only token of the source, the program is empty.  The token is
    dropped, whatever it is, and [main] returns 0 without output. *)
Theorem one_token_program_accepted (fuel : nat) (source : string) (parser : Parser) :
  Parse.new stod (Lex.new source) = (Ok tt, parser) ->
  Lex.isEOF (lexer_ parser) = true ->
  Parse.parse stod (S fuel) parser = (Ok [], parser) /\
  main stoi stod (S fuel) source = mkRun (Exited 0) EmptyString EmptyString.
Proof.
  intros Hnew Heof.
  pose proof (parse_exhausted fuel parser Heof) as Hparse.
  split; [exact Hparse |].
  unfold main. rewrite Hnew, Hparse. reflexivity.
Qed.

End ProgramFacts.

(** [y;] inside two blocks, where [y] is not defined. *)
Lemma nested_error_reported_per_block_witness :
  exists st' : Interpreter,
    Interp.executeStatement (Interp.rec_at Std.stoi Std.stod 3)
      (nested 2 (ExpressionStatement (Identifier "y"))) outer_x_is_1 =
    (Throw (RuntimeError (undefined_variable "y")), st',
     replicate 2 (Cerr ("Runtime Error: " +:+ undefined_variable "y" +:+ endl))) /\
    environment_ st' = environment_ outer_x_is_1.
Proof.
  apply (nested_error_reported_per_block Std.stoi Std.stod "y" 2 outer_x_is_1
           wf_heap_outer).
  - cbn. lia.
  - vm_compute. reflexivity.
Defined.

(** The program [var z;] run from the state where [x] is 1. *)
Lemma interpret_outcome_witness :
  environment_
    (snd (fst (Interp.interpret Std.stoi Std.stod 4 [VariableDeclaration "z" None]
                 outer_x_is_1)))
  = environment_ outer_x_is_1.
Proof.
  destruct (Interp.interpret Std.stoi Std.stod 4 [VariableDeclaration "z" None]
              outer_x_is_1) as [[r st'] o] eqn:Hrun.
  assert (Hr : r = Ok tt).
  { apply (f_equal (fun t => fst (fst t))) in Hrun. vm_compute in Hrun.
    symmetry. exact Hrun. }
  destruct (interpret_outcome Std.stoi Std.stod 4 [VariableDeclaration "z" None]
              outer_x_is_1 st' r o Hrun) as [_ Henv].
  cbn [fst snd]. apply Henv. exact Hr.
Defined.

(** The source [}]. *)
Lemma one_token_program_accepted_witness :
  main Std.stoi Std.stod 1 "}" = mkRun (Exited 0) EmptyString EmptyString.
Proof.
  apply (one_token_program_accepted Std.stoi Std.stod 0 "}"
           (snd (Parse.new Std.stod (Lex.new "}")))).
  - vm_compute. reflexivity.
  - vm_compute. reflexivity.
Defined.

(** ** The lexer: bounds and progress *)

Section LexerBounds.

Local Open Scope nat_scope.

Variable stod : string -> option double.

Lemma moved_refl (lx : Lexer) : within lx -> moved 0 lx lx.
Proof. intros H. split; [reflexivity |]. split; [reflexivity |]. split; [lia | exact H]. Qed.

Lemma moved_trans (j k : nat) (a b c : Lexer) :
  moved j a b -> moved k b c -> moved (j + k) a c.
Proof.
  intros (Hs1 & Hb1 & Hc1 & Hw1) (Hs2 & Hb2 & Hc2 & Hw2).
  split; [congruence |]. split; [congruence |]. split; [lia | exact Hw2].
Qed.

Lemma moved_weaken (j k : nat) (a b : Lexer) : k <= j -> moved j a b -> moved k a b.
Proof.
  intros Hle (Hs & Hb & Hc & Hw).
  split; [exact Hs |]. split; [exact Hb |]. split; [lia | exact Hw].
Qed.

Lemma isAtEnd_false (lx : Lexer) :
  Lex.isAtEnd lx = false <-> current_ lx < String.length (source_ lx).
Proof. unfold Lex.isAtEnd. rewrite Nat.leb_gt. reflexivity. Qed.

Lemma peek_not_NUL (lx : Lexer) : Lex.peek lx <> Lex.NUL -> Lex.isAtEnd lx = false.
Proof. unfold Lex.peek. destruct (Lex.isAtEnd lx); congruence. Qed.

Lemma advance_moved (lx : Lexer) :
  Lex.isAtEnd lx = false -> moved 1 lx (snd (Lex.advance lx)).
Proof.
  intros Hend. apply isAtEnd_false in Hend. unfold Lex.advance.
  destruct (Ascii.eqb _ Lex.LF); repeat split; unfold within; cbn; lia.
Qed.

Lemma match_moved (c : ascii) (lx : Lexer) :
  within lx ->
  moved (if fst (Lex.match_ c lx) then 1 else 0) lx (snd (Lex.match_ c lx)).
Proof.
  intros Hw. unfold Lex.match_.
  destruct (Lex.isAtEnd lx) eqn:Hend; cbn [orb fst snd].
  - apply moved_refl. exact Hw.
  - apply isAtEnd_false in Hend.
    destruct (negb _); cbn [fst snd].
    + apply moved_refl. exact Hw.
    + repeat split; unfold within; cbn; lia.
Qed.

Lemma advance_while_moved (p : ascii -> bool) (n : nat) :
  p Lex.NUL = false ->
  forall lx : Lexer, within lx -> moved 0 lx (Lex.advance_while p n lx).
Proof.
  intros Hp. induction n as [| n IH]; intros lx Hw; cbn [Lex.advance_while].
  - apply moved_refl. exact Hw.
  - destruct (p (Lex.peek lx)) eqn:Hpeek; [| apply moved_refl; exact Hw].
    assert (Hend : Lex.isAtEnd lx = false).
    { apply peek_not_NUL. intros Heq. rewrite Heq in Hpeek. congruence. }
    pose proof (advance_moved lx Hend) as H1.
    apply (moved_weaken 1 0); [lia |].
    change 1 with (1 + 0). eapply moved_trans; [exact H1 |].
    apply IH. apply H1.
Qed.

Lemma skipComment_moved (n : nat) :
  forall lx : Lexer, within lx -> moved 0 lx (Lex.skipComment_loop n lx).
Proof.
  induction n as [| n IH]; intros lx Hw; cbn [Lex.skipComment_loop].
  - apply moved_refl. exact Hw.
  - destruct (Lex.isAtEnd lx) eqn:Hend.
    + rewrite andb_false_r. apply moved_refl. exact Hw.
    + destruct (negb _); cbn [andb negb]; [| apply moved_refl; exact Hw].
      pose proof (advance_moved lx Hend) as H1.
      apply (moved_weaken 1 0); [lia |].
      change 1 with (1 + 0). eapply moved_trans; [exact H1 |].
      apply IH. apply H1.
Qed.

Lemma skipWhitespace_moved (n : nat) :
  forall lx : Lexer, within lx -> moved 0 lx (Lex.skipWhitespace_loop n lx).
Proof.
  induction n as [| n IH]; intros lx Hw; cbn [Lex.skipWhitespace_loop].
  - apply moved_refl. exact Hw.
  - assert (Hstep : forall c : ascii, c <> Lex.NUL -> Lex.peek lx = c ->
                      moved 0 lx (Lex.skipWhitespace_loop n (snd (Lex.advance lx)))).
    { intros c Hc Hpeek.
      assert (Hend : Lex.isAtEnd lx = false).
      { apply peek_not_NUL. congruence. }
      pose proof (advance_moved lx Hend) as H1.
      apply (moved_weaken 1 0); [lia |].
      change 1 with (1 + 0). eapply moved_trans; [exact H1 |].
      apply IH. apply H1. }
    destruct (Ascii.eqb (Lex.peek lx) " ") eqn:H1.
    { cbn [orb]. apply Ascii.eqb_eq in H1. eapply Hstep; [| exact H1]. discriminate. }
    destruct (Ascii.eqb (Lex.peek lx) Lex.CR) eqn:H2.
    { cbn [orb]. apply Ascii.eqb_eq in H2. eapply Hstep; [| exact H2]. discriminate. }
    destruct (Ascii.eqb (Lex.peek lx) Lex.TAB) eqn:H3.
    { cbn [orb]. apply Ascii.eqb_eq in H3. eapply Hstep; [| exact H3]. discriminate. }
    cbn [orb].
    destruct (Ascii.eqb (Lex.peek lx) Lex.LF) eqn:H4.
    { apply Ascii.eqb_eq in H4. eapply Hstep; [| exact H4]. discriminate. }
    destruct (Ascii.eqb (Lex.peek lx) "/"); [| apply moved_refl; exact Hw].
    destruct (Ascii.eqb (Lex.peekNext lx) "/"); [| apply moved_refl; exact Hw].
    pose proof (skipComment_moved (String.length (source_ lx)) lx Hw) as Hc.
    change 0 with (0 + 0). eapply moved_trans; [exact Hc |].
    apply IH. apply Hc.
Qed.

Lemma scanString_loop_moved (n : nat) :
  forall lx : Lexer, within lx -> moved 0 lx (Lex.scanString_loop n lx).
Proof.
  induction n as [| n IH]; intros lx Hw; cbn [Lex.scanString_loop].
  - apply moved_refl. exact Hw.
  - destruct (Lex.isAtEnd lx) eqn:Hend.
    + rewrite andb_false_r. apply moved_refl. exact Hw.
    + destruct (negb _); cbn [andb negb]; [| apply moved_refl; exact Hw].
      set (lx1 := if Ascii.eqb (Lex.peek lx) Lex.LF then _ else lx).
      assert (H01 : moved 0 lx lx1 /\ Lex.isAtEnd lx1 = false).
      { unfold lx1. destruct (Ascii.eqb (Lex.peek lx) Lex.LF).
        - split; [| exact Hend]. repeat split; unfold within; cbn; auto. lia.
        - split; [apply moved_refl; exact Hw | exact Hend]. }
      destruct H01 as [H01 Hend1].
      pose proof (advance_moved lx1 Hend1) as H1.
      apply (moved_weaken (0 + (1 + 0)) 0); [lia |].
      eapply moved_trans; [exact H01 |].
      eapply moved_trans; [exact H1 |].
      apply IH. apply H1.
Qed.

(** [scanIdentifier] either leaves the buffer alone or, for [loop(],
    consumes the parenthesis and buffers one token. *)
Lemma scanIdentifier_moved (lx : Lexer) :
  within lx ->
  let lx' := snd (Lex.scanIdentifier lx) in
  moved 0 lx lx' \/
  (source_ lx' = source_ lx /\ current_ lx + 1 <= current_ lx' /\ within lx' /\
   List.length (tokenBuffer_ lx') = S (List.length (tokenBuffer_ lx))).
Proof.
  intros Hw. unfold Lex.scanIdentifier.
  set (lx1 := Lex.advance_while _ _ lx).
  assert (H1 : moved 0 lx lx1).
  { apply advance_while_moved; [reflexivity | exact Hw]. }
  destruct (String.eqb (Lex.text_of lx1) "loop" && Ascii.eqb (Lex.peek lx1) "(") eqn:Hloop.
  - right. apply andb_prop in Hloop as [_ Hparen]. apply Ascii.eqb_eq in Hparen.
    assert (Hend : Lex.isAtEnd lx1 = false).
    { apply peek_not_NUL. rewrite Hparen. discriminate. }
    pose proof (advance_moved lx1 Hend) as (Hs2 & Hb2 & Hc2 & Hw2).
    destruct H1 as (Hs1 & Hb1 & Hc1 & Hw1).
    cbn [snd Lex.set_start Lex.push_token source_ current_ tokenBuffer_].
    unfold within. cbn [source_ current_].
    rewrite length_app. cbn [List.length].
    repeat split; try congruence; try lia.
    + unfold within in Hw2. exact Hw2.
    + rewrite Hb2, Hb1. lia.
  - left.
    destruct (Lex.identifierType lx1); exact H1.
Qed.

Lemma scanNumber_moved (lx : Lexer) :
  within lx -> moved 0 lx (snd (Lex.scanNumber stod lx)).
Proof.
  intros Hw. unfold Lex.scanNumber.
  set (lx1 := Lex.advance_while Lex.isdigit _ lx).
  assert (H1 : moved 0 lx lx1).
  { apply advance_while_moved; [reflexivity | exact Hw]. }
  set (lx2 := if Ascii.eqb (Lex.peek lx1) "." && Lex.isdigit (Lex.peekNext lx1)
              then _ else lx1).
  assert (H2 : moved 0 lx lx2).
  { unfold lx2.
    destruct (Ascii.eqb (Lex.peek lx1) "." && Lex.isdigit (Lex.peekNext lx1)) eqn:Hdot;
      [| exact H1].
    apply andb_prop in Hdot as [Hdot _]. apply Ascii.eqb_eq in Hdot.
    assert (Hend : Lex.isAtEnd lx1 = false).
    { apply peek_not_NUL. rewrite Hdot. discriminate. }
    pose proof (advance_moved lx1 Hend) as Ha.
    apply (moved_weaken (0 + (1 + 0)) 0); [lia |].
    eapply moved_trans; [exact H1 |].
    eapply moved_trans; [exact Ha |].
    apply advance_while_moved; [reflexivity | apply Ha]. }
  destruct (stod (Lex.text_of lx2)); exact H2.
Qed.

Lemma scanString_moved (lx : Lexer) :
  within lx -> moved 0 lx (snd (Lex.scanString lx)).
Proof.
  intros Hw. unfold Lex.scanString.
  set (lx1 := Lex.scanString_loop _ lx).
  assert (H1 : moved 0 lx lx1) by (apply scanString_loop_moved; exact Hw).
  destruct (Lex.isAtEnd lx1) eqn:Hend; [exact H1 |].
  cbn [snd].
  pose proof (advance_moved lx1 Hend) as Ha.
  apply (moved_weaken (0 + 1) 0); [lia |].
  eapply moved_trans; [exact H1 | exact Ha].
Qed.

Lemma two_char_moved (c : ascii) (t1 : TokenType) (s1 : string) (t2 : TokenType)
    (s2 : string) (lx : Lexer) :
  within lx -> moved 0 lx (snd (Lex.two_char c t1 s1 t2 s2 lx)).
Proof.
  intros Hw. unfold Lex.two_char.
  pose proof (match_moved c lx Hw) as H.
  destruct (Lex.match_ c lx) as [m lx1]. cbn [fst snd] in H.
  destruct m; cbn [snd]; [eapply moved_weaken; [| exact H]; lia | exact H].
Qed.

(** After its first character [scanToken] consumes what the token
    needs: the position does not go back, stays inside the source, and
    the buffer grows by one token only together with one more consumed
    character. *)
Lemma scanToken_moved (lx : Lexer) :
  Lex.isAtEnd lx = false ->
  let lx' := snd (Lex.scanToken stod lx) in
  source_ lx' = source_ lx /\ within lx' /\
  ((current_ lx + 1 <= current_ lx' /\ tokenBuffer_ lx' = tokenBuffer_ lx) \/
   (current_ lx + 2 <= current_ lx' /\
    List.length (tokenBuffer_ lx') = S (List.length (tokenBuffer_ lx)))).
Proof.
  intros Hend.
  pose proof (advance_moved lx Hend) as Ha.
  unfold Lex.scanToken.
  destruct (Lex.advance lx) as [c lx1]. cbn [snd] in Ha.
  assert (Hw1 : within lx1) by apply Ha.
  assert (Hsimple : forall lx2 : Lexer, moved 0 lx1 lx2 ->
            source_ lx2 = source_ lx /\ within lx2 /\
            ((current_ lx + 1 <= current_ lx2 /\ tokenBuffer_ lx2 = tokenBuffer_ lx) \/
             (current_ lx + 2 <= current_ lx2 /\
              List.length (tokenBuffer_ lx2) = S (List.length (tokenBuffer_ lx))))).
  { intros lx2 H2.
    destruct (moved_trans _ _ _ _ _ Ha H2) as (Hs & Hb & Hc & Hw).
    split; [exact Hs |]. split; [exact Hw |]. left. split; [lia | exact Hb]. }
  repeat match goal with
         | |- context [if ?b then _ else _] =>
             destruct b;
             [ first [ apply Hsimple; cbn [snd fst];
                       first [ apply moved_refl; exact Hw1
                             | apply two_char_moved; exact Hw1
                             | apply scanString_moved; exact Hw1
                             | apply scanNumber_moved; exact Hw1 ]
                     | idtac ] | ]
         end.
  - cbn [snd fst].
    destruct (scanIdentifier_moved lx1 Hw1) as [H2 | (Hs2 & Hc2 & Hw2 & Hb2)].
    + apply Hsimple. exact H2.
    + destruct Ha as (Hs & Hb & Hc & _).
      split; [congruence |]. split; [exact Hw2 |]. right.
      split; [lia |]. rewrite Hb2, Hb. reflexivity.
  - apply Hsimple. cbn [snd]. apply moved_refl. exact Hw1.
Qed.

(** X21.  [nextToken] never changes the source, never moves backwards
    and never runs past the end of the source; as long as text other
    than blanks and comments is left, every call strictly decreases what
    is pending (the characters not yet consumed plus the buffered
    tokens). *)
Theorem nextToken_progress (lx : Lexer) :
  within lx ->
  let lx' := snd (Lex.nextToken stod lx) in
  source_ lx' = source_ lx /\
  current_ lx <= current_ lx' <= String.length (source_ lx) /\
  (Lex.isAtEnd (Lex.skipWhitespace lx) = false -> pending lx' < pending lx).
Proof.
  intros Hw.
  pose proof (skipWhitespace_moved (S (String.length (source_ lx))) lx Hw) as Hskip.
  fold (Lex.skipWhitespace lx) in Hskip.
  unfold Lex.nextToken.
  set (lx1 := Lex.set_start _ _).
  assert (H1 : moved 0 lx lx1).
  { destruct Hskip as (Hs & Hb & Hc & Hw'). repeat split; auto. }
  assert (Hend1 : Lex.isAtEnd lx1 = Lex.isAtEnd (Lex.skipWhitespace lx)) by reflexivity.
  destruct H1 as (Hs1 & Hb1 & Hc1 & Hw1).
  assert (Hw1' := Hw1). unfold within in Hw1'. rewrite Hs1 in Hw1'.
  destruct (Lex.isAtEnd lx1) eqn:Hend.
  - cbn [snd]. split; [exact Hs1 |]. split; [lia |].
    intros H. rewrite <- Hend1 in H. discriminate H.
  - apply isAtEnd_false in Hend as Hlt. rewrite Hs1 in Hlt.
    destruct (tokenBuffer_ lx1) as [| t rest] eqn:Hbuf.
    + destruct (scanToken_moved lx1 Hend) as (Hs2 & Hw2 & Hcase).
      unfold within in Hw2. rewrite Hs2, Hs1 in Hw2.
      split; [congruence |].
      split; [destruct Hcase as [[Hc _] | [Hc _]]; lia |].
      intros _. unfold pending. rewrite Hs2, Hs1.
      rewrite <- Hb1. rewrite Hbuf in Hcase.
      destruct Hcase as [[Hc ->] | [Hc ->]]; cbn [List.length]; lia.
    + cbn [snd source_ current_]. split; [exact Hs1 |]. split; [lia |].
      intros _. unfold pending. cbn [source_ current_ tokenBuffer_].
      rewrite Hs1, <- Hb1. cbn [List.length]. lia.
Qed.

(** X22.  Once only blanks and comments are left, [nextToken] returns
    the [EOF] token, and every later call returns the same token from
    the same state. *)
Theorem nextToken_EOF_forever (lx : Lexer) :
  Lex.isAtEnd (Lex.skipWhitespace lx) = true ->
  exists (t : Token) (lx' : Lexer),
    Lex.nextToken stod lx = (inl t, lx') /\
    tok_type t = EOF_TOKEN /\
    Lex.nextToken stod lx' = (inl t, lx').
Proof.
  intros Hend. unfold Lex.nextToken at 1.
  set (lx1 := Lex.set_start _ _).
  assert (Hend1 : Lex.isAtEnd lx1 = true) by exact Hend.
  rewrite Hend1. eexists _, lx1. split; [reflexivity |]. split; [reflexivity |].
  assert (Hskip : Lex.skipWhitespace lx1 = lx1).
  { unfold Lex.skipWhitespace. cbn [Lex.skipWhitespace_loop].
    unfold Lex.peek. rewrite Hend1. reflexivity. }
  unfold Lex.nextToken. rewrite Hskip.
  assert (Hstart : Lex.set_start lx1 (current_ lx1) = lx1) by reflexivity.
  rewrite Hstart, Hend1. reflexivity.
Qed.

End LexerBounds.

(** The first call on [ab cd]. *)
Lemma nextToken_progress_witness :
  (pending (snd (Lex.nextToken Std.stod (Lex.new "ab cd"))) < pending (Lex.new "ab cd"))%nat.
Proof.
  pose proof (nextToken_progress Std.stod (Lex.new "ab cd")) as H.
  cbv zeta in H. destruct H as (_ & _ & H).
  - unfold within. cbn. lia.
  - apply H. reflexivity.
Defined.

(** A source of two spaces. *)
Lemma nextToken_EOF_forever_witness :
  exists (t : Token) (lx' : Lexer),
    Lex.nextToken Std.stod (Lex.new "  ") = (inl t, lx') /\
    tok_type t = EOF_TOKEN /\
    Lex.nextToken Std.stod lx' = (inl t, lx').
Proof. apply nextToken_EOF_forever. reflexivity. Defined.

(** ** The lexer: blanks and comments *)

Section LexerBlanks.

Local Open Scope nat_scope.

Lemma peek_char_at (lx : Lexer) :
  Lex.isAtEnd lx = false -> Lex.peek lx = Lex.char_at (source_ lx) (current_ lx).
Proof. intros H. unfold Lex.peek. rewrite H. reflexivity. Qed.

Lemma advance_fields (lx : Lexer) :
  source_ (snd (Lex.advance lx)) = source_ lx /\
  current_ (snd (Lex.advance lx)) = S (current_ lx) /\
  tokenBuffer_ (snd (Lex.advance lx)) = tokenBuffer_ lx.
Proof. unfold Lex.advance. destruct (Ascii.eqb _ Lex.LF); repeat split. Qed.

Lemma skipComment_loop_stops (n : nat) :
  forall lx : Lexer,
    within lx -> String.length (source_ lx) - current_ lx <= n ->
    let lx' := Lex.skipComment_loop n lx in
    source_ lx' = source_ lx /\
    tokenBuffer_ lx' = tokenBuffer_ lx /\
    current_ lx <= current_ lx' <= String.length (source_ lx) /\
    (current_ lx' = String.length (source_ lx) \/
     Lex.char_at (source_ lx) (current_ lx') = Lex.LF) /\
    (forall i : nat, current_ lx <= i < current_ lx' ->
       Lex.char_at (source_ lx) i <> Lex.LF).
Proof.
  induction n as [| n IH]; intros lx Hw Hn; cbn [Lex.skipComment_loop]; cbv zeta.
  - unfold within in Hw.
    split; [reflexivity |]. split; [reflexivity |]. split; [lia |].
    split; [left; lia | intros i Hi; lia].
  - destruct (Lex.isAtEnd lx) eqn:Hend.
    + rewrite andb_false_r. unfold within in Hw.
      apply Nat.leb_le in Hend.
      split; [reflexivity |]. split; [reflexivity |]. split; [lia |].
      split; [left; lia | intros i Hi; lia].
    + rewrite (peek_char_at lx Hend). cbn [negb andb].
      rewrite andb_true_r.
      destruct (Ascii.eqb (Lex.char_at (source_ lx) (current_ lx)) Lex.LF) eqn:Hlf;
        cbn [negb].
      * apply Ascii.eqb_eq in Hlf. apply isAtEnd_false in Hend.
        split; [reflexivity |]. split; [reflexivity |]. split; [lia |].
        split; [right; exact Hlf | intros i Hi; lia].
      * apply isAtEnd_false in Hend as Hlt.
        destruct (advance_fields lx) as (Hs1 & Hc1 & Hb1).
        destruct (IH (snd (Lex.advance lx))) as (Hs & Hb & Hc & Hstop & Hskipped).
        { unfold within. rewrite Hs1, Hc1. lia. }
        { rewrite Hs1, Hc1. lia. }
        rewrite Hs1, Hc1 in *.
        split; [exact Hs |]. split; [congruence |]. split; [lia |].
        split; [exact Hstop |].
        intros i Hi. destruct (decide (i = current_ lx)) as [-> | Hne].
        -- intros Heq. rewrite Heq in Hlf. discriminate Hlf.
        -- apply Hskipped. lia.
Qed.

(** X23.  A comment extends to the end of its line: [skipComment]
    stops at the first line feed or at the end of the source, consumes
    no line feed, and leaves the source and the buffer alone. *)
Theorem skipComment_stops_at_newline (lx : Lexer) :
  within lx ->
  let lx' := Lex.skipComment lx in
  source_ lx' = source_ lx /\
  tokenBuffer_ lx' = tokenBuffer_ lx /\
  current_ lx <= current_ lx' <= String.length (source_ lx) /\
  (current_ lx' = String.length (source_ lx) \/
   Lex.char_at (source_ lx) (current_ lx') = Lex.LF) /\
  (forall i : nat, current_ lx <= i < current_ lx' ->
     Lex.char_at (source_ lx) i <> Lex.LF).
Proof.
  intros Hw. unfold Lex.skipComment. apply skipComment_loop_stops; [exact Hw | lia].
Qed.



End LexerBlanks.

(** [ab], a line feed, [c]: the comment ends at the line feed. *)
Lemma skipComment_stops_at_newline_witness :
  current_ (Lex.skipComment (Lex.new (String "a" (String "b" (String Lex.LF "c")))))
    = String.length (String "a" (String "b" (String Lex.LF "c"))) \/
  Lex.char_at (String "a" (String "b" (String Lex.LF "c")))
    (current_ (Lex.skipComment (Lex.new (String "a" (String "b" (String Lex.LF "c"))))))
    = Lex.LF.
Proof.
  pose proof (skipComment_stops_at_newline
                (Lex.new (String "a" (String "b" (String Lex.LF "c"))))) as H.
  cbv zeta in H. destruct H as (_ & _ & _ & H & _).
  - unfold within. cbn. lia.
  - exact H.
Defined.


(** ** The lexer: words, strings and numbers *)

Section LexerWords.

Local Open Scope nat_scope.

Variable stod : string -> option double.

Lemma append_nil (b : string) : EmptyString +:+ b = b.
Proof. reflexivity. Qed.

Lemma append_cons (c : ascii) (a b : string) : String c a +:+ b = String c (a +:+ b).
Proof. reflexivity. Qed.

Lemma string_length_append (a b : string) :
  String.length (a +:+ b) = String.length a + String.length b.
Proof.
  induction a as [| c a IH]; [reflexivity |].
  rewrite append_cons. cbn [String.length]. rewrite IH. reflexivity.
Qed.

Lemma get_append_here (pre : string) (c : ascii) (rest : string) :
  String.get (String.length pre) (pre +:+ String c rest) = Some c.
Proof.
  induction pre as [| d pre IH]; [reflexivity |].
  rewrite append_cons. cbn [String.length String.get]. exact IH.
Qed.

Lemma get_append_end (pre : string) : String.get (String.length pre) pre = None.
Proof. induction pre as [| d pre IH]; cbn; [reflexivity | exact IH]. Qed.

Lemma substring_prefix (w suf : string) :
  String.substring 0 (String.length w) (w +:+ suf) = w.
Proof.
  induction w as [| c w IH].
  - rewrite append_nil. destruct suf; reflexivity.
  - rewrite append_cons. cbn [String.length String.substring]. rewrite IH. reflexivity.
Qed.

Lemma append_snoc (pre : string) (c : ascii) (rest : string) :
  pre +:+ String c rest = (pre +:+ String c EmptyString) +:+ rest.
Proof. rewrite append_assoc. reflexivity. Qed.

Lemma at_rest_isAtEnd (lx : Lexer) (pre rest : string) :
  at_rest lx pre rest ->
  Lex.isAtEnd lx = match rest with EmptyString => true | _ => false end.
Proof.
  intros [Hs Hc]. unfold Lex.isAtEnd. rewrite Hs, Hc, string_length_append.
  destruct rest; cbn.
  - apply Nat.leb_le. lia.
  - apply Nat.leb_gt. lia.
Qed.

Lemma at_rest_char (lx : Lexer) (pre rest : string) :
  at_rest lx pre rest ->
  Lex.char_at (source_ lx) (current_ lx) =
    match rest with EmptyString => Lex.NUL | String c _ => c end.
Proof.
  intros [Hs Hc]. unfold Lex.char_at. rewrite Hs, Hc.
  destruct rest as [| c rest].
  - rewrite append_empty_r, get_append_end. reflexivity.
  - rewrite get_append_here. reflexivity.
Qed.

Lemma at_rest_peek (lx : Lexer) (pre rest : string) :
  at_rest lx pre rest ->
  Lex.peek lx = match rest with EmptyString => Lex.NUL | String c _ => c end.
Proof.
  intros H. unfold Lex.peek.
  rewrite (at_rest_isAtEnd lx pre rest H), (at_rest_char lx pre rest H).
  destruct rest; reflexivity.
Qed.

Lemma at_rest_advance (lx : Lexer) (pre : string) (c : ascii) (rest : string) :
  at_rest lx pre (String c rest) ->
  Lex.advance lx =
    (c, if Ascii.eqb c Lex.LF
        then mkLexer (source_ lx) (S (current_ lx)) (start_ lx) (line_ lx + 1) 1
               (tokenBuffer_ lx)
        else mkLexer (source_ lx) (S (current_ lx)) (start_ lx) (line_ lx)
               (column_ lx + 1) (tokenBuffer_ lx)) /\
  at_rest (snd (Lex.advance lx)) (pre +:+ String c EmptyString) rest.
Proof.
  intros H. pose proof (at_rest_char lx pre _ H) as Hchar.
  destruct H as [Hs Hc].
  unfold Lex.advance. rewrite Hchar.
  split.
  - destruct (Ascii.eqb c Lex.LF); reflexivity.
  - unfold at_rest. rewrite string_length_append. cbn [String.length].
    destruct (Ascii.eqb c Lex.LF); cbn [snd source_ current_];
      (split; [rewrite Hs; apply append_snoc | lia]).
Qed.

(** [advance_while p] over a word of characters that satisfy [p],
    followed by a character that does not. *)
Lemma advance_while_word (p : ascii -> bool) (w suf : string) :
  p Lex.NUL = false -> p Lex.LF = false ->
  all_chars p w = true -> starts_with p suf = false ->
  forall (n : nat) (pre : string) (lx : Lexer),
    at_rest lx pre (w +:+ suf) -> String.length w <= n ->
    Lex.advance_while p n lx =
      mkLexer (source_ lx) (current_ lx + String.length w) (start_ lx) (line_ lx)
        (column_ lx + Z.of_nat (String.length w))%Z (tokenBuffer_ lx).
Proof.
  intros Hnul Hlf. induction w as [| c w IH]; intros Hall Hsuf n pre lx Hat Hn.
  - cbn [String.length]. rewrite Nat.add_0_r, Z.add_0_r.
    assert (Hlx : lx = mkLexer (source_ lx) (current_ lx) (start_ lx) (line_ lx)
                         (column_ lx) (tokenBuffer_ lx)) by (destruct lx; reflexivity).
    destruct n as [| n]; cbn [Lex.advance_while]; [exact Hlx |].
    rewrite (at_rest_peek lx pre _ Hat). rewrite append_nil.
    destruct suf as [| d suf]; cbn [starts_with] in Hsuf.
    + rewrite Hnul. exact Hlx.
    + rewrite Hsuf. exact Hlx.
  - cbn [all_chars] in Hall. apply andb_prop in Hall as [Hc Hall].
    cbn [String.length] in Hn. destruct n as [| n]; [lia |].
    cbn [Lex.advance_while]. rewrite append_cons in Hat.
    rewrite (at_rest_peek lx pre _ Hat), Hc.
    destruct (at_rest_advance lx pre c (w +:+ suf) Hat) as [Hadv Hat1].
    assert (Hnotlf : Ascii.eqb c Lex.LF = false).
    { destruct (Ascii.eqb c Lex.LF) eqn:E; [| reflexivity].
      apply Ascii.eqb_eq in E. subst c. congruence. }
    rewrite Hnotlf in Hadv. rewrite Hadv in Hat1 |- *. cbn [snd] in Hat1 |- *.
    rewrite (IH Hall Hsuf n _ _ Hat1) by lia.
    cbn [source_ current_ start_ line_ column_ tokenBuffer_ String.length].
    f_equal; lia.
Qed.

(** X25.  Maximal munch for words: a source that starts with a letter
    or an underscore followed by letters, digits and underscores gives
    that whole word as its first token, at line 1 and column 1: the
    keyword token when the word is a keyword ([true] and [false] with
    their Boolean value), an identifier with the word as its value
    otherwise.  The lexer then stands behind the word with an empty
    buffer.  (The word [loop] followed by a parenthesis is the one case
    apart.) *)
Theorem nextToken_word (c0 : ascii) (w' suf : string) :
  Lex.isalpha c0 || Ascii.eqb c0 "_" = true ->
  all_chars ident_char w' = true ->
  starts_with ident_char suf = false ->
  String.eqb (String c0 w') "loop" && starts_with (Ascii.eqb "(") suf = false ->
  let w := String c0 w' in
  Lex.nextToken stod (Lex.new (w +:+ suf)) =
    (inl (word_token w 1 1),
     mkLexer (w +:+ suf) (String.length w) 0 1 (1 + Z.of_nat (String.length w))%Z []).
Proof.
  intros Hc0 Hall Hsuf Hloop w.
  assert (Hws : Ascii.eqb c0 " " = false /\ Ascii.eqb c0 Lex.CR = false /\
                Ascii.eqb c0 Lex.TAB = false /\ Ascii.eqb c0 Lex.LF = false /\
                Ascii.eqb c0 "/" = false /\ c0 <> Lex.NUL).
  { assert (Hne : forall d : ascii,
                Lex.isalpha d || Ascii.eqb d "_" = false -> Ascii.eqb c0 d = false).
    { intros d Hd. destruct (Ascii.eqb c0 d) eqn:E; [| reflexivity].
      apply Ascii.eqb_eq in E. subst d. congruence. }
    repeat split; try (apply Hne; reflexivity).
    intros ->. discriminate Hc0. }
  destruct Hws as (Hsp & Hcr & Htab & Hlf & Hslash & Hnul).
  set (lx0 := Lex.new (w +:+ suf)).
  assert (Hat0 : at_rest lx0 EmptyString (String c0 (w' +:+ suf))).
  { split; reflexivity. }
  assert (Hskip : Lex.skipWhitespace lx0 = lx0).
  { unfold Lex.skipWhitespace. cbn [Lex.skipWhitespace_loop].
    rewrite (at_rest_peek lx0 _ _ Hat0), Hsp, Hcr, Htab, Hlf, Hslash. reflexivity. }
  unfold Lex.nextToken. rewrite Hskip.
  change (Lex.set_start lx0 (current_ lx0)) with lx0.
  rewrite (at_rest_isAtEnd lx0 _ _ Hat0).
  change (tokenBuffer_ lx0) with (@nil Token).
  unfold Lex.scanToken.
  destruct (at_rest_advance lx0 _ _ _ Hat0) as [Hadv Hat1].
  rewrite Hlf in Hadv. rewrite Hadv in Hat1 |- *. cbn [snd] in Hat1.
  rewrite Hc0. cbn [fst snd].
  set (lx1 := mkLexer _ _ _ _ _ _) in *.
  unfold Lex.scanIdentifier.
  assert (Hword : Lex.advance_while (fun c => Lex.isalnum c || Ascii.eqb c "_")
                    (String.length (source_ lx1)) lx1 =
                  mkLexer (w +:+ suf) (String.length w) 0 1
                    (1 + Z.of_nat (String.length w))%Z []).
  { rewrite (advance_while_word ident_char w' suf eq_refl eq_refl Hall Hsuf
               _ _ lx1 Hat1).
    - cbn [lx1 source_ current_ start_ line_ column_ tokenBuffer_ lx0 Lex.new].
      f_equal. unfold w. cbn [String.length]. lia.
    - cbn [lx1 source_ lx0 Lex.new]. unfold w. rewrite append_cons.
      cbn [String.length]. rewrite string_length_append. lia. }
  fold ident_char in Hword |- *. rewrite Hword.
  set (lx2 := mkLexer _ _ _ _ _ _).
  assert (Htext : Lex.text_of lx2 = w).
  { unfold Lex.text_of. cbn [lx2 start_ current_ source_].
    rewrite Nat.sub_0_r. apply substring_prefix. }
  assert (Hat2 : at_rest lx2 w suf) by (split; reflexivity).
  rewrite Htext, (at_rest_peek lx2 _ _ Hat2).
  assert (Hloop' : String.eqb w "loop" &&
                   Ascii.eqb match suf with EmptyString => Lex.NUL | String c _ => c end "("
                   = false).
  { unfold w. destruct (String.eqb (String c0 w') "loop"); [| reflexivity].
    cbn [andb] in Hloop |- *.
    destruct suf as [| d suf']; [reflexivity |]. cbn [starts_with] in Hloop.
    rewrite Ascii.eqb_sym. exact Hloop. }
  rewrite Hloop'.
  unfold Lex.identifierType. rewrite Htext.
  assert (Hcol : Lex.size_sub (column_ lx2) (Lex.strlen w) = 1%Z).
  { unfold Lex.size_sub, Lex.strlen. cbn [lx2 column_].
    replace (1 + Z.of_nat (String.length w) - Z.of_nat (String.length w))%Z with 1%Z by lia.
    reflexivity. }
  rewrite Hcol. unfold word_token, word_type. cbn [line_ lx2].
  destruct (match Lex.keywords w with Some t => t | None => IDENTIFIER end); reflexivity.
Qed.

End LexerWords.

(** [while(x)]. *)
Lemma nextToken_word_witness :
  Lex.nextToken Std.stod (Lex.new ("while" +:+ "(x)")) =
    (inl (word_token "while" 1 1),
     mkLexer ("while" +:+ "(x)") (String.length "while") 0 1
       (1 + Z.of_nat (String.length "while"))%Z []).
Proof.
  apply (nextToken_word Std.stod "w"%char "hile" "(x)"); reflexivity.
Defined.

Section LexerStrings.

Local Open Scope nat_scope.

Variable stod : string -> option double.

(** The loop of [scanString] over the text of a literal. *)
Lemma scanString_loop_text (s rest : string) :
  all_chars not_quote s = true -> starts_with not_quote rest = false ->
  forall (n : nat) (pre : string) (lx : Lexer),
    at_rest lx pre (s +:+ rest) -> String.length s <= n ->
    exists column : Z,
      Lex.scanString_loop n lx =
        mkLexer (source_ lx) (current_ lx + String.length s) (start_ lx)
          (line_ lx + 2 * Z.of_nat (count_char Lex.LF s))%Z column (tokenBuffer_ lx).
Proof.
  induction s as [| c s IH]; intros Hall Hrest n pre lx Hat Hn.
  - exists (column_ lx). cbn [String.length count_char].
    rewrite Nat.add_0_r, Z.add_0_r.
    assert (Hlx : lx = mkLexer (source_ lx) (current_ lx) (start_ lx) (line_ lx)
                         (column_ lx) (tokenBuffer_ lx)) by (destruct lx; reflexivity).
    destruct n as [| n]; cbn [Lex.scanString_loop]; [exact Hlx |].
    rewrite append_nil in Hat.
    rewrite (at_rest_peek lx pre _ Hat), (at_rest_isAtEnd lx pre _ Hat).
    destruct rest as [| d rest]; cbn [starts_with] in Hrest.
    + rewrite andb_false_r. exact Hlx.
    + unfold not_quote in Hrest. rewrite Hrest. exact Hlx.
  - cbn [all_chars] in Hall. apply andb_prop in Hall as [Hc Hall].
    cbn [String.length] in Hn. destruct n as [| n]; [lia |].
    cbn [Lex.scanString_loop]. rewrite append_cons in Hat.
    rewrite (at_rest_peek lx pre _ Hat), (at_rest_isAtEnd lx pre _ Hat).
    unfold not_quote in Hc. rewrite Hc. cbn [andb negb].
    set (lx1 := if Ascii.eqb c Lex.LF then _ else lx).
    assert (Hat1 : at_rest lx1 pre (String c (s +:+ rest))).
    { unfold lx1. destruct (Ascii.eqb c Lex.LF); [| exact Hat].
      destruct Hat as [Hs Hcur]. split; assumption. }
    destruct (at_rest_advance lx1 pre c (s +:+ rest) Hat1) as [Hadv Hat2].
    rewrite Hadv in Hat2 |- *. cbn [snd] in Hat2 |- *.
    destruct (IH Hall Hrest n _ _ Hat2 ltac:(lia)) as [col Hloop].
    exists col. rewrite Hloop. cbn [count_char String.length].
    unfold lx1. destruct (Ascii.eqb c Lex.LF);
      cbn [source_ current_ start_ line_ column_ tokenBuffer_]; f_equal; lia.
Qed.

Lemma nextToken_quote (body : string) :
  let src := String Lex.DQUOTE body in
  Lex.nextToken stod (Lex.new src) =
    (inl (fst (Lex.scanString (mkLexer src 1 0 1 2 []))),
     snd (Lex.scanString (mkLexer src 1 0 1 2 []))) /\
  at_rest (mkLexer src 1 0 1 2 []) (String Lex.DQUOTE EmptyString) body.
Proof.
  intros src. split; [| split; reflexivity].
  set (lx0 := Lex.new src).
  assert (Hat0 : at_rest lx0 EmptyString src) by (split; reflexivity).
  assert (Hskip : Lex.skipWhitespace lx0 = lx0).
  { unfold Lex.skipWhitespace. cbn [Lex.skipWhitespace_loop].
    rewrite (at_rest_peek lx0 _ _ Hat0). reflexivity. }
  destruct (at_rest_advance lx0 _ _ _ Hat0) as [Hadv _].
  change (Ascii.eqb Lex.DQUOTE Lex.LF) with false in Hadv.
  unfold Lex.nextToken. rewrite Hskip.
  change (Lex.set_start lx0 (current_ lx0)) with lx0.
  rewrite (at_rest_isAtEnd lx0 _ _ Hat0).
  change (tokenBuffer_ lx0) with (@nil Token).
  unfold Lex.scanToken. rewrite Hadv. reflexivity.
Qed.

(** X26.  A string literal is the text between two double quotes,
    taken as it is (there are no escape sequences): the token has that
    text as value and as lexeme, and the lexer stands behind the closing
    quote.  A literal whose closing quote is missing gives the error
    token [Unterminated string] with the lexer at the end of the source.
    Every line feed inside the literal advances the line number of the
    token by two. *)
Theorem nextToken_string (s suf : string) :
  all_chars not_quote s = true ->
  (exists (column : Z) (lx' : Lexer),
      Lex.nextToken stod (Lex.new (String Lex.DQUOTE (s +:+ String Lex.DQUOTE suf))) =
        (inl (Token5 STRING (TVString s) s
                (1 + 2 * Z.of_nat (count_char Lex.LF s))%Z column), lx') /\
      current_ lx' = String.length s + 2 /\ tokenBuffer_ lx' = []) /\
  (exists (column : Z) (lx' : Lexer),
      Lex.nextToken stod (Lex.new (String Lex.DQUOTE s)) =
        (inl (Token4 ERROR "Unterminated string"
                (1 + 2 * Z.of_nat (count_char Lex.LF s))%Z column), lx') /\
      Lex.isAtEnd lx' = true).
Proof.
  intros Hall. split.
  - destruct (nextToken_quote (s +:+ String Lex.DQUOTE suf)) as [Hnext Hat1].
    cbv zeta in Hnext, Hat1. rewrite Hnext. clear Hnext.
    set (src := String Lex.DQUOTE (s +:+ String Lex.DQUOTE suf)) in *.
    set (lx1 := mkLexer src 1 0 1 2 []) in *.
    destruct (scanString_loop_text s (String Lex.DQUOTE suf) Hall eq_refl
                (String.length (source_ lx1)) _ lx1 Hat1) as [col Hloop].
    { cbn [lx1 source_ src String.length]. rewrite string_length_append. lia. }
    unfold Lex.scanString. rewrite Hloop.
    cbn [lx1 source_ current_ start_ line_ column_ tokenBuffer_].
    set (lx2 := mkLexer _ _ _ _ _ _).
    assert (Hat2 : at_rest lx2 (String Lex.DQUOTE s) (String Lex.DQUOTE suf)).
    { split; [reflexivity |]. cbn [lx2 current_ String.length]. lia. }
    rewrite (at_rest_isAtEnd lx2 _ _ Hat2).
    destruct (at_rest_advance lx2 _ _ _ Hat2) as [Hadv _].
    change (Ascii.eqb Lex.DQUOTE Lex.LF) with false in Hadv.
    rewrite Hadv. cbn [fst snd lx2 source_ current_ start_ line_ column_ tokenBuffer_].
    replace (S (1 + String.length s) - 0 - 2) with (String.length s) by lia.
    assert (Hsub : String.substring (0 + 1) (String.length s) src = s).
    { unfold src. cbn [Nat.add String.substring]. apply substring_prefix. }
    rewrite Hsub. eexists _, _. split; [reflexivity |].
    cbn [current_ tokenBuffer_]. split; [lia | reflexivity].
  - destruct (nextToken_quote s) as [Hnext Hat1].
    cbv zeta in Hnext, Hat1. rewrite Hnext. clear Hnext.
    set (src := String Lex.DQUOTE s) in *.
    set (lx1 := mkLexer src 1 0 1 2 []) in *.
    rewrite <- (append_empty_r s) in Hat1.
    destruct (scanString_loop_text s EmptyString Hall eq_refl
                (String.length (source_ lx1)) _ lx1 Hat1) as [col Hloop].
    { cbn [lx1 source_ src String.length]. lia. }
    unfold Lex.scanString. rewrite Hloop.
    cbn [lx1 source_ current_ start_ line_ column_ tokenBuffer_].
    set (lx2 := mkLexer _ _ _ _ _ _).
    assert (Hat2 : at_rest lx2 (String Lex.DQUOTE s) EmptyString).
    { split; [cbn [lx2 source_]; unfold src; rewrite append_empty_r; reflexivity |].
      cbn [lx2 current_ String.length]. lia. }
    rewrite (at_rest_isAtEnd lx2 _ _ Hat2).
    cbn [fst snd]. eexists _, _. split; [reflexivity |].
    apply (at_rest_isAtEnd lx2 _ _ Hat2).
Qed.

End LexerStrings.

(** ["hi";] *)
Lemma nextToken_string_witness :
  exists (column : Z) (lx' : Lexer),
    Lex.nextToken Std.stod (Lex.new (String Lex.DQUOTE ("hi" +:+ String Lex.DQUOTE ";"))) =
      (inl (Token5 STRING (TVString "hi") "hi"
              (1 + 2 * Z.of_nat (count_char Lex.LF "hi"))%Z column), lx') /\
    current_ lx' = (String.length "hi" + 2)%nat /\ tokenBuffer_ lx' = [].
Proof.
  destruct (nextToken_string Std.stod "hi" ";") as [H _].
  - reflexivity.
  - exact H.
Defined.

Section LexerNumbers.

Local Open Scope nat_scope.

Variable stod : string -> option double.

Lemma at_rest_peekNext (lx : Lexer) (pre : string) (c : ascii) (rest : string) :
  at_rest lx pre (String c rest) ->
  Lex.peekNext lx = match rest with EmptyString => Lex.NUL | String d _ => d end.
Proof.
  intros [Hs Hc]. unfold Lex.peekNext, Lex.char_at.
  rewrite Hs, Hc, string_length_append. cbn [String.length].
  destruct rest as [| d rest].
  - cbn [String.length].
    replace (String.length pre + 1 <=? String.length pre + 1) with true; [reflexivity |].
    symmetry. apply Nat.leb_le. lia.
  - cbn [String.length].
    replace (String.length pre + S (S (String.length rest)) <=? String.length pre + 1)
      with false by (symmetry; apply Nat.leb_gt; lia).
    rewrite append_snoc.
    replace (String.length pre + 1) with (String.length (pre +:+ String c EmptyString))
      by (rewrite string_length_append; reflexivity).
    rewrite get_append_here. reflexivity.
Qed.

Lemma nextToken_digit (d0 : ascii) (body : string) :
  Lex.isdigit d0 = true ->
  let src := String d0 body in
  Lex.nextToken stod (Lex.new src) = Lex.scanNumber stod (mkLexer src 1 0 1 2 []) /\
  at_rest (mkLexer src 1 0 1 2 []) (String d0 EmptyString) body.
Proof.
  intros Hd src. split; [| split; reflexivity].
  assert (Hne : forall d : ascii, Lex.isdigit d = false -> Ascii.eqb d0 d = false).
  { intros d Hdd. destruct (Ascii.eqb d0 d) eqn:E; [| reflexivity].
    apply Ascii.eqb_eq in E. subst d. congruence. }
  set (lx0 := Lex.new src).
  assert (Hat0 : at_rest lx0 EmptyString (String d0 body)) by (split; reflexivity).
  assert (Hskip : Lex.skipWhitespace lx0 = lx0).
  { unfold Lex.skipWhitespace. cbn [Lex.skipWhitespace_loop].
    rewrite (at_rest_peek lx0 _ _ Hat0).
    rewrite (Hne " "%char eq_refl), (Hne Lex.CR eq_refl), (Hne Lex.TAB eq_refl),
      (Hne Lex.LF eq_refl), (Hne "/"%char eq_refl). reflexivity. }
  destruct (at_rest_advance lx0 _ _ _ Hat0) as [Hadv _].
  rewrite (Hne Lex.LF eq_refl) in Hadv.
  unfold Lex.nextToken. rewrite Hskip.
  change (Lex.set_start lx0 (current_ lx0)) with lx0.
  rewrite (at_rest_isAtEnd lx0 _ _ Hat0).
  change (tokenBuffer_ lx0) with (@nil Token).
  unfold Lex.scanToken. rewrite Hadv.
  assert (Halpha : Lex.isalpha d0 || Ascii.eqb d0 "_" = false).
  { destruct (Lex.isalpha d0 || Ascii.eqb d0 "_") eqn:E; [| reflexivity].
    exfalso. revert Hd E. unfold Lex.isalpha, Lex.isdigit, Lex.char_between.
    destruct (Ascii.eqb d0 "_") eqn:Eu.
    - apply Ascii.eqb_eq in Eu. subst d0. discriminate.
    - rewrite orb_false_r. cbn [nat_of_ascii].
      change (nat_of_ascii "0") with 48. change (nat_of_ascii "9") with 57.
      change (nat_of_ascii "a") with 97. change (nat_of_ascii "z") with 122.
      change (nat_of_ascii "A") with 65. change (nat_of_ascii "Z") with 90.
      intros H1 H2.
      apply andb_prop in H1 as [H1a H1b].
      apply Nat.leb_le in H1a, H1b.
      apply orb_prop in H2 as [H2 | H2]; apply andb_prop in H2 as [H2a H2b];
        apply Nat.leb_le in H2a, H2b; lia. }
  rewrite Halpha, Hd. reflexivity.
Qed.

(** X27.  Maximal munch for numbers: a source that starts with digits
    gives all of them as one [NUMBER] token, and a point belongs to the
    number only when a digit follows it.  The value of the token is
    what [std::stod] makes of exactly that text; when [std::stod] throws,
    [nextToken] throws.  The lexer then stands behind the number with an
    empty buffer. *)
Theorem nextToken_number (d0 : ascii) (ds fs suf : string) :
  Lex.isdigit d0 = true ->
  all_chars Lex.isdigit ds = true ->
  starts_with Lex.isdigit suf = false ->
  (fraction_ahead suf = false ->
   let text := String d0 ds in
   Lex.nextToken stod (Lex.new (text +:+ suf)) =
     (match stod text with
      | Some value => inl (Token5 NUMBER (TVDouble value) text 1 1)
      | None => inr (StdException "stod")
      end,
      mkLexer (text +:+ suf) (String.length text) 0 1
        (1 + Z.of_nat (String.length text))%Z [])) /\
  (all_chars Lex.isdigit fs = true -> fs <> EmptyString ->
   let text := String d0 ds +:+ String "." fs in
   Lex.nextToken stod (Lex.new (text +:+ suf)) =
     (match stod text with
      | Some value => inl (Token5 NUMBER (TVDouble value) text 1 1)
      | None => inr (StdException "stod")
      end,
      mkLexer (text +:+ suf) (String.length text) 0 1
        (1 + Z.of_nat (String.length text))%Z [])).
Proof.
  intros Hd0 Hds Hsuf.
  assert (Hfinish : forall (text rest : string) (lx : Lexer),
            lx = mkLexer (text +:+ rest) (String.length text) 0 1
                   (1 + Z.of_nat (String.length text))%Z [] ->
            (match stod (Lex.text_of lx) with
             | Some value =>
                 (inl (Token5 NUMBER (TVDouble value) (Lex.text_of lx) (line_ lx)
                         (Lex.size_sub (column_ lx) (Lex.strlen (Lex.text_of lx)))), lx)
             | None => (inr (StdException "stod"), lx)
             end : (Token + Exception) * Lexer) =
            (match stod text with
             | Some value => inl (Token5 NUMBER (TVDouble value) text 1 1)
             | None => inr (StdException "stod")
             end, lx)).
  { intros text rest lx ->.
    assert (Htext : Lex.text_of (mkLexer (text +:+ rest) (String.length text) 0 1
                                   (1 + Z.of_nat (String.length text))%Z []) = text).
    { unfold Lex.text_of. cbn [start_ current_ source_].
      rewrite Nat.sub_0_r. apply substring_prefix. }
    rewrite Htext. cbn [line_ column_].
    assert (Hcol : Lex.size_sub (1 + Z.of_nat (String.length text))%Z (Lex.strlen text)
                   = 1%Z).
    { unfold Lex.size_sub, Lex.strlen.
      replace (1 + Z.of_nat (String.length text) - Z.of_nat (String.length text))%Z
        with 1%Z by lia. reflexivity. }
    rewrite Hcol. destruct (stod text); reflexivity. }
  split.
  - intros Hfrac text.
    destruct (nextToken_digit d0 (ds +:+ suf) Hd0) as [Hnext Hat1].
    cbv zeta in Hnext, Hat1. unfold text. rewrite append_cons, Hnext. clear Hnext.
    set (src := String d0 (ds +:+ suf)) in *.
    set (lx1 := mkLexer src 1 0 1 2 []) in *.
    unfold Lex.scanNumber.
    rewrite (advance_while_word Lex.isdigit ds suf eq_refl eq_refl Hds Hsuf _ _ lx1 Hat1)
      by (cbn [lx1 source_ src String.length]; rewrite string_length_append; lia).
    cbn [lx1 source_ current_ start_ line_ column_ tokenBuffer_].
    set (lx2 := mkLexer _ _ _ _ _ _).
    assert (Hat2 : at_rest lx2 (String d0 ds) suf).
    { split; [reflexivity |]. cbn [lx2 current_ String.length]. lia. }
    assert (Hnodot : Ascii.eqb (Lex.peek lx2) "." && Lex.isdigit (Lex.peekNext lx2) = false).
    { rewrite (at_rest_peek lx2 _ _ Hat2).
      destruct suf as [| c suf']; [reflexivity |].
      rewrite (at_rest_peekNext lx2 _ _ _ Hat2).
      unfold fraction_ahead in Hfrac. cbn [starts_with after_first] in Hfrac.
      rewrite Ascii.eqb_sym.
      destruct (Ascii.eqb "." c); [| reflexivity]. cbn [andb] in *.
      destruct suf' as [| d suf'']; [reflexivity | exact Hfrac]. }
    rewrite Hnodot.
    assert (Hlx2 : lx2 = mkLexer (String d0 ds +:+ suf) (String.length (String d0 ds)) 0 1
                           (1 + Z.of_nat (String.length (String d0 ds)))%Z []).
    { unfold lx2, src. rewrite append_cons. cbn [String.length]. f_equal; lia. }
    rewrite (Hfinish (String d0 ds) suf lx2 Hlx2). rewrite Hlx2. reflexivity.
  - intros Hfs Hne text.
    destruct fs as [| f0 fs']; [congruence |].
    cbn [all_chars] in Hfs. apply andb_prop in Hfs as [Hf0 Hfs'].
    assert (Hsrc : text +:+ suf = String d0 (ds +:+ String "." (String f0 (fs' +:+ suf)))).
    { unfold text. rewrite append_assoc. reflexivity. }
    destruct (nextToken_digit d0 (ds +:+ String "." (String f0 (fs' +:+ suf))) Hd0)
      as [Hnext Hat1].
    cbv zeta in Hnext, Hat1. rewrite Hsrc, Hnext. clear Hnext.
    set (src := String d0 (ds +:+ String "." (String f0 (fs' +:+ suf)))) in *.
    set (lx1 := mkLexer src 1 0 1 2 []) in *.
    unfold Lex.scanNumber.
    rewrite (advance_while_word Lex.isdigit ds (String "." (String f0 (fs' +:+ suf)))
               eq_refl eq_refl Hds eq_refl _ _ lx1 Hat1)
      by (cbn [lx1 source_ src String.length]; rewrite string_length_append; lia).
    cbn [lx1 source_ current_ start_ line_ column_ tokenBuffer_].
    set (lx2 := mkLexer _ _ _ _ _ _).
    assert (Hat2 : at_rest lx2 (String d0 ds) (String "." (String f0 (fs' +:+ suf)))).
    { split; [reflexivity |]. cbn [lx2 current_ String.length]. lia. }
    rewrite (at_rest_peek lx2 _ _ Hat2), (at_rest_peekNext lx2 _ _ _ Hat2), Hf0.
    cbn [Ascii.eqb Bool.eqb andb].
    destruct (at_rest_advance lx2 _ _ _ Hat2) as [Hadv Hat3].
    change (Ascii.eqb "." Lex.LF) with false in Hadv.
    rewrite Hadv in Hat3 |- *. cbn [snd] in Hat3 |- *.
    set (lx3 := mkLexer (source_ lx2) (S (current_ lx2)) (start_ lx2) (line_ lx2)
                  (column_ lx2 + 1)%Z (tokenBuffer_ lx2)) in *.
    rewrite (advance_while_word Lex.isdigit (String f0 fs') suf eq_refl eq_refl
               ltac:(cbn [all_chars]; rewrite Hf0, Hfs'; reflexivity) Hsuf _ _ lx3 Hat3)
      by (cbn [lx3 lx2 source_ src String.length]; rewrite !string_length_append;
          cbn [String.length]; rewrite string_length_append; lia).
    match goal with |- context [Lex.text_of ?l] => set (lx4 := l) end.
    assert (Hlx4 : lx4 = mkLexer (text +:+ suf) (String.length text) 0 1
                           (1 + Z.of_nat (String.length text))%Z []).
    { unfold lx4. cbn [lx3 lx2 source_ current_ start_ line_ column_ tokenBuffer_].
      rewrite Hsrc. unfold text. rewrite string_length_append.
      cbn [String.length]. f_equal; lia. }
    rewrite (Hfinish text suf lx4 Hlx4). rewrite Hlx4, Hsrc. reflexivity.
Qed.

End LexerNumbers.

(** [42 ] *)
Lemma nextToken_number_witness :
  Lex.nextToken Std.stod (Lex.new ("42" +:+ " ")) =
    (match Std.stod "42" with
     | Some value => inl (Token5 NUMBER (TVDouble value) "42" 1 1)
     | None => inr (StdException "stod")
     end,
     mkLexer ("42" +:+ " ") (String.length "42") 0 1
       (1 + Z.of_nat (String.length "42"))%Z []).
Proof.
  destruct (nextToken_number Std.stod "4"%char "2" EmptyString " ") as [H _].
  - reflexivity.
  - reflexivity.
  - reflexivity.
  - exact (H eq_refl).
Defined.

(** ** The parser: what it builds *)

Section PostRules.

Local Open Scope nat_scope.

Lemma post_ret {A} (P : A -> Prop) (a : A) : P a -> post P (Parse.ret a).
Proof. intros H p p' a' Hrun. injection Hrun as <- <-. exact H. Qed.

Lemma post_throw {A} (P : A -> Prop) (e : Exception) : post P (Parse.throw e).
Proof. intros p p' a Hrun. discriminate Hrun. Qed.

Lemma post_runtime_error {A} (P : A -> Prop) (msg : string) :
  post P (Parse.runtime_error msg).
Proof. apply post_throw. Qed.

Lemma post_out_of_fuel {A} (P : A -> Prop) : post P Parse.out_of_fuel.
Proof. intros p p' a Hrun. discriminate Hrun. Qed.

Lemma post_bind {A B} (Q : A -> Prop) (P : B -> Prop) (m : Parse.PM A)
    (k : A -> Parse.PM B) :
  post Q m -> (forall a, Q a -> post P (k a)) -> post P (Parse.bind m k).
Proof.
  intros Hm Hk p p' b Hrun. unfold Parse.bind in Hrun.
  destruct (m p) as [[a | e | |] p1] eqn:Hm1; try discriminate Hrun.
  eapply Hk; [eapply Hm; exact Hm1 | exact Hrun].
Qed.

Lemma post_bind_any {A B} (P : B -> Prop) (m : Parse.PM A) (k : A -> Parse.PM B) :
  (forall a, post P (k a)) -> post P (Parse.bind m k).
Proof.
  intros Hk. apply (post_bind (fun _ => True)); [intros p p' a _; exact I |].
  intros a _. apply Hk.
Qed.

Lemma post_weaken {A} (P Q : A -> Prop) (m : Parse.PM A) :
  (forall a, P a -> Q a) -> post P m -> post Q m.
Proof. intros H Hm p p' a Hrun. apply H. eapply Hm. exact Hrun. Qed.

End PostRules.

Section ParserFacts.

Local Open Scope nat_scope.

Variable stod : string -> option double.

Ltac post_simple :=
  repeat match goal with
         | |- post _ (Parse.ret _) => apply post_ret
         | |- post _ (Parse.throw _) => apply post_throw
         | |- post _ (Parse.runtime_error _) => apply post_runtime_error
         | |- post _ Parse.out_of_fuel => apply post_out_of_fuel
         | |- post _ (if ?c then _ else _) => destruct c
         | |- post _ (Parse.bind (Parse.advance _) _) => apply post_bind_any; intros _
         | |- post _ (Parse.bind (Parse.consume _ _ _) _) => apply post_bind_any; intros _
         | |- post _ (Parse.bind (Parse.match_ _ _) _) => apply post_bind_any; intros ?
         | |- post _ (Parse.bind (Parse.check _) _) => apply post_bind_any; intros ?
         | |- post _ (Parse.bind Parse.current _) => apply post_bind_any; intros ?
         | |- post _ (Parse.bind Parse.current_string _) => apply post_bind_any; intros ?
         | |- post _ (Parse.bind Parse.lexer_isEOF _) => apply post_bind_any; intros ?
         end.

Lemma post_comma_list {A} (P : A -> Prop) (item : Parse.PM A) (n : nat) :
  post P item ->
  forall acc : list A, Forall P acc -> post (Forall P) (Parse.comma_list stod n item acc).
Proof.
  intros Hitem. induction n as [| n IH]; intros acc Hacc; cbn [Parse.comma_list].
  - apply post_out_of_fuel.
  - apply (post_bind P); [exact Hitem |]. intros x Hx.
    assert (Hacc' : Forall P (acc ++ [x])).
    { apply Forall_app. split; [exact Hacc | constructor; [exact Hx | constructor]]. }
    post_simple; [apply IH | ]; exact Hacc'.
Qed.

Lemma post_binary_loop (ops : list TokenType) (operand : Parse.PM Expression) (n : nat) :
  incl ops binary_operators ->
  post wf_expression operand ->
  forall expr : Expression,
    wf_expression expr ->
    post wf_expression (Parse.binary_loop stod n ops operand expr).
Proof.
  intros Hops Hoperand. induction n as [| n IH]; intros expr Hexpr;
    cbn [Parse.binary_loop].
  - apply post_out_of_fuel.
  - apply post_bind_any. intros t.
    destruct (bool_decide (tok_type t ∈ ops)) eqn:Hin.
    + apply bool_decide_eq_true in Hin. apply list_elem_of_In in Hin.
      post_simple. apply (post_bind wf_expression); [exact Hoperand |].
      intros right Hright. apply IH. constructor; auto.
    + post_simple. exact Hexpr.
Qed.

Variable fuel : nat.
Variable rec : Parse.Rec.
Hypothesis Hrec : RecWf rec.

Let Hrec_statement := proj1 Hrec.
Let Hrec_block := proj1 (proj2 Hrec).
Let Hrec_if := proj1 (proj2 (proj2 Hrec)).
Let Hrec_expression := proj1 (proj2 (proj2 (proj2 Hrec))).
Let Hrec_assignment := proj1 (proj2 (proj2 (proj2 (proj2 Hrec)))).
Let Hrec_unary := proj1 (proj2 (proj2 (proj2 (proj2 (proj2 Hrec))))).
Let Hrec_arrayAccess := proj1 (proj2 (proj2 (proj2 (proj2 (proj2 (proj2 Hrec)))))).
Let Hrec_propertyAccess := proj2 (proj2 (proj2 (proj2 (proj2 (proj2 (proj2 Hrec)))))).

Ltac post_step :=
  match goal with
  | |- post _ (Parse.ret _) => apply post_ret
  | |- post _ (Parse.throw _) => apply post_throw
  | |- post _ (Parse.runtime_error _) => apply post_runtime_error
  | |- post _ Parse.out_of_fuel => apply post_out_of_fuel
  | |- post _ (let _ := _ in _) => cbv zeta
  | |- post _ (if ?c then _ else _) => destruct c
  | |- post _ (Parse.bind (Parse.advance _) _) => apply post_bind_any; intros _
  | |- post _ (Parse.bind (Parse.consume _ _ _) _) => apply post_bind_any; intros _
  | |- post _ (Parse.bind (Parse.match_ _ _) _) => apply post_bind_any; intros ?
  | |- post _ (Parse.bind (Parse.check _) _) => apply post_bind_any; intros ?
  | |- post _ (Parse.bind Parse.current _) => apply post_bind_any; intros ?
  | |- post _ (Parse.bind Parse.current_string _) => apply post_bind_any; intros ?
  | |- post _ (Parse.bind Parse.lexer_isEOF _) => apply post_bind_any; intros ?
  | |- post _ (Parse.bind (Parse.r_expression rec) _) =>
      apply (post_bind wf_expression); [exact Hrec_expression | intros ? ?]
  | |- post _ (Parse.bind (Parse.r_assignment rec) _) =>
      apply (post_bind wf_expression); [exact Hrec_assignment | intros ? ?]
  | |- post _ (Parse.bind (Parse.r_unary rec) _) =>
      apply (post_bind wf_expression); [exact Hrec_unary | intros ? ?]
  | |- post _ (Parse.bind (Parse.r_block rec) _) =>
      apply (post_bind (Forall wf_statement)); [exact Hrec_block | intros ? ?]
  | |- post _ (Parse.bind (Parse.r_statement rec) _) =>
      apply (post_bind wf_statement); [exact Hrec_statement | intros ? ?]
  | |- post _ (Parse.bind (Parse.r_if rec) _) =>
      apply (post_bind wf_statement); [exact Hrec_if | intros ? ?]
  | |- post _ (@Parse.bind unit _ _ _) => apply post_bind_any; intros _
  | |- post wf_expression (Parse.r_arrayAccess rec _) => apply Hrec_arrayAccess
  | |- post wf_expression (Parse.r_propertyAccess rec _) => apply Hrec_propertyAccess
  | |- post wf_expression (Parse.r_expression rec) => exact Hrec_expression
  | |- post wf_expression (Parse.r_assignment rec) => exact Hrec_assignment
  | |- post wf_expression (Parse.r_unary rec) => exact Hrec_unary
  | |- post (Forall wf_statement) (Parse.r_block rec) => exact Hrec_block
  | |- post wf_statement (Parse.r_statement rec) => exact Hrec_statement
  | |- post wf_statement (Parse.r_if rec) => exact Hrec_if
  end.

Ltac wf_solve :=
  repeat first
    [ assumption
    | match goal with
      | |- In _ binary_operators => cbn; tauto
      | |- _ \/ _ => (left; reflexivity) || (right; reflexivity)
      | |- forall _, _ = Some _ -> _ => let H := fresh in intros ? H; inversion H; subst
      | |- forall _, None = Some _ -> _ => intros ? ?; discriminate
      | |- Forall _ (_ ++ _) => apply Forall_app; split
      | |- _ /\ _ => split
      | |- exists x i, VariableDeclaration _ _ = VariableDeclaration x i =>
          eexists _, _; reflexivity
      end
    | constructor ].

Ltac post_auto := repeat post_step; try solve [wf_solve].

Lemma post_plus_loop (n : nat) :
  forall expr : Expression,
    wf_expression expr -> post wf_expression (Parse.plus_loop stod rec n expr).
Proof.
  induction n as [| n IH]; intros expr Hexpr; cbn [Parse.plus_loop]; post_auto.
  apply IH. wf_solve.
Qed.

Lemma post_statements_loop (stop : Parse.PM bool) (n : nat) :
  forall acc : list Statement,
    Forall wf_statement acc ->
    post (Forall wf_statement) (Parse.statements_loop rec n stop acc).
Proof.
  induction n as [| n IH]; intros acc Hacc; cbn [Parse.statements_loop].
  - apply post_out_of_fuel.
  - apply post_bind_any. intros b. post_auto. apply IH. wf_solve.
Qed.

Lemma post_expression_list (n : nat) :
  post (Forall wf_expression) (Parse.comma_list stod n (Parse.r_expression rec) []).
Proof. apply post_comma_list; [exact Hrec_expression | constructor]. Qed.

Lemma post_parseArrayExpression :
  post wf_expression (Parse.parseArrayExpression stod fuel rec).
Proof.
  unfold Parse.parseArrayExpression. post_auto.
  apply (post_bind (Forall wf_expression)); [apply post_expression_list |].
  intros elements Hel. post_auto.
Qed.

Lemma post_parseArrayAccess (array : Expression) :
  wf_expression array ->
  post wf_expression (Parse.parseArrayAccess stod rec array).
Proof. intros Harray. unfold Parse.parseArrayAccess. post_auto. Qed.

Lemma post_parsePropertyAccess (object : Expression) :
  wf_expression object ->
  post wf_expression (Parse.parsePropertyAccess stod rec object).
Proof. intros Hobject. unfold Parse.parsePropertyAccess. post_auto. Qed.

Lemma post_parsePrimary : post wf_expression (Parse.parsePrimary stod fuel rec).
Proof.
  unfold Parse.parsePrimary, Parse.parseExpressionList. apply post_bind_any. intros t.
  destruct (tok_type t); post_auto.
  - apply (post_bind (Forall wf_expression)).
    + post_auto. apply post_expression_list.
    + intros arguments Harguments. post_auto.
  - apply post_parseArrayAccess. wf_solve.
  - apply post_parsePropertyAccess. wf_solve.
  - apply post_parseArrayExpression.
Qed.

Lemma post_parseUnary : post wf_expression (Parse.parseUnary stod fuel rec).
Proof. unfold Parse.parseUnary. post_auto. apply post_parsePrimary. Qed.

Lemma post_parseFactor : post wf_expression (Parse.parseFactor stod fuel rec).
Proof.
  unfold Parse.parseFactor.
  apply (post_bind wf_expression); [apply post_parseUnary |]. intros expr Hexpr.
  apply post_binary_loop; [| apply post_parseUnary | exact Hexpr].
  intros op Hop. cbn in *. tauto.
Qed.

Lemma post_parseTerm : post wf_expression (Parse.parseTerm stod fuel rec).
Proof.
  unfold Parse.parseTerm.
  apply (post_bind wf_expression); [apply post_parseFactor |]. intros expr Hexpr.
  apply post_binary_loop; [| apply post_parseFactor | exact Hexpr].
  intros op Hop. cbn in *. tauto.
Qed.

Lemma post_parseComparison : post wf_expression (Parse.parseComparison stod fuel rec).
Proof.
  unfold Parse.parseComparison.
  apply (post_bind wf_expression); [apply post_parseTerm |]. intros expr Hexpr.
  apply post_binary_loop; [| apply post_parseTerm | exact Hexpr].
  intros op Hop. cbn in *. tauto.
Qed.

Lemma post_parseEquality : post wf_expression (Parse.parseEquality stod fuel rec).
Proof.
  unfold Parse.parseEquality.
  apply (post_bind wf_expression); [apply post_parseComparison |]. intros expr Hexpr.
  apply post_binary_loop; [| apply post_parseComparison | exact Hexpr].
  intros op Hop. cbn in *. tauto.
Qed.

Lemma post_parseLogicalAnd : post wf_expression (Parse.parseLogicalAnd stod fuel rec).
Proof.
  unfold Parse.parseLogicalAnd.
  apply (post_bind wf_expression); [apply post_parseEquality |]. intros expr Hexpr.
  apply post_binary_loop; [| apply post_parseEquality | exact Hexpr].
  intros op Hop. cbn in *. tauto.
Qed.

Lemma post_parseLogicalOr : post wf_expression (Parse.parseLogicalOr stod fuel rec).
Proof.
  unfold Parse.parseLogicalOr.
  apply (post_bind wf_expression); [apply post_parseLogicalAnd |]. intros expr Hexpr.
  apply post_binary_loop; [| apply post_parseLogicalAnd | exact Hexpr].
  intros op Hop. cbn in *. tauto.
Qed.

Lemma post_parseAssignment : post wf_expression (Parse.parseAssignment stod fuel rec).
Proof.
  unfold Parse.parseAssignment.
  apply (post_bind wf_expression); [apply post_parseLogicalOr |]. intros expr Hexpr.
  post_auto.
Qed.

Lemma post_parseVariableDeclaration_shape :
  post (fun s => (exists x i, s = VariableDeclaration x i) /\ wf_statement s)
    (Parse.parseVariableDeclaration stod fuel rec).
Proof.
  unfold Parse.parseVariableDeclaration. post_auto.
  all: apply post_bind_any; intros isArrayDeclaration; post_auto.
  all: apply (post_bind (fun o : option Expression =>
                           forall e, o = Some e -> wf_expression e));
    [| intros initializer Hinit; post_auto].
  all: post_auto.
  all: try (apply (post_bind (Forall wf_expression));
            [post_auto; apply post_expression_list | intros elements Hel; post_auto]).
Qed.

Lemma post_parseVariableDeclaration :
  post wf_statement (Parse.parseVariableDeclaration stod fuel rec).
Proof.
  eapply post_weaken; [| apply post_parseVariableDeclaration_shape].
  intros s [_ H]. exact H.
Qed.

Lemma post_parseBlock : post (Forall wf_statement) (Parse.parseBlock stod fuel rec).
Proof.
  unfold Parse.parseBlock. post_auto.
  apply (post_bind (Forall wf_statement)).
  - apply post_statements_loop. constructor.
  - intros statements Hst. post_auto.
Qed.

Lemma post_parseFunctionDeclaration :
  post wf_statement (Parse.parseFunctionDeclaration stod fuel rec).
Proof.
  unfold Parse.parseFunctionDeclaration. post_auto.
  apply post_bind_any. intros parameters. post_auto.
Qed.

Lemma post_parseLoopHeader :
  post (fun h : option Statement * option Expression * option Expression =>
          (forall s, fst (fst h) = Some s ->
             (exists x i, s = VariableDeclaration x i) /\ wf_statement s) /\
          (forall e, snd (fst h) = Some e -> wf_expression e) /\
          (forall e, snd h = Some e -> wf_expression e))
    (Parse.parseLoopHeader stod fuel rec).
Proof.
  unfold Parse.parseLoopHeader. post_auto.
  - apply (post_bind (fun o : option Statement =>
                        forall s, o = Some s ->
                          (exists x i, s = VariableDeclaration x i) /\ wf_statement s)).
    + destruct a0; post_auto.
      apply (post_bind (fun s => (exists x i, s = VariableDeclaration x i) /\
                                 wf_statement s));
        [apply post_parseVariableDeclaration_shape |].
      intros d Hd. post_auto.
    + intros init Hinit. post_auto.
      all: apply (post_bind (fun o : option Expression =>
                               forall e, o = Some e -> wf_expression e));
        [post_auto | intros condition Hcond; post_auto].
      all: apply (post_bind (fun o : option Expression =>
                               forall e, o = Some e -> wf_expression e));
        [post_auto | intros increment Hincr; post_auto].
      all: cbn [fst snd]; auto.
Qed.

Lemma post_parseLoopStatement :
  post wf_statement (Parse.parseLoopStatement stod fuel rec).
Proof.
  unfold Parse.parseLoopStatement. post_auto.
  all: apply (post_bind (fun h : option Statement * option Expression * option Expression =>
          (forall s, fst (fst h) = Some s ->
             (exists x i, s = VariableDeclaration x i) /\ wf_statement s) /\
          (forall e, snd (fst h) = Some e -> wf_expression e) /\
          (forall e, snd h = Some e -> wf_expression e)));
    [| intros [[init condition] increment] (Hinit & Hcond & Hincr); cbn [fst snd] in *;
       post_auto].
  - post_auto.
    apply (post_bind (fun h : option Statement * option Expression * option Expression =>
          (forall s, fst (fst h) = Some s ->
             (exists x i, s = VariableDeclaration x i) /\ wf_statement s) /\
          (forall e, snd (fst h) = Some e -> wf_expression e) /\
          (forall e, snd h = Some e -> wf_expression e)));
      [apply post_parseLoopHeader |].
    intros h Hh. post_auto.
Qed.

Lemma post_parsePrintStatement :
  post wf_statement (Parse.parsePrintStatement stod fuel rec).
Proof.
  unfold Parse.parsePrintStatement, Parse.parseExpressionList. post_auto.
  - apply (post_bind wf_expression); [apply post_plus_loop; constructor |].
    intros expr Hexpr. post_auto.
  - apply (post_bind (Forall wf_expression)); [post_auto; apply post_expression_list |].
    intros args Hargs. post_auto.
Qed.

Lemma post_parseIfStatement : post wf_statement (Parse.parseIfStatement stod rec).
Proof. unfold Parse.parseIfStatement. post_auto. Qed.

Lemma post_parseReturnStatement :
  post wf_statement (Parse.parseReturnStatement stod rec).
Proof.
  unfold Parse.parseReturnStatement. post_auto.
  all: apply (post_bind (fun o : option Expression =>
                           forall e, o = Some e -> wf_expression e));
    [post_auto | intros value Hvalue; post_auto].
Qed.

Lemma post_parseStatement : post wf_statement (Parse.parseStatement stod fuel rec).
Proof.
  unfold Parse.parseStatement. apply post_bind_any. intros t.
  destruct (tok_type t);
    try (unfold Parse.parseExpressionStatement, Parse.parseBreakStatement; post_auto; fail).
  - apply (post_bind (Forall wf_statement)); [apply post_parseBlock |].
    intros b Hb. post_auto.
  - apply post_parseFunctionDeclaration.
  - apply post_parsePrintStatement.
  - apply post_parsePrintStatement.
  - apply post_parseLoopStatement.
  - apply post_parseIfStatement.
  - apply post_parseReturnStatement.
  - apply post_parseVariableDeclaration.
Qed.

Lemma RecWf_step : RecWf (Parse.step stod fuel rec).
Proof.
  unfold Parse.step, RecWf.
  cbn [Parse.r_statement Parse.r_block Parse.r_if Parse.r_expression Parse.r_assignment
         Parse.r_unary Parse.r_arrayAccess Parse.r_propertyAccess].
  repeat split.
  - apply post_parseStatement.
  - apply post_parseBlock.
  - apply post_parseIfStatement.
  - unfold Parse.parseExpression. exact Hrec_assignment.
  - apply post_parseAssignment.
  - apply post_parseUnary.
  - intros e He. apply post_parseArrayAccess. exact He.
  - intros e He. apply post_parsePropertyAccess. exact He.
Qed.

End ParserFacts.

Lemma RecWf_rec_at (stod : string -> option double) (fuel : nat) :
  RecWf (Parse.rec_at stod fuel).
Proof.
  induction fuel as [| f IH]; cbn [Parse.rec_at].
  - unfold Parse.bottom, RecWf.
    cbn [Parse.r_statement Parse.r_block Parse.r_if Parse.r_expression Parse.r_assignment
           Parse.r_unary Parse.r_arrayAccess Parse.r_propertyAccess].
    repeat split; intros; apply post_out_of_fuel.
  - apply RecWf_step. exact IH.
Qed.

(** X28.  Every program that [parse] returns is well formed for the
    interpreter: each binary operator is one that
    [evaluateBinaryExpression] knows, each unary operator is [!] or [-],
    the initializer of a loop is a variable declaration or absent, and
    no print statement carries a direct string. *)
Theorem parse_well_formed (stod : string -> option double) (fuel : nat)
    (p p' : Parser) (program : list Statement) :
  Parse.parse stod fuel p = (Ok program, p') ->
  Forall wf_statement program.
Proof.
  intros Hrun. unfold Parse.parse, Parse.parse_with in Hrun.
  eapply (post_statements_loop (Parse.rec_at stod fuel) (RecWf_rec_at stod fuel));
    [| exact Hrun].
  constructor.
Qed.

(** The program [x = 1 + 2;]. *)
Lemma parse_well_formed_witness :
  Forall wf_statement
    [ExpressionStatement
       (BinaryExpression ASSIGN (Identifier "x")
          (BinaryExpression PLUS (lit 1) (lit 2)))].
Proof.
  apply (parse_well_formed Std.stod 100
           (snd (Parse.new Std.stod (Lex.new "x = 1 + 2;")))
           (snd (Parse.parse Std.stod 100
                   (snd (Parse.new Std.stod (Lex.new "x = 1 + 2;")))))).
  vm_compute. reflexivity.
Defined.

(** ** Reading the source file *)

Section FileFacts.

Local Open Scope nat_scope.

Variable stoi : string -> option (Z * nat).
Variable stod : string -> option double.
Variable extension : string -> string.

Lemma readFileIdzeyKL_unusable (inputName : string) (file : InputFile) :
  unusable extension inputName file ->
  exists diagnostic : string,
    readFileIdzeyKL extension inputName file = (EmptyString, [Cerr diagnostic]).
Proof.
  intros H. unfold readFileIdzeyKL.
  destruct (isIdzeyKLFile extension inputName) eqn:Hext; cbn [negb]; [| eauto].
  destruct H as [H | [-> | [(size & result & -> & Hsize)
                           | [(size & what & ->) | (size & ->)]]]].
  - congruence.
  - eauto.
  - replace (size <=? 0)%Z with true by lia. eauto.
  - destruct (size <=? 0)%Z; eauto.
  - destruct (size <=? 0)%Z; eauto.
Qed.

(** The content of a file is returned only when the file has the
    extension, opens, has a positive size and is read. *)
Lemma readFileIdzeyKL_usable (inputName : string) (file : InputFile) :
  ~ unusable extension inputName file ->
  exists (fileSize : Z) (content : string),
    file = Opened fileSize (ReadOk content) /\
    readFileIdzeyKL extension inputName file = (content, []).
Proof.
  intros H. unfold unusable in H. unfold readFileIdzeyKL.
  destruct (isIdzeyKLFile extension inputName) eqn:Hext; cbn [negb];
    [| exfalso; apply H; left; reflexivity].
  destruct file as [| size result].
  - exfalso. apply H. right. left. reflexivity.
  - destruct (size <=? 0)%Z eqn:Hsize.
    + exfalso. apply H. right. right. left. exists size, result. split; [reflexivity | lia].
    + destruct result as [what | | content].
      * exfalso. apply H. right. right. right. left. eauto.
      * exfalso. apply H. right. right. right. right. eauto.
      * eauto.
Qed.

(** X29.  The classic front end does not stop on an input file that it
    cannot use (wrong extension, a file that does not open, is empty or
    cannot be read): [readFileIdzeyKL] prints its diagnostic and returns
    the empty string, which [main] runs as the empty program, so the
    process prints nothing else and exits with status 0.  Any other file
    is run with its content as the source. *)
Theorem mainClassicBuffer_input (fuel : nat) (inputName : string)
    (more : list string) (file : InputFile) :
  (unusable extension inputName file ->
   exists diagnostic : string,
     readFileIdzeyKL extension inputName file = (EmptyString, [Cerr diagnostic]) /\
     mainClassicBuffer stoi stod extension (S fuel) (inputName :: more) file =
       mkRun (Exited 0) EmptyString diagnostic) /\
  (~ unusable extension inputName file ->
   exists (fileSize : Z) (content : string),
     file = Opened fileSize (ReadOk content) /\
     mainClassicBuffer stoi stod extension (S fuel) (inputName :: more) file =
       main stoi stod (S fuel) content).
Proof.
  split; intros H.
  - destruct (readFileIdzeyKL_unusable inputName file H) as [d Hd].
    exists d. split; [exact Hd |].
    unfold mainClassicBuffer. rewrite Hd, main_empty_source.
    cbn [exit_status std_out std_err stderr_of].
    rewrite !append_empty_r. reflexivity.
  - destruct (readFileIdzeyKL_usable inputName file H) as (size & content & Hfile & Hread).
    exists size, content. split; [exact Hfile |].
    unfold mainClassicBuffer. rewrite Hread.
    destruct (main stoi stod (S fuel) content) as [status out err].
    reflexivity.
Qed.

End FileFacts.

(** A file whose name does not end in [.idzey]. *)
Lemma mainClassicBuffer_input_witness :
  exists diagnostic : string,
    readFileIdzeyKL (fun _ => ".txt") "program.txt" (Opened 3 (ReadOk "x;"))
      = (EmptyString, [Cerr diagnostic]) /\
    mainClassicBuffer Std.stoi Std.stod (fun _ => ".txt") 1 ["program.txt"]
      (Opened 3 (ReadOk "x;"))
      = mkRun (Exited 0) EmptyString diagnostic.
Proof.
  destruct (mainClassicBuffer_input Std.stoi Std.stod (fun _ => ".txt") 0
              "program.txt" [] (Opened 3 (ReadOk "x;"))) as [H _].
  apply H. left. reflexivity.
Defined.
